(** * Aventura: tiered lorebook entry retrieval

    A shallow embedding of [src/lib/services/ai/entryRetrieval.ts]
    (class [EntryRetrievalService]) and the properties of its retrieval
    pipeline: tier-1 rule evaluation, LLM selection with its two-stage
    response parsing, merging and ranking, and context-block rendering.

    Conventions.
    - JavaScript strings are Rocq [string]s (byte strings, read as UTF-8).
      The two regular expressions of the source only inspect ASCII
      characters, so they read the same on bytes as on UTF-16 code units.
    - JavaScript numbers that the source uses as integers (priorities,
      limits, counts) are [Z].
    - An [async] method is a computation in the [Async] monad: it ends
      [Resolved] or [Rejected] and leaves a trace of console logs and
      provider calls.
    - The builtins [JSON.parse] and [String.prototype.trim] belong to the
      JavaScript runtime, not to the repository; they are the two members
      of the class [JSRuntime], and every general theorem holds for any
      runtime. *)

From Stdlib Require Import ZArith String Ascii List Sorted Permutation Lia.
From Stdlib Require QArith.
From stdpp Require Import base list strings gmap sorting.

Local Open Scope Z_scope.
Local Open Scope string_scope.
Local Open Scope list_scope.

(** ** Data model *)

(** Modelled from the spec: the types [Entry], [EntryType] and [StoryEntry]
    are imported from [$lib/types], which is not part of the sources at
    hand.  The fields are the ones [entryRetrieval.ts] reads; their ranges
    follow section 3 of the specification. *)
Inductive EntryType := character | location | item | faction | concept | event.

Inductive InjectionMode := mode_always | mode_auto | mode_never.

Inductive FactionStatus := neutral | allied | hostile.

(** [entry.state]: a payload tagged by [state.type].  The source switches on
    the tag of the state, not on [entry.type], so the two are independent
    here. *)
Inductive EntryState :=
| CharacterState (isPresent : bool) (currentDisposition : option string)
| LocationState (isCurrentLocation : bool)
| ItemState (inInventory : bool)
| FactionState (status : FactionStatus)
| ConceptState
| EventState.

Module Injection.
Record t := { mode : InjectionMode; priority : Z }.
End Injection.

Record Entry := {
  id : string;
  type : EntryType;
  name : string;
  description : string;
  injection : Injection.t;
  state : option EntryState
}.

Module StoryEntry.
Record t := { type : string; content : string }.
End StoryEntry.

#[global] Instance EntryType_eq_dec : EqDecision EntryType.
Proof. solve_decision. Defined.
#[global] Instance InjectionMode_eq_dec : EqDecision InjectionMode.
Proof. solve_decision. Defined.
#[global] Instance FactionStatus_eq_dec : EqDecision FactionStatus.
Proof. solve_decision. Defined.

(** [EntryRetrievalConfig] and its default. *)
Record EntryRetrievalConfig := {
  llmThreshold : Z;
  maxTier3Entries : Z;
  enableLLMSelection : bool;
  recentEntriesCount : Z;
  tier3Model : string;
  alwaysUseLLM : bool
}.

Definition DEFAULT_ENTRY_RETRIEVAL_CONFIG : EntryRetrievalConfig := {|
  llmThreshold := 0;
  maxTier3Entries := 0;
  enableLLMSelection := true;
  recentEntriesCount := 5;
  tier3Model := "x-ai/grok-4.1-fast";
  alwaysUseLLM := true
|}.

(** [Partial<EntryRetrievalConfig>]: every field may be left out. *)
Record PartialConfig := {
  p_llmThreshold : option Z;
  p_maxTier3Entries : option Z;
  p_enableLLMSelection : option bool;
  p_recentEntriesCount : option Z;
  p_tier3Model : option string;
  p_alwaysUseLLM : option bool
}.

Definition emptyPartial : PartialConfig :=
  {| p_llmThreshold := None; p_maxTier3Entries := None;
     p_enableLLMSelection := None; p_recentEntriesCount := None;
     p_tier3Model := None; p_alwaysUseLLM := None |}.

(** [{ ...DEFAULT_ENTRY_RETRIEVAL_CONFIG, ...config }] *)
Definition mergeConfig (d : EntryRetrievalConfig) (p : PartialConfig)
  : EntryRetrievalConfig := {|
  llmThreshold := default (llmThreshold d) (p_llmThreshold p);
  maxTier3Entries := default (maxTier3Entries d) (p_maxTier3Entries p);
  enableLLMSelection := default (enableLLMSelection d) (p_enableLLMSelection p);
  recentEntriesCount := default (recentEntriesCount d) (p_recentEntriesCount p);
  tier3Model := default (tier3Model d) (p_tier3Model p);
  alwaysUseLLM := default (alwaysUseLLM d) (p_alwaysUseLLM p)
|}.

Inductive Tier := T1 | T2 | T3.

Record RetrievedEntry := {
  entry : Entry;
  tier : Tier;
  priority : Z;
  matchReason : option string
}.

Record EntryRetrievalResult := {
  tier1 : list RetrievedEntry;
  tier2 : list RetrievedEntry;
  tier3 : list RetrievedEntry;
  all : list RetrievedEntry;
  contextBlock : string
}.

(** ** The provider and the effects of an async method *)

Record Message := { role : string; msg_content : string }.

Record Request := {
  messages : list Message;
  model : string;
  temperature : QArith_base.Q;
  maxTokens : Z
}.

Record Response := { content : string }.

Definition JSError := string.

Inductive Outcome (A : Type) :=
| Resolved (a : A)
| Rejected (err : JSError).
Arguments Resolved {A} a.
Arguments Rejected {A} err.

(** Modelled from the spec: [OpenRouterProvider] comes from [./openrouter],
    not part of the sources at hand.  The service uses one operation,
    [generateResponse], which resolves with a response or rejects. *)
Record OpenRouterProvider := {
  generateResponse : Request -> Outcome Response
}.

Inductive Event :=
| Log (tag : string)
| Call (req : Request).

Definition Async (A : Type) : Type := Outcome A * list Event.

Definition ret {A} (a : A) : Async A := (Resolved a, []).

Definition bind {A B} (m : Async A) (k : A -> Async B) : Async B :=
  match m with
  | (Resolved a, t1) => let '(o, t2) := k a in (o, t1 ++ t2)
  | (Rejected e, t1) => (Rejected e, t1)
  end.

(** [try { body } catch (error) { handler }] *)
Definition try_catch {A} (body : Async A) (handler : JSError -> Async A)
  : Async A :=
  match body with
  | (Resolved a, t1) => (Resolved a, t1)
  | (Rejected e, t1) => let '(o, t2) := handler e in (o, t1 ++ t2)
  end.

(** The stdpp monad notations [x ← m; k] and [m ;; k] are used for
    sequencing. *)
#[global] Instance Async_ret : MRet Async := @ret.
#[global] Instance Async_bind : MBind Async := fun A B k m => bind m k.

Definition DEBUG : bool := true.

(** [log(...)]: the first argument is kept as the event's tag. *)
Definition log (tag : string) : Async unit :=
  (Resolved tt, if DEBUG then [Log tag] else []).

(** [await provider.generateResponse(req)] *)
Definition await_generateResponse (p : OpenRouterProvider) (req : Request)
  : Async Response :=
  (generateResponse p req, [Call req]).

Definition outcome {A} (m : Async A) : Outcome A := fst m.
Definition trace {A} (m : Async A) : list Event := snd m.

(** ** The JavaScript runtime *)

(** Values that [JSON.parse] can return.  A number is carried as the text
    that [String(n)] renders for it, so that no floating point enters the
    model. *)
#[warnings="-register-all"]
Inductive JSValue :=
| JNull
| JBool (b : bool)
| JNumber (rendering : string)
| JString (s : string)
| JArray (elements : list JSValue)
| JObject (members : list (string * JSValue)).

(** [JSON.parse(text)]: [None] stands for the [SyntaxError] it throws.
    [String.prototype.trim] strips leading and trailing white space. *)
Class JSRuntime := {
  JSON_parse : string -> option JSValue;
  String_trim : string -> string
}.

(** [String(v)].  [None] stands for the [TypeError] that the conversion
    throws on an object whose own property [toString] hides the inherited
    method (a value from JSON is never callable).  An array is joined with
    commas, [null] elements rendered empty. *)
Fixpoint js_String (v : JSValue) : option string :=
  match v with
  | JNull => Some "null"
  | JBool true => Some "true"
  | JBool false => Some "false"
  | JNumber r => Some r
  | JString s => Some s
  | JArray l =>
      String.concat "," <$>
        (fix join (l : list JSValue) : option (list string) :=
           match l with
           | [] => Some []
           | x :: l' =>
               match
                 match x with JNull => Some EmptyString | _ => js_String x end,
                 join l'
               with
               | Some s, Some ss => Some (s :: ss)
               | _, _ => None
               end
           end) l
  | JObject members =>
      if bool_decide ("toString" ∈ members.*1) then None
      else Some "[object Object]"
  end.

Definition nl : string := String (ascii_of_nat 10) EmptyString.

(** The bullet character U+2022, as its three UTF-8 bytes. *)
Definition bullet : string :=
  String (ascii_of_nat 226)
    (String (ascii_of_nat 128) (String (ascii_of_nat 162) EmptyString)).

(** ** Regular expressions of the response parser *)

(** The text from the start of [s] up to and including its first "]":
    what the lazy [[\s\S]*?\]] consumes. *)
Fixpoint lazyUntilClose (s : list ascii) : option (list ascii) :=
  match s with
  | [] => None
  | c :: rest =>
      if Ascii.eqb c "]" then Some [c]
      else option_map (cons c) (lazyUntilClose rest)
  end.

(** [content.match(/\[[\s\S]*?\]/)]: the match is tried at every index from
    the left, and the first index where it succeeds wins. *)
Fixpoint matchArrayLiteral (s : list ascii) : option (list ascii) :=
  match s with
  | [] => None
  | c :: rest =>
      if Ascii.eqb c "[" then
        match lazyUntilClose rest with
        | Some body => Some (c :: body)
        | None => matchArrayLiteral rest
        end
      else matchArrayLiteral rest
  end.

(** The character class [[a-zA-Z0-9_-]]. *)
Definition isIdChar (c : ascii) : bool :=
  let n := N_of_ascii c in
  ((97 <=? n) && (n <=? 122) || (65 <=? n) && (n <=? 90)
   || (48 <=? n) && (n <=? 57) || (n =? 95) || (n =? 45))%N.

(** The longest prefix of id characters: the greedy [[a-zA-Z0-9_-]+]. *)
Fixpoint idRun (s : list ascii) : list ascii :=
  match s with
  | c :: rest => if isIdChar c then c :: idRun rest else []
  | [] => []
  end.

(** One attempt of [/ID:([a-zA-Z0-9_-]+)/] at the start of [s]; the result
    is capture group 1. *)
Definition matchIdTagAt (s : list ascii) : option (list ascii) :=
  match s with
  | "I"%char :: "D"%char :: ":"%char :: rest =>
      match idRun rest with
      | [] => None
      | cap => Some cap
      end
  | _ => None
  end.

(** [content.matchAll(/ID:([a-zA-Z0-9_-]+)/g)]: matches are found left to
    right and do not overlap.  [inside] counts the characters of the
    previous match that are still to be stepped over. *)
Fixpoint matchAllIdTags_from (inside : nat) (s : list ascii)
  : list (list ascii) :=
  match s with
  | [] => []
  | _ :: rest =>
      match inside with
      | S k => matchAllIdTags_from k rest
      | O =>
          match matchIdTagAt s with
          | Some cap => cap :: matchAllIdTags_from (2 + length cap) rest
          | None => matchAllIdTags_from 0 rest
          end
      end
  end.

Definition matchAllIdTags (content : string) : list string :=
  map string_of_list_ascii
    (matchAllIdTags_from 0 (list_ascii_of_string content)).

Definition firstArrayLiteral (content : string) : option string :=
  option_map string_of_list_ascii
    (matchArrayLiteral (list_ascii_of_string content)).

(** ** Array.prototype.sort *)

(** [Array.prototype.sort(compare)] is a stable sort.  It is modelled by
    insertion: an element goes before the first element of the sorted rest
    that it does not have to follow ([compare x y <= 0]). *)
Section Sort.
Context {A : Type} (compare : A -> A -> Z).

Fixpoint sort_insert (x : A) (l : list A) : list A :=
  match l with
  | [] => [x]
  | y :: l' =>
      if (compare x y <=? 0)%Z then x :: y :: l' else y :: sort_insert x l'
  end.

Fixpoint Array_sort (l : list A) : list A :=
  match l with
  | [] => []
  | x :: l' => sort_insert x (Array_sort l')
  end.
End Sort.

(** ** The service *)

Record EntryRetrievalService := {
  provider : option OpenRouterProvider;
  config : EntryRetrievalConfig
}.

(** [new EntryRetrievalService(provider, config = {})] *)
Definition new_EntryRetrievalService (p : option OpenRouterProvider)
    (partial : PartialConfig) : EntryRetrievalService :=
  {| provider := p;
     config := mergeConfig DEFAULT_ENTRY_RETRIEVAL_CONFIG partial |}.

(** *** Tier 1 *)

Definition statusName (s : FactionStatus) : string :=
  match s with
  | neutral => "neutral"
  | allied => "allied"
  | hostile => "hostile"
  end.

(** The body of the loop of [getTier1Entries]: the values of
    [shouldInclude], [priority] and [reason] after the injection-mode check
    and the state switch. *)
Definition tier1Rule (e : Entry) : bool * Z * string :=
  let vars := (false, 0, EmptyString) in
  let vars :=
    if decide (Injection.mode (injection e) = mode_always)
    then (true, 100, "always inject")
    else vars in
  let '(shouldInclude, priority, reason) := vars in
  match state e with
  | Some (CharacterState isPresent _) =>
      if isPresent then (true, Z.max priority 95, "character present")
      else vars
  | Some (LocationState isCurrentLocation) =>
      if isCurrentLocation then (true, Z.max priority 100, "current location")
      else vars
  | Some (ItemState inInventory) =>
      if inInventory then (true, Z.max priority 80, "in inventory")
      else vars
  | Some (FactionState status) =>
      if decide (status = allied \/ status = hostile)
      then (true, Z.max priority 70, "faction " +:+ statusName status)
      else vars
  | Some ConceptState | Some EventState | None => vars
  end.

Fixpoint getTier1Entries (entries : list Entry) : list RetrievedEntry :=
  match entries with
  | [] => []
  | e :: rest =>
      let '(shouldInclude, priority, reason) := tier1Rule e in
      if shouldInclude
      then {| entry := e; tier := T1; priority := priority;
              matchReason := Some reason |} :: getTier1Entries rest
      else getTier1Entries rest
  end.

(** *** The selection prompt *)

Definition toUpperCase (t : EntryType) : string :=
  match t with
  | character => "CHARACTER"
  | location => "LOCATION"
  | item => "ITEM"
  | faction => "FACTION"
  | concept => "CONCEPT"
  | event => "EVENT"
  end.

Definition quote : string := String (ascii_of_nat 34) EmptyString.

Definition recentContent (recentStoryEntries : list StoryEntry.t) : string :=
  String.concat (nl +:+ nl)
    (map (fun e =>
            let prefix :=
              if decide (StoryEntry.type e = "user_action")
              then "[ACTION]" else "[NARRATION]" in
            prefix +:+ ": " +:+ String.substring 0 300 (StoryEntry.content e))
         (drop (length recentStoryEntries - 5) recentStoryEntries)).

Definition entryList (availableEntries : list Entry) : string :=
  String.concat nl
    (map (fun e =>
            "- ID:" +:+ id e +:+ " | [" +:+ toUpperCase (type e) +:+ "] "
            +:+ quote +:+ name e +:+ quote +:+ ": "
            +:+ String.substring 0 200 (description e)
            +:+ (if (200 <? String.length (description e))%nat
                 then "..." else EmptyString))
         availableEntries).

Definition selectionPrompt (availableEntries : list Entry)
    (userInput : string) (recentStoryEntries : list StoryEntry.t) : string :=
  let recent := recentContent recentStoryEntries in
  "You are a lorebook retrieval system. Select ALL entries that are relevant to the current narrative context."
  +:+ nl +:+ nl +:+ "## Current Scene" +:+ nl
  +:+ (if decide (recent = EmptyString) then "(Story just started)" else recent)
  +:+ nl +:+ nl +:+ "## User's Next Action" +:+ nl
  +:+ quote +:+ userInput +:+ quote
  +:+ nl +:+ nl +:+ "## Available Lorebook Entries" +:+ nl
  +:+ entryList availableEntries
  +:+ nl +:+ nl +:+ "## Task" +:+ nl
  +:+ "Identify ALL entries that should be included in the narrator's context. Be INCLUSIVE - select any entry that:" +:+ nl
  +:+ "- Is directly mentioned or referenced" +:+ nl
  +:+ "- Describes a character who is present or might appear" +:+ nl
  +:+ "- Describes the current or nearby location" +:+ nl
  +:+ "- Contains relevant world-building, lore, or background information" +:+ nl
  +:+ "- Might inform how the narrator should respond" +:+ nl
  +:+ "- Has any connection to the current scene or action" +:+ nl +:+ nl
  +:+ "Return a JSON array of entry IDs (the ID: values) for ALL relevant entries." +:+ nl
  +:+ "Format: [" +:+ quote +:+ "id1" +:+ quote +:+ ", " +:+ quote +:+ "id2"
  +:+ quote +:+ ", " +:+ quote +:+ "id3" +:+ quote +:+ "]" +:+ nl +:+ nl
  +:+ "If no entries are relevant, return: []".

Definition selectionRequest (cfg : EntryRetrievalConfig) (prompt : string)
  : Request :=
  {| messages := [ {| role := "user"; msg_content := prompt |} ];
     model := tier3Model cfg;
     temperature := QArith_base.Qmake 2 10;
     maxTokens := 500 |}.

(** *** Parsing the response of the model *)

(** What the attempt to read a JSON array out of the response came to:
    no bracketed text at all, an exception inside the inner [try]
    ([JSON.parse] or [String(id)] threw), a value that is not an array, or
    the array mapped through [String(id).trim()]. *)
Inductive JsonAttempt :=
| NoArrayLiteral
| ParseThrew
| NotAnArray
| ParsedIds (ids : list string).

Section Service.
Context `{RT : JSRuntime}.

Definition tryJsonArray (content : string) : JsonAttempt :=
  match firstArrayLiteral content with
  | None => NoArrayLiteral
  | Some jsonMatch =>
      match JSON_parse jsonMatch with
      | None => ParseThrew
      | Some (JArray parsed) =>
          match mapM js_String parsed with
          | Some strings => ParsedIds (map String_trim strings)
          | None => ParseThrew
          end
      | Some _ => NotAnArray
      end
  end.

(** [selectedIds] after the JSON attempt. *)
Definition jsonIds (content : string) : list string :=
  match tryJsonArray content with
  | ParsedIds ids => ids
  | _ => []
  end.

(** [selectedIds] after the fallback, which runs when the list is still
    empty. *)
Definition selectedIdsOf (content : string) : list string :=
  let selectedIds := jsonIds content in
  if (length selectedIds =? 0)%nat
  then selectedIds ++ matchAllIdTags content
  else selectedIds.

Definition tier2Entry (e : Entry) : RetrievedEntry :=
  {| entry := e; tier := T2;
     priority := 50 + Injection.priority (injection e);
     matchReason := Some "LLM selected" |}.

(** The loop that maps the selected ids back to entries. *)
Definition mapIdsBack (selectedIds : list string)
    (availableEntries : list Entry) : list RetrievedEntry :=
  let idSet : gset string := list_to_set selectedIds in
  tier2Entry <$> filter (fun e => id e ∈ idSet) availableEntries.

(** [maxTier3Entries > 0 ? result.slice(0, maxTier3Entries) : result] *)
Definition applyMaxLimit (cfg : EntryRetrievalConfig)
    (result : list RetrievedEntry) : list RetrievedEntry :=
  if (0 <? maxTier3Entries cfg)%Z
  then take (Z.to_nat (maxTier3Entries cfg)) result
  else result.

Definition getLLMSelectedEntries (this : EntryRetrievalService)
    (availableEntries : list Entry) (userInput : string)
    (recentStoryEntries : list StoryEntry.t)
  : Async (list RetrievedEntry) :=
  match provider this with
  | None => mret []
  | Some p =>
      if (length availableEntries =? 0)%nat then mret []
      else
        let prompt :=
          selectionPrompt availableEntries userInput recentStoryEntries in
        try_catch
          (response ← await_generateResponse p
                        (selectionRequest (config this) prompt);
           log "LLM selection response:";;
           match tryJsonArray (content response) with
           | ParseThrew =>
               log "Failed to parse JSON array, trying line-by-line"
           | _ => mret tt
           end;;
           let selectedIds := selectedIdsOf (content response) in
           log "Selected IDs:";;
           mret (applyMaxLimit (config this)
                   (mapIdsBack selectedIds availableEntries)))
          (fun error => log "LLM selection failed:";; mret [])
  end.

(** *** The context block *)

Definition renderEntry (e : Entry) : string :=
  nl +:+ "  - " +:+ name e +:+ ": " +:+ description e.

Definition renderCharacter (e : Entry) : string :=
  renderEntry e +:+
  match state e with
  | Some (CharacterState _ (Some disposition)) =>
      if decide (disposition = EmptyString) then EmptyString
      else " [" +:+ disposition +:+ "]"
  | _ => EmptyString
  end.

Definition renderSection (title : string) (render : Entry -> string)
    (group : list RetrievedEntry) : string :=
  if (0 <? length group)%nat
  then nl +:+ nl +:+ bullet +:+ " " +:+ title +:+ ":"
       +:+ String.concat EmptyString (map (fun r => render (entry r)) group)
  else EmptyString.

Definition byType (t : EntryType) (l : list RetrievedEntry)
  : list RetrievedEntry :=
  filter (fun r => type (entry r) = t) l.

Definition buildContextBlock (tier1 tier2 tier3 : list RetrievedEntry)
  : string :=
  let all := tier1 ++ tier2 ++ tier3 in
  if (length all =? 0)%nat then EmptyString
  else
    nl +:+ nl +:+ "[LOREBOOK CONTEXT]" +:+ nl
    +:+ "(CANONICAL - All information below is established lore. Do not contradict these facts.)"
    +:+ renderSection "Characters" renderCharacter (byType character all)
    +:+ renderSection "Locations" renderEntry (byType location all)
    +:+ renderSection "Items" renderEntry (byType item all)
    +:+ renderSection "Factions" renderEntry (byType faction all)
    +:+ renderSection "Lore" renderEntry (byType concept all)
    +:+ renderSection "Events" renderEntry (byType event all).

(** *** getRelevantEntries *)

Definition byPriorityDesc (a b : RetrievedEntry) : Z :=
  priority b - priority a.

(** The entries handed to the model: not in tier 1 and not ['never']. *)
Definition remainingEntries (entries : list Entry)
    (tier1 : list RetrievedEntry) : list Entry :=
  let tier1Ids : gset string := list_to_set (map (fun r => id (entry r)) tier1) in
  filter (fun e => (id e ∉ tier1Ids) /\
                   (Injection.mode (injection e) <> mode_never)) entries.

Definition getRelevantEntries (this : EntryRetrievalService)
    (entries : list Entry) (userInput : string)
    (recentStoryEntries : list StoryEntry.t)
  : Async EntryRetrievalResult :=
  if (length entries =? 0)%nat then
    mret {| tier1 := []; tier2 := []; tier3 := []; all := [];
            contextBlock := EmptyString |}
  else
    log "getRelevantEntries called";;
    let tier1 := getTier1Entries entries in
    log "Tier 1 entries:";;
    let remaining := remainingEntries entries tier1 in
    let tier3 : list RetrievedEntry := [] in
    tier2 ←
      (if enableLLMSelection (config this)
          && (0 <? length remaining)%nat
          && bool_decide (is_Some (provider this))
       then
         log "Sending all remaining entries to LLM for selection:";;
         llmSelected ← getLLMSelectedEntries this remaining userInput
                         recentStoryEntries;
         log "LLM selected entries:";;
         mret llmSelected
       else mret []);
    let all := Array_sort byPriorityDesc (tier1 ++ tier2 ++ tier3) in
    let contextBlock := buildContextBlock tier1 tier2 tier3 in
    mret {| tier1 := tier1; tier2 := tier2; tier3 := tier3; all := all;
            contextBlock := contextBlock |}.

End Service.

(** ** A reference runtime for concrete runs

    [JSON.parse] restricted to the texts the examples below feed it: an
    array of string literals without escape sequences, with optional JSON
    white space.  Any other text is answered with [None]; the examples use
    texts of the fragment only.  [trim] strips ASCII white space. *)
Module RefRuntime.

Inductive PState :=
| Start
| Opened
| InString (acc : list ascii)
| AfterString
| AfterComma
| Closed
| Failed.

Definition isJsonSpace (c : ascii) : bool :=
  let n := N_of_ascii c in
  ((n =? 32) || (n =? 9) || (n =? 10) || (n =? 13))%N.

Definition isTrimSpace (c : ascii) : bool :=
  let n := N_of_ascii c in
  ((n =? 32) || (9 <=? n) && (n <=? 13))%N.

Definition isQuote (c : ascii) : bool := (N_of_ascii c =? 34)%N.

Definition step (st : PState * list string) (c : ascii)
  : PState * list string :=
  let '(s, out) := st in
  match s with
  | Start =>
      if isJsonSpace c then (Start, out)
      else if Ascii.eqb c "[" then (Opened, out) else (Failed, out)
  | Opened =>
      if isJsonSpace c then (Opened, out)
      else if Ascii.eqb c "]" then (Closed, out)
      else if isQuote c then (InString [], out) else (Failed, out)
  | InString acc =>
      if isQuote c
      then (AfterString, string_of_list_ascii (rev acc) :: out)
      else if Ascii.eqb c "\" || (N_of_ascii c <? 32)%N then (Failed, out)
      else (InString (c :: acc), out)
  | AfterString =>
      if isJsonSpace c then (AfterString, out)
      else if Ascii.eqb c "," then (AfterComma, out)
      else if Ascii.eqb c "]" then (Closed, out) else (Failed, out)
  | AfterComma =>
      if isJsonSpace c then (AfterComma, out)
      else if isQuote c then (InString [], out) else (Failed, out)
  | Closed => if isJsonSpace c then (Closed, out) else (Failed, out)
  | Failed => (Failed, out)
  end.

Definition parse (text : string) : option JSValue :=
  match fold_left step (list_ascii_of_string text) (Start, []) with
  | (Closed, out) => Some (JArray (map JString (rev out)))
  | _ => None
  end.

Fixpoint dropSpaces (s : list ascii) : list ascii :=
  match s with
  | c :: rest => if isTrimSpace c then dropSpaces rest else s
  | [] => []
  end.

Definition trim (s : string) : string :=
  string_of_list_ascii
    (rev (dropSpaces (rev (dropSpaces (list_ascii_of_string s))))).

#[export] Instance runtime : JSRuntime :=
  {| JSON_parse := parse; String_trim := trim |}.

End RefRuntime.

(** ** Vocabulary of the properties *)

(** The comparator [(a, b) => key(b) - key(a)], and the order it sorts
    into: keys descending. *)
Definition descending {A : Type} (key : A -> Z) (a b : A) : Z :=
  key b - key a.

Definition key_ge {A : Type} (key : A -> Z) (a b : A) : Prop :=
  key b <= key a.

(** The request that [getLLMSelectedEntries] sends for a candidate list. *)
Definition requestFor (this : EntryRetrievalService)
    (availableEntries : list Entry) (userInput : string)
    (recentStoryEntries : list StoryEntry.t) : Request :=
  selectionRequest (config this)
    (selectionPrompt availableEntries userInput recentStoryEntries).

(** The gate in front of the selection call. *)
Definition selectionGate (this : EntryRetrievalService)
    (remaining : list Entry) : bool :=
  enableLLMSelection (config this)
  && (0 <? length remaining)%nat
  && bool_decide (is_Some (provider this)).

(** The record that [getRelevantEntries] returns for given tiers 1 and 2. *)
Definition assemble `{RT : JSRuntime} (t1 t2 : list RetrievedEntry)
  : EntryRetrievalResult :=
  {| tier1 := t1; tier2 := t2; tier3 := [];
     all := Array_sort byPriorityDesc (t1 ++ t2 ++ []);
     contextBlock := buildContextBlock t1 t2 [] |}.

(** An occurrence of the id tag [ID:<i>] in a text [pre ++ "ID:" ++ i ++
    post]: [i] is a non-empty run of id characters that ends there ([post]
    does not go on with an id character), and the tag does not stand inside
    an earlier tag ([pre] ends neither in an id character nor in "ID:"). *)
Definition startsWithIdChar (s : list ascii) : bool :=
  match s with
  | c :: _ => isIdChar c
  | [] => false
  end.


Definition idTag : list ascii := ["I"; "D"; ":"]%char.



(** ** Tier-1 conditions, as the specification lists them *)

(** The conditions that match an entry, in evaluation order (the
    injection-mode check first, then the state check), each with its
    weight and its reason. *)
Definition matchingConditions (e : Entry) : list (Z * string) :=
  (if decide (Injection.mode (injection e) = mode_always)
   then [(100, "always inject")] else [])
  ++ match state e with
     | Some (CharacterState true _) => [(95, "character present")]
     | Some (LocationState true) => [(100, "current location")]
     | Some (ItemState true) => [(80, "in inventory")]
     | Some (FactionState allied) => [(70, "faction allied")]
     | Some (FactionState hostile) => [(70, "faction hostile")]
     | _ => []
     end.

(** The specification's merge of several matching conditions: the
    maximum weight with the reason of the condition that produced it, the
    earlier condition winning a tie. *)
Fixpoint spec_keepMaximum (conds : list (Z * string)) : option (Z * string) :=
  match conds with
  | [] => None
  | c :: rest =>
      match spec_keepMaximum rest with
      | Some m => if (fst m <=? fst c)%Z then Some c else Some m
      | None => Some c
      end
  end.

(** What the loop body computes from the same conditions: the largest
    weight, and the reason of the last condition. *)
Definition maxWeight (conds : list (Z * string)) : Z :=
  foldr (fun c m => Z.max (fst c) m) 0 conds.

Definition lastReason (conds : list (Z * string)) : string :=
  match last conds with
  | Some c => snd c
  | None => EmptyString
  end.

(** ** Concrete stories for the examples *)

Definition mkEntry (i : string) (t : EntryType) (m : InjectionMode)
    (s : option EntryState) : Entry :=
  {| id := i; type := t; name := i; description := "about " +:+ i;
     injection := {| Injection.mode := m; Injection.priority := 0 |};
     state := s |}.

Definition lore1 : Entry := mkEntry "x1" concept mode_auto None.
Definition lore2 : Entry := mkEntry "x2" concept mode_auto None.
Definition lore3 : Entry := mkEntry "x3" concept mode_auto None.

(** A character marked 'never' who is present in the scene. *)
Definition ghost : Entry :=
  mkEntry "ghost" character mode_never (Some (CharacterState true None)).

(** A character marked 'always' who is present in the scene. *)
Definition hero : Entry :=
  mkEntry "hero" character mode_always (Some (CharacterState true None)).

(** An item marked 'always' that is in the inventory. *)
Definition amulet : Entry :=
  mkEntry "amulet" item mode_always (Some (ItemState true)).

Definition answering (text : string) : OpenRouterProvider :=
  {| generateResponse := fun _ => Resolved {| content := text |} |}.

Definition failing : OpenRouterProvider :=
  {| generateResponse := fun _ => Rejected "network error" |}.

Definition withMax (n : Z) : PartialConfig :=
  {| p_llmThreshold := None; p_maxTier3Entries := Some n;
     p_enableLLMSelection := None; p_recentEntriesCount := None;
     p_tier3Model := None; p_alwaysUseLLM := None |}.

(** A configuration that asks for the threshold gate: at least five
    candidates, and [alwaysUseLLM] off. *)
Definition withThreshold : PartialConfig :=
  {| p_llmThreshold := Some 5; p_maxTier3Entries := None;
     p_enableLLMSelection := None; p_recentEntriesCount := None;
     p_tier3Model := None; p_alwaysUseLLM := Some false |}.

(** The JSON text of an array of string literals. *)
Definition jsonArrayOf (ids : list string) : string :=
  "[" +:+ String.concat ", " (map (fun i => quote +:+ i +:+ quote) ids)
  +:+ "]".

(** The header of a non-empty context block. *)
Definition blockHeader : string :=
  nl +:+ nl +:+ "[LOREBOOK CONTEXT]" +:+ nl
  +:+ "(CANONICAL - All information below is established lore. Do not contradict these facts.)".

(** Two candidates of different weight, the lighter one first. *)
Definition minor : Entry :=
  {| id := "minor"; type := concept; name := "minor";
     description := "a footnote";
     injection := {| Injection.mode := mode_auto; Injection.priority := 1 |};
     state := None |}.

Definition major : Entry :=
  {| id := "major"; type := concept; name := "major";
     description := "the main plot";
     injection := {| Injection.mode := mode_auto; Injection.priority := 9 |};
     state := None |}.

(** The configuration with [llmThreshold] and [alwaysUseLLM] replaced. *)
Definition setThreshold (t : Z) (a : bool) (cfg : EntryRetrievalConfig)
  : EntryRetrievalConfig :=
  {| llmThreshold := t;
     maxTier3Entries := maxTier3Entries cfg;
     enableLLMSelection := enableLLMSelection cfg;
     recentEntriesCount := recentEntriesCount cfg;
     tier3Model := tier3Model cfg;
     alwaysUseLLM := a |}.

(** ** The rest of the retrieval service *)

(** The exported function [getRelevantEntries(entries, userInput,
    recentStoryEntries, provider?)]: a service with [provider || null] and
    the default configuration. *)
Definition getRelevantEntries_quick `{RT : JSRuntime} (entries : list Entry)
    (userInput : string) (recentStoryEntries : list StoryEntry.t)
    (p : option OpenRouterProvider) : Async EntryRetrievalResult :=
  let service := new_EntryRetrievalService p emptyPartial in
  getRelevantEntries service entries userInput recentStoryEntries.

(** The class [[.*+?^${}()|[\]\\]] of [escapeRegex]. *)
Definition isRegexSpecial (c : ascii) : bool :=
  let n := N_of_ascii c in
  ((n =? 46) || (n =? 42) || (n =? 43) || (n =? 63) || (n =? 94)
   || (n =? 36) || (n =? 123) || (n =? 125) || (n =? 40) || (n =? 41)
   || (n =? 124) || (n =? 91) || (n =? 93) || (n =? 92))%N.

Definition backslash : ascii := ascii_of_nat 92.

(** [str.replace(/[.*+?^${}()|[\]\\]/g, '\\$&')]: every character of the
    class is replaced by a backslash and itself. *)
Fixpoint escapeRegex_chars (s : list ascii) : list ascii :=
  match s with
  | [] => []
  | c :: rest =>
      if isRegexSpecial c then backslash :: c :: escapeRegex_chars rest
      else c :: escapeRegex_chars rest
  end.

Definition escapeRegex (str : string) : string :=
  string_of_list_ascii (escapeRegex_chars (list_ascii_of_string str)).

(** ** Vocabulary of the further properties *)

(** The provider calls of a trace, in order. *)
Definition callsOf (tr : list Event) : list Request :=
  omap (fun ev => match ev with Call req => Some req | Log _ => None end) tr.

(** The conditions under which the loop of [getTier1Entries] sets
    [shouldInclude]. *)
Definition stateMatches (e : Entry) : Prop :=
  match state e with
  | Some (CharacterState isPresent _) => isPresent = true
  | Some (LocationState isCurrentLocation) => isCurrentLocation = true
  | Some (ItemState inInventory) => inInventory = true
  | Some (FactionState status) => status = allied \/ status = hostile
  | Some ConceptState | Some EventState | None => False
  end.

Definition mandatory (e : Entry) : Prop :=
  Injection.mode (injection e) = mode_always \/ stateMatches e.

#[global] Instance stateMatches_dec e : Decision (stateMatches e).
Proof.
  unfold stateMatches. destruct (state e) as [[]|]; apply _.
Defined.

#[global] Instance mandatory_dec e : Decision (mandatory e).
Proof. unfold mandatory. apply _. Defined.

(** [needle] occurs in [hay]. *)
Definition occursIn (needle hay : string) : Prop :=
  exists before after, hay = before +:+ needle +:+ after.

(** The title of the section that [buildContextBlock] opens for a type. *)
Definition sectionTitle (t : EntryType) : string :=
  match t with
  | character => "Characters"
  | location => "Locations"
  | item => "Items"
  | faction => "Factions"
  | concept => "Lore"
  | event => "Events"
  end.

(** Removes the backslash in front of each escaped character: how a
    regular expression reads the output of [escapeRegex]. *)
Fixpoint unescape_chars (s : list ascii) : list ascii :=
  match s with
  | [] => []
  | c :: rest =>
      if Ascii.eqb c backslash then
        match rest with
        | d :: rest' => d :: unescape_chars rest'
        | [] => []
        end
      else c :: unescape_chars rest
  end.

(** ** The character card importer

    The second module of the source file: [parseCharacterCard],
    [normalizeUserMacro], [buildCardContext] and [convertCardToScenario].
    A card is whatever [JSON.parse] returns, so its fields are values of
    unknown shape; the code's member accesses and method calls on them are
    modelled with the [TypeError]s they throw. *)

Definition TypeError : JSError := "TypeError".
Definition SyntaxError : JSError := "SyntaxError".

#[global] Instance Outcome_ret : MRet Outcome := @Resolved.
#[global] Instance Outcome_bind : MBind Outcome :=
  fun A B k o =>
    match o with
    | Resolved a => k a
    | Rejected e => Rejected e
    end.

(** [for (x of l) ys.push(f(x))], stopping at the first exception. *)
Fixpoint mapOutcome {A B} (f : A -> Outcome B) (l : list A)
  : Outcome (list B) :=
  match l with
  | [] => Resolved []
  | x :: l' =>
      match f x with
      | Resolved y =>
          match mapOutcome f l' with
          | Resolved ys => Resolved (y :: ys)
          | Rejected e => Rejected e
          end
      | Rejected e => Rejected e
      end
  end.

(** *** Values of unknown shape *)

(** [!!v]: [null], [false], [0] and the empty string are falsy. *)
Definition truthy (v : JSValue) : bool :=
  match v with
  | JNull => false
  | JBool b => b
  | JNumber r => negb (String.eqb r "0")
  | JString s => negb (String.eqb s EmptyString)
  | JArray _ | JObject _ => true
  end.

(** The own property [key] of an object; an object lists each of its
    properties once. *)
Fixpoint ownProperty (key : string) (members : list (string * JSValue))
  : option JSValue :=
  match members with
  | [] => None
  | (k, v) :: rest =>
      if String.eqb k key then Some v else ownProperty key rest
  end.

(** [receiver.key] for the property names the importer reads; none of
    them is defined on a prototype, so the value is an own property of an
    object or [undefined] ([None]).  On [null] and [undefined] the access
    throws. *)
Definition member (receiver : option JSValue) (key : string)
  : Outcome (option JSValue) :=
  match receiver with
  | None | Some JNull => Rejected TypeError
  | Some (JObject members) => Resolved (ownProperty key members)
  | Some _ => Resolved None
  end.

(** [typeof v === 'object' && v !== null] *)
Definition isObject (v : JSValue) : bool :=
  match v with
  | JObject _ | JArray _ => true
  | _ => false
  end.

(** ['key' in v], for an object or an array and the names used here. *)
Definition hasProperty (key : string) (v : JSValue) : bool :=
  match v with
  | JObject members => bool_decide (is_Some (ownProperty key members))
  | _ => false
  end.

(** [a || b], with [a] possibly [undefined]. *)
Definition orElse (a : option JSValue) (b : JSValue) : JSValue :=
  match a with
  | Some v => if truthy v then v else b
  | None => b
  end.

(** *** Cards *)

Inductive CardVersion := v1 | v2 | v3.

Module ParsedCard.
Record t := {
  name : JSValue;
  description : JSValue;
  personality : JSValue;
  scenario : JSValue;
  firstMessage : JSValue;
  alternateGreetings : JSValue;
  exampleMessages : JSValue;
  version : CardVersion
}.
End ParsedCard.

Definition isV2OrV3Card (data : JSValue) : bool :=
  if negb (isObject data) then false
  else if negb (hasProperty "spec" data) || negb (hasProperty "data" data)
  then false
  else
    match member (Some data) "spec" with
    | Resolved (Some (JString spec)) =>
        String.eqb spec "chara_card_v2" || String.eqb spec "chara_card_v3"
    | _ => false
    end.

Definition isV1Card (data : JSValue) : bool :=
  isObject data && hasProperty "name" data && hasProperty "description" data
  && negb (hasProperty "spec" data).

Definition versionName (v : CardVersion) : string :=
  match v with
  | v1 => "v1"
  | v2 => "v2"
  | v3 => "v3"
  end.

Definition versionUpper (v : CardVersion) : string :=
  match v with
  | v1 => "V1"
  | v2 => "V2"
  | v3 => "V3"
  end.

(** [data.data.key || data.key || fallback] *)
Definition nestedOrRoot (data : JSValue) (key : string) (fallback : JSValue)
  : Outcome JSValue :=
  inner ← member (Some data) "data";
  nested ← member inner key;
  root ← member (Some data) key;
  mret (orElse nested (orElse root fallback)).

(** The object literal of the V2/V3 branch. *)
Definition readV2Card (data : JSValue) (version : CardVersion)
  : Outcome ParsedCard.t :=
  name ← nestedOrRoot data "name" (JString "Unknown Character");
  description ← nestedOrRoot data "description" (JString EmptyString);
  personality ← nestedOrRoot data "personality" (JString EmptyString);
  scenario ← nestedOrRoot data "scenario" (JString EmptyString);
  firstMessage ← nestedOrRoot data "first_mes" (JString EmptyString);
  inner ← member (Some data) "data";
  greetings ← member inner "alternate_greetings";
  exampleMessages ← nestedOrRoot data "mes_example" (JString EmptyString);
  mret {| ParsedCard.name := name;
          ParsedCard.description := description;
          ParsedCard.personality := personality;
          ParsedCard.scenario := scenario;
          ParsedCard.firstMessage := firstMessage;
          ParsedCard.alternateGreetings := orElse greetings (JArray []);
          ParsedCard.exampleMessages := exampleMessages;
          ParsedCard.version := version |}.

(** [data.key || fallback] *)
Definition rootOr (data : JSValue) (key : string) (fallback : JSValue)
  : Outcome JSValue :=
  root ← member (Some data) key;
  mret (orElse root fallback).

(** The object literal of the V1 branch. *)
Definition readV1Card (data : JSValue) : Outcome ParsedCard.t :=
  name ← rootOr data "name" (JString "Unknown Character");
  description ← rootOr data "description" (JString EmptyString);
  personality ← rootOr data "personality" (JString EmptyString);
  scenario ← rootOr data "scenario" (JString EmptyString);
  firstMessage ← rootOr data "first_mes" (JString EmptyString);
  exampleMessages ← rootOr data "mes_example" (JString EmptyString);
  mret {| ParsedCard.name := name;
          ParsedCard.description := description;
          ParsedCard.personality := personality;
          ParsedCard.scenario := scenario;
          ParsedCard.firstMessage := firstMessage;
          ParsedCard.alternateGreetings := JArray [];
          ParsedCard.exampleMessages := exampleMessages;
          ParsedCard.version := v1 |}.

(** *** Effects of the importer *)

Module ImportRequest.
Record t := {
  model : string;
  messages : list Message;
  temperature : QArith_base.Q;
  maxTokens : Z;
  extraBody : JSValue
}.
End ImportRequest.

Inductive ImportEvent :=
| ImportLog (tag : string)
| ImportCall (req : ImportRequest.t).

Definition Import (A : Type) : Type := Outcome A * list ImportEvent.

Definition import_ret {A} (a : A) : Import A := (Resolved a, []).

Definition import_bind {A B} (m : Import A) (k : A -> Import B) : Import B :=
  match m with
  | (Resolved a, t1) => let '(o, t2) := k a in (o, t1 ++ t2)
  | (Rejected e, t1) => (Rejected e, t1)
  end.

Definition import_try {A} (body : Import A) (handler : JSError -> Import A)
  : Import A :=
  match body with
  | (Resolved a, t1) => (Resolved a, t1)
  | (Rejected e, t1) => let '(o, t2) := handler e in (o, t1 ++ t2)
  end.

#[global] Instance Import_ret : MRet Import := @import_ret.
#[global] Instance Import_bind : MBind Import :=
  fun A B k m => import_bind m k.

(** The importer's own [log], under its own [DEBUG = true]. *)
Definition importLog (tag : string) : Import unit :=
  (Resolved tt, [ImportLog tag]).

(** A step that only computes, and may throw. *)
Definition pureStep {A} (o : Outcome A) : Import A := (o, []).

Section CardParsing.
Context `{RT : JSRuntime}.

Definition parseCharacterCard (jsonString : string)
  : Import (option ParsedCard.t) :=
  import_try
    (data ← pureStep (match JSON_parse jsonString with
                      | Some data => Resolved data
                      | None => Rejected SyntaxError
                      end);
     if isV2OrV3Card data then
       let version :=
         match member (Some data) "spec" with
         | Resolved (Some (JString "chara_card_v3")) => v3
         | _ => v2
         end in
       importLog ("Detected " +:+ versionUpper version +:+ " card format");;
       card ← pureStep (readV2Card data version);
       mret (Some card)
     else if isV1Card data then
       importLog "Detected V1 card format";;
       card ← pureStep (readV1Card data);
       mret (Some card)
     else
       importLog "Unknown card format";;
       mret None)
    (fun error => importLog "Failed to parse card JSON:";; mret None).

End CardParsing.

(** *** Replacing a macro *)

(** The lower-case form of an ASCII letter; other characters as they are.
    Under the flag [i] (without [u]) an ASCII letter of a pattern matches
    its two cases and nothing else, and a character that is no letter
    matches itself only. *)
Definition lowerAscii (c : ascii) : ascii :=
  let n := N_of_ascii c in
  if ((65 <=? n) && (n <=? 90))%N then ascii_of_N (n + 32) else c.

(** One attempt of a pattern of plain characters, written in lower case,
    at the start of [s], ignoring case. *)
Fixpoint matchesIgnoreCase (pattern s : list ascii) : bool :=
  match pattern, s with
  | [], _ => true
  | p :: pattern', c :: s' =>
      Ascii.eqb (lowerAscii c) p && matchesIgnoreCase pattern' s'
  | _ :: _, [] => false
  end.

(** [GetSubstitution] for a pattern without capture groups: in the
    replacement text ["$$"] stands for a dollar, ["$&"] for the matched
    text, ["$`"] and ["$'"] for the text before and after the match; every
    other character, a dollar before a digit included, stands for itself. *)
Fixpoint getSubstitution (template matched before after : list ascii)
  : list ascii :=
  match template with
  | [] => []
  | c :: rest =>
      if Ascii.eqb c "$" then
        match rest with
        | d :: rest' =>
            if Ascii.eqb d "$" then
              "$"%char :: getSubstitution rest' matched before after
            else if Ascii.eqb d "&" then
              matched ++ getSubstitution rest' matched before after
            else if Ascii.eqb d "`" then
              before ++ getSubstitution rest' matched before after
            else if Ascii.eqb d "'" then
              after ++ getSubstitution rest' matched before after
            else c :: getSubstitution rest matched before after
        | [] => [c]
        end
      else c :: getSubstitution rest matched before after
  end.

(** [text.replace(/pattern/gi, template)] for a non-empty pattern of plain
    characters: the matches are taken left to right and do not overlap.
    [inside] counts the characters of the current match still to be
    stepped over, [seen] holds the text before the position, last
    character first. *)
Fixpoint replaceAll_from (pattern template : list ascii) (inside : nat)
    (seen s : list ascii) : list ascii :=
  match s with
  | [] => []
  | c :: rest =>
      match inside with
      | S k => replaceAll_from pattern template k (c :: seen) rest
      | O =>
          if matchesIgnoreCase pattern s then
            getSubstitution template (take (length pattern) s) (rev seen)
              (drop (length pattern) s)
            ++ replaceAll_from pattern template (length pattern - 1)
                 (c :: seen) rest
          else c :: replaceAll_from pattern template 0 (c :: seen) rest
      end
  end.

Definition replaceAllIgnoreCase (pattern template text : string) : string :=
  string_of_list_ascii
    (replaceAll_from (list_ascii_of_string pattern)
       (list_ascii_of_string template) 0 [] (list_ascii_of_string text)).

(** [normalizeUserMacro(text)] on a string. *)
Definition normalizeUserMacro (text : string) : string :=
  if String.eqb text EmptyString then EmptyString
  else replaceAllIgnoreCase "{{user}}" "{{user}}" text.

(** The canonical spelling of the user macro, as a character list. *)
Definition userMacro : list ascii := list_ascii_of_string "{{user}}".

(** [normalizeUserMacro(v)] on a value of unknown shape: a falsy value
    gives the empty string, and a truthy value that is no string has no
    method [replace]. *)
Definition normalizeUserMacro_any (v : JSValue) : Outcome string :=
  if negb (truthy v) then Resolved EmptyString
  else
    match v with
    | JString text => Resolved (normalizeUserMacro text)
    | _ => Rejected TypeError
    end.

(** [text.replace(/\{\{char\}\}/gi, primaryName)] *)
Definition replaceCharMacro (text primaryName : string) : string :=
  replaceAllIgnoreCase "{{char}}" primaryName text.

(** *** White space and the patterns that clean the response *)

(** The number of bytes of the white space character at the start of [s]
    (the class [\s]: tab to carriage return, space, U+00A0, U+1680, U+2000
    to U+200A, U+2028, U+2029, U+202F, U+205F, U+3000, U+FEFF), 0 if
    there is none. *)
Definition whiteSpaceBytes (s : list ascii) : nat :=
  match map N_of_ascii s with
  | n :: rest =>
      if (((9 <=? n) && (n <=? 13)) || (n =? 32))%N then 1
      else
        match rest with
        | a :: rest' =>
            if ((n =? 194) && (a =? 160))%N then 2
            else
              match rest' with
              | b :: _ =>
                  if (((n =? 225) && (a =? 154) && (b =? 128))
                      || ((n =? 226) && (a =? 128)
                          && (((128 <=? b) && (b <=? 138))
                              || (b =? 168) || (b =? 169) || (b =? 175)))
                      || ((n =? 226) && (a =? 129) && (b =? 159))
                      || ((n =? 227) && (a =? 128) && (b =? 128))
                      || ((n =? 239) && (a =? 187) && (b =? 191)))%N
                  then 3 else 0
              | [] => 0
              end
        | [] => 0
        end
  | [] => 0
  end%nat.

(** The text after the greedy [\s*]. *)
Fixpoint dropWhiteSpace_from (inside : nat) (s : list ascii) : list ascii :=
  match s with
  | [] => []
  | _ :: rest =>
      match inside with
      | S k => dropWhiteSpace_from k rest
      | O =>
          match whiteSpaceBytes s with
          | O => s
          | S k => dropWhiteSpace_from k rest
          end
      end
  end.

Definition dropWhiteSpace (s : list ascii) : list ascii :=
  dropWhiteSpace_from 0 s.

Definition fence : list ascii := ["`"; "`"; "`"]%char.

Definition startsWith (prefix s : list ascii) : bool :=
  bool_decide (prefix `prefix_of` s).

(** [jsonStr.replace(/^```(?:json|JSON)?\s*\n?/, '')] on a text that starts
    with the fence: the fence, the optional tag and all white space after
    it are removed (the [\n?] finds nothing left to take). *)
Definition stripOpeningFence (s : list ascii) : list ascii :=
  if startsWith fence s then
    let afterFence := drop 3 s in
    let afterTag :=
      if startsWith (list_ascii_of_string "json") afterFence
         || startsWith (list_ascii_of_string "JSON") afterFence
      then drop 4 afterFence else afterFence in
    dropWhiteSpace afterTag
  else s.

(** One attempt of [\n?```\s*$] at the start of [s]. *)
Definition closingFenceAt (s : list ascii) : bool :=
  let afterNewline :=
    match s with
    | c :: rest => if (N_of_ascii c =? 10)%N then rest else s
    | [] => s
    end in
  startsWith fence afterNewline
  && bool_decide (dropWhiteSpace (drop 3 afterNewline) = []).

(** [.replace(/\n?```\s*$/, '')]: the leftmost position where the pattern
    matches; the match reaches the end of the text, so the text is cut
    there. *)
Fixpoint stripClosingFence (s : list ascii) : list ascii :=
  if closingFenceAt s then []
  else
    match s with
    | [] => []
    | c :: rest => c :: stripClosingFence rest
    end.

(** The longest prefix of [s] that ends in "}": the greedy [[\s\S]*\}]. *)
Fixpoint greedyUntilClose (s : list ascii) : option (list ascii) :=
  match s with
  | [] => None
  | c :: rest =>
      match greedyUntilClose rest with
      | Some body => Some (c :: body)
      | None => if Ascii.eqb c "}" then Some [c] else None
      end
  end.

(** [jsonStr.match(/\{[\s\S]*\}/)] *)
Fixpoint matchObjectLiteral (s : list ascii) : option (list ascii) :=
  match s with
  | [] => None
  | c :: rest =>
      if Ascii.eqb c "{" then
        match greedyUntilClose rest with
        | Some body => Some (c :: body)
        | None => matchObjectLiteral rest
        end
      else matchObjectLiteral rest
  end.

(** [s.split(/[,;]/)] *)
Fixpoint splitTraits (s : list ascii) : list (list ascii) :=
  match s with
  | [] => [[]]
  | c :: rest =>
      if Ascii.eqb c "," || Ascii.eqb c ";" then [] :: splitTraits rest
      else
        match splitTraits rest with
        | piece :: pieces => (c :: piece) :: pieces
        | [] => [[c]]
        end
  end.

(** The arrow U+2192 of the system prompt, as its three UTF-8 bytes. *)
Definition arrow : string :=
  String (ascii_of_nat 226)
    (String (ascii_of_nat 134) (String (ascii_of_nat 146) EmptyString)).

Definition getCardConversionSystemPrompt : string :=
  "You are cleaning a SillyTavern character card for use as a scenario setting in interactive fiction."
  +:+ nl
  +:+ nl
  +:+ "## Your Task" +:+ nl
  +:+ "1. IDENTIFY who " +:+ quote +:+ "{{char}}" +:+ quote
  +:+ " refers to based on the content (the actual character name - NOT the card title)"
  +:+ nl
  +:+ "2. IDENTIFY ALL NPCs/characters mentioned in the card content" +:+ nl
  +:+ "3. REPLACE all instances of " +:+ quote +:+ "{{char}}" +:+ quote
  +:+ " with the actual character name in your output" +:+ nl
  +:+ "4. KEEP all instances of " +:+ quote +:+ "{{user}}" +:+ quote
  +:+ " as-is - this placeholder will be replaced with the player's character name later"
  +:+ nl
  +:+ "5. REMOVE specific meta-content patterns (see below)" +:+ nl
  +:+ "6. PRESERVE the original text as much as possible - do NOT summarize or condense"
  +:+ nl
  +:+ nl
  +:+ "The " +:+ quote +:+ "{{user}}" +:+ quote
  +:+ " refers to the player's character (protagonist). Characters identified from the card will become NPCs."
  +:+ nl
  +:+ nl
  +:+ "## REMOVE THESE PATTERNS (delete entirely):" +:+ nl
  +:+ nl
  +:+ "### Roleplay Instructions (DELETE):" +:+ nl
  +:+ "- " +:+ quote +:+ "You are {{char}}" +:+ quote +:+ ", " +:+ quote
  +:+ "You will portray..." +:+ quote +:+ ", " +:+ quote +:+ "Play as..."
  +:+ quote +:+ nl
  +:+ "- " +:+ quote +:+ "Do not speak for {{user}}" +:+ quote +:+ ", "
  +:+ quote +:+ "Never speak for {{user}}" +:+ quote +:+ nl
  +:+ "- " +:+ quote +:+ "Stay in character" +:+ quote +:+ ", " +:+ quote
  +:+ "Never break character" +:+ quote +:+ nl
  +:+ "- " +:+ quote +:+ "Always respond as..." +:+ quote +:+ ", " +:+ quote
  +:+ "You must..." +:+ quote +:+ nl
  +:+ "- Any instruction telling the AI HOW to behave" +:+ nl
  +:+ nl
  +:+ "### Meta-Content (DELETE):" +:+ nl
  +:+ "- HTML comments: <!-- ... -->" +:+ nl
  +:+ "- OOC markers: " +:+ quote +:+ "(OOC:" +:+ quote +:+ ", " +:+ quote
  +:+ "[Author's note:" +:+ quote +:+ ", " +:+ quote +:+ "[A/N:" +:+ quote
  +:+ ", etc." +:+ nl
  +:+ "- System prompts, jailbreaks, NSFW toggles" +:+ nl
  +:+ "- Format instructions: " +:+ quote +:+ "Use asterisks for actions"
  +:+ quote +:+ ", " +:+ quote +:+ "Write in third person" +:+ quote +:+ ", "
  +:+ quote +:+ "Use markdown" +:+ quote +:+ nl
  +:+ "- Section headers like " +:+ quote +:+ "=== Narration ===" +:+ quote
  +:+ " or " +:+ quote +:+ "=== Character Embodiment ===" +:+ quote +:+ nl
  +:+ "- Guidelines about writing style, vocabulary, pacing" +:+ nl
  +:+ nl
  +:+ "### Example Dialogue Format (EXTRACT LORE ONLY):" +:+ nl
  +:+ "- Remove the dialogue format itself" +:+ nl
  +:+ "- Keep any world-building or lore mentioned within dialogues" +:+ nl
  +:+ nl
  +:+ "## CONVERT TO NATURAL PROSE (don't delete):" +:+ nl
  +:+ nl
  +:+ "### PList Syntax " +:+ arrow +:+ " Natural Prose:" +:+ nl
  +:+ "- [Character: trait1, trait2; clothes: x] " +:+ arrow +:+ " "
  +:+ quote +:+ "CharacterName is trait1 and trait2. She wears x." +:+ quote
  +:+ nl
  +:+ "- Keep ALL the information, just convert the bracket format to sentences"
  +:+ nl
  +:+ nl
  +:+ "## PRESERVE VERBATIM:" +:+ nl
  +:+ "- World descriptions, locations, atmosphere" +:+ nl
  +:+ "- Character appearance (physical details, clothing, etc.)" +:+ nl
  +:+ "- Character personality and behavior patterns" +:+ nl
  +:+ "- Backstory and history" +:+ nl
  +:+ "- Relationship dynamics" +:+ nl
  +:+ "- Scenario/situation setup" +:+ nl
  +:+ "- Any lore, world rules, or setting details" +:+ nl
  +:+ "- All {{user}} placeholders (keep them exactly as {{user}})" +:+ nl
  +:+ nl
  +:+ "## OUTPUT FORMAT" +:+ nl
  +:+ "Respond with valid JSON only (no markdown code blocks):" +:+ nl
  +:+ "{" +:+ nl
  +:+ "  " +:+ quote +:+ "primaryCharacterName" +:+ quote +:+ ": " +:+ quote
  +:+ "The ACTUAL name of the main character that {{char}} refers to"
  +:+ quote +:+ "," +:+ nl
  +:+ "  " +:+ quote +:+ "settingSeed" +:+ quote +:+ ": " +:+ quote
  +:+ "The FULL cleaned text with {{char}} replaced by the actual name, but {{user}} kept as-is. This should be LONG - include ALL world-building, character details, and scenario setup. Only meta-instructions should be removed."
  +:+ quote +:+ "," +:+ nl
  +:+ "  " +:+ quote +:+ "npcs" +:+ quote +:+ ": [" +:+ nl
  +:+ "    {" +:+ nl
  +:+ "      " +:+ quote +:+ "name" +:+ quote +:+ ": " +:+ quote
  +:+ "Character's actual name" +:+ quote +:+ "," +:+ nl
  +:+ "      " +:+ quote +:+ "role" +:+ quote +:+ ": " +:+ quote
  +:+ "their role (e.g., 'ally', 'mentor', 'antagonist', 'love interest', 'guide', 'friend')"
  +:+ quote +:+ "," +:+ nl
  +:+ "      " +:+ quote +:+ "description" +:+ quote +:+ ": " +:+ quote
  +:+ "1-2 sentences: who they are and key appearance details" +:+ quote
  +:+ "," +:+ nl
  +:+ "      " +:+ quote +:+ "personality" +:+ quote +:+ ": " +:+ quote
  +:+ "key personality traits as comma-separated list" +:+ quote +:+ ","
  +:+ nl
  +:+ "      " +:+ quote +:+ "relationship" +:+ quote +:+ ": " +:+ quote
  +:+ "their relationship to {{user}}" +:+ quote +:+ nl
  +:+ "    }" +:+ nl
  +:+ "  ]" +:+ nl
  +:+ "}" +:+ nl
  +:+ nl
  +:+ "Note: Include ALL significant characters mentioned in the card as NPCs. The primary character ({{char}}) should be the first NPC in the array.".

Definition conversionUserPrompt (genre cardTitle cardContext : string)
  : string :=
  "Clean this character card for use as a " +:+ genre
  +:+ " scenario setting." +:+ nl
  +:+ nl
  +:+ "The {{user}} will be the protagonist (their name will be filled in later) interacting with the NPCs in an interactive story."
  +:+ nl
  +:+ nl
  +:+ "IMPORTANT: " +:+ nl
  +:+ "- Identify who " +:+ quote +:+ "{{char}}" +:+ quote
  +:+ " refers to based on the content (NOT the card title " +:+ quote
  +:+ cardTitle +:+ quote +:+ ")" +:+ nl
  +:+ "- Replace all {{char}} with the actual character name" +:+ nl
  +:+ "- KEEP all {{user}} placeholders as-is (they will be replaced with the player's character name later)"
  +:+ nl
  +:+ "- Preserve the original text - only REMOVE meta-instructions and roleplay guidelines"
  +:+ nl
  +:+ "- Do NOT summarize or condense - the output should be nearly as long as the input"
  +:+ nl
  +:+ nl
  +:+ "## CARD CONTENT" +:+ nl
  +:+ cardContext +:+ nl
  +:+ nl
  +:+ "Clean the above content. Identify all NPCs, replace {{char}} with the actual name, keep {{user}} as-is, and remove meta-content. Output valid JSON only.".

(** *** Conversion *)

Module GeneratedCharacter.
Record t := {
  name : JSValue;
  role : JSValue;
  description : JSValue;
  relationship : JSValue;
  traits : list string
}.
End GeneratedCharacter.

Record CardImportResult := {
  success : bool;
  settingSeed : JSValue;
  npcs : list GeneratedCharacter.t;
  primaryCharacterName : JSValue;
  storyTitle : JSValue;
  importedFirstMessage : string;
  importedAlternateGreetings : list string;
  errors : list string
}.

(** What the importer takes from modules that are not part of the sources
    at hand: the settings store ([settings.apiSettings],
    [settings.getApiSettingsForProfile], the value that [buildExtraBody]
    returns for [settings.advancedRequestSettings]), the constructor of
    [OpenAIProvider], and two operations of the runtime, the message of a
    caught value ([error instanceof Error ? error.message : undefined]) and
    [s.slice(0, n)], which counts UTF-16 code units.  None of them is taken
    to throw. *)
Class ImporterEnv := {
  ApiSettings : Type;
  mainNarrativeProfileId : option string;
  getApiSettingsForProfile : option string -> ApiSettings;
  hasOpenaiApiKey : ApiSettings -> bool;
  newOpenAIProvider : ApiSettings -> ImportRequest.t -> Outcome Response;
  builtExtraBody : JSValue;
  errorMessage : JSError -> option string;
  String_slice0 : nat -> string -> string
}.

Section Conversion.
Context `{RT : JSRuntime} `{ENV : ImporterEnv}.

(** [v.trim()] on a value of unknown shape. *)
Definition trimOf (v : JSValue) : Outcome string :=
  match v with
  | JString s => Resolved (String_trim s)
  | _ => Rejected TypeError
  end.

(** One [if (card.field.trim()) sections.push(...)] of [buildCardContext]. *)
Definition pushSection (tag : string) (field : JSValue)
    (sections : list string) : Outcome (list string) :=
  trimmed ← trimOf field;
  if negb (String.eqb trimmed EmptyString) then
    normalized ← normalizeUserMacro_any field;
    mret (sections ++ ["<" +:+ tag +:+ ">" +:+ nl +:+ normalized +:+ nl
                       +:+ "</" +:+ tag +:+ ">"])
  else mret sections.

Definition buildCardContext (card : ParsedCard.t) : Outcome string :=
  let sections := [] in
  sections ← pushSection "scenario" (ParsedCard.scenario card) sections;
  sections ← pushSection "character_description"
               (ParsedCard.description card) sections;
  sections ← pushSection "personality" (ParsedCard.personality card) sections;
  sections ← pushSection "example_messages"
               (ParsedCard.exampleMessages card) sections;
  mret (String.concat (nl +:+ nl) sections).

(** [card.alternateGreetings.map(g => normalizeUserMacro(g))] *)
Definition normalizeGreetings (greetings : JSValue) : Outcome (list string) :=
  match greetings with
  | JArray l => mapOutcome normalizeUserMacro_any l
  | _ => Rejected TypeError
  end.

(** [npc.personality ? npc.personality.split(/[,;]/).map(t => t.trim())
    .filter(t => t.length > 0).slice(0, 5) : []] *)
Definition readTraits (personality : option JSValue) : Outcome (list string) :=
  match personality with
  | Some v =>
      if truthy v then
        match v with
        | JString s =>
            Resolved
              (take 5
                 (filter (fun t => t <> EmptyString)
                    (map (fun piece => String_trim (string_of_list_ascii piece))
                       (splitTraits (list_ascii_of_string s)))))
        | _ => Rejected TypeError
        end
      else Resolved []
  | None => Resolved []
  end.

(** The callback of [(result.npcs || []).map(...)]. *)
Definition readNpc (npc : JSValue) : Outcome GeneratedCharacter.t :=
  name ← member (Some npc) "name";
  role ← member (Some npc) "role";
  description ← member (Some npc) "description";
  relationship ← member (Some npc) "relationship";
  personality ← member (Some npc) "personality";
  traits ← readTraits personality;
  mret {| GeneratedCharacter.name := orElse name (JString "Unknown");
          GeneratedCharacter.role := orElse role (JString "NPC");
          GeneratedCharacter.description :=
            orElse description (JString EmptyString);
          GeneratedCharacter.relationship :=
            orElse relationship (JString "acquaintance");
          GeneratedCharacter.traits := traits |}.

(** [ToString(v)], as a template literal and [String.prototype.replace]
    apply it. *)
Definition toStringOf (v : JSValue) : Outcome string :=
  match js_String v with
  | Some s => Resolved s
  | None => Rejected TypeError
  end.

(** The text that is handed to [JSON.parse]: the trimmed response, without
    its code fence if it starts with one, cut down to its first "{" ...
    last "}" if there is such a stretch. *)
Definition extractJson (content : string) : string :=
  let jsonStr := String_trim content in
  let jsonStr :=
    if startsWith fence (list_ascii_of_string jsonStr) then
      String_trim
        (string_of_list_ascii
           (stripClosingFence
              (stripOpeningFence (list_ascii_of_string jsonStr))))
    else jsonStr in
  match matchObjectLiteral (list_ascii_of_string jsonStr) with
  | Some jsonMatch => string_of_list_ascii jsonMatch
  | None => jsonStr
  end.

(** The [try] block after the response has arrived, up to the result. *)
Definition readConversion (cardTitle : JSValue)
    (preprocessedFirstMessage : string)
    (preprocessedAlternateGreetings : list string) (content : string)
  : Outcome CardImportResult :=
  result ← match JSON_parse (extractJson content) with
           | Some result => Resolved result
           | None => Rejected SyntaxError
           end;
  named ← member (Some result) "primaryCharacterName";
  let primaryName := orElse named cardTitle in
  listed ← member (Some result) "npcs";
  npcs ← match orElse listed (JArray []) with
         | JArray l => mapOutcome readNpc l
         | _ => Rejected TypeError
         end;
  replacement ← toStringOf primaryName;
  let finalFirstMessage :=
    replaceCharMacro preprocessedFirstMessage replacement in
  let finalAlternateGreetings :=
    map (fun g => replaceCharMacro g replacement)
      preprocessedAlternateGreetings in
  seed ← member (Some result) "settingSeed";
  mret {| success := true;
          settingSeed := orElse seed (JString EmptyString);
          npcs := npcs;
          primaryCharacterName := primaryName;
          storyTitle := cardTitle;
          importedFirstMessage := finalFirstMessage;
          importedAlternateGreetings := finalAlternateGreetings;
          errors := [] |}.

(** The text of the fallback: [[card.scenario, card.description]
    .filter(s => s.trim()).join('\n\n')], normalized and cut. *)
Definition fallbackSeed (card : ParsedCard.t) : Outcome string :=
  kept ← mapOutcome
           (fun s => trimmed ← trimOf s; mret (s, trimmed))
           [ParsedCard.scenario card; ParsedCard.description card];
  let texts :=
    omap (fun '(s, trimmed) =>
            match s with
            | JString text =>
                if String.eqb trimmed EmptyString then None else Some text
            | _ => None
            end) kept in
  mret (String_slice0 2000
          (normalizeUserMacro (String.concat (nl +:+ nl) texts))).

Definition conversionRequest (systemPrompt userPrompt : string)
  : ImportRequest.t :=
  {| ImportRequest.model := "deepseek/deepseek-v3.2";
     ImportRequest.messages :=
       [ {| role := "system"; msg_content := systemPrompt |};
         {| role := "user"; msg_content := userPrompt |} ];
     ImportRequest.temperature := QArith_base.Qmake 3 10;
     ImportRequest.maxTokens := 16384;
     ImportRequest.extraBody := builtExtraBody |}.

Definition awaitConversion (request : ImportRequest.t)
    (provider : ImportRequest.t -> Outcome Response) : Import Response :=
  (provider request, [ImportCall request]).

Definition parseFailureMessage : string :=
  "Failed to parse character card. Please ensure the file is a valid SillyTavern character card JSON.".

Definition noApiKeyMessage : string :=
  "No API key configured. Please set up an API key to convert character cards.".

Definition emptyCardMessage : string :=
  "Character card appears to be empty. No content found to convert.".

Definition conversionFailedMessage (errorMsg : string) : string :=
  "LLM conversion failed: " +:+ errorMsg
  +:+ ". Basic extraction was used as fallback.".

Definition convertCardToScenario (jsonString : string) (mode genre : string)
    (profileId : option string) : Import CardImportResult :=
  card ← parseCharacterCard jsonString;
  match card with
  | None =>
      mret {| success := false;
              settingSeed := JString EmptyString;
              npcs := [];
              primaryCharacterName := JString EmptyString;
              storyTitle := JString EmptyString;
              importedFirstMessage := EmptyString;
              importedAlternateGreetings := [];
              errors := [parseFailureMessage] |}
  | Some card =>
      importLog "Parsed card:";;
      let cardTitle := ParsedCard.name card in
      preprocessedFirstMessage ←
        pureStep (normalizeUserMacro_any (ParsedCard.firstMessage card));
      preprocessedAlternateGreetings ←
        pureStep (normalizeGreetings (ParsedCard.alternateGreetings card));
      let resolvedProfileId :=
        match profileId with
        | Some given => Some given
        | None => mainNarrativeProfileId
        end in
      let apiSettings := getApiSettingsForProfile resolvedProfileId in
      if negb (hasOpenaiApiKey apiSettings) then
        mret {| success := false;
                settingSeed := JString EmptyString;
                npcs := [];
                primaryCharacterName := cardTitle;
                storyTitle := cardTitle;
                importedFirstMessage := preprocessedFirstMessage;
                importedAlternateGreetings := preprocessedAlternateGreetings;
                errors := [noApiKeyMessage] |}
      else
        let provider := newOpenAIProvider apiSettings in
        cardContext ← pureStep (buildCardContext card);
        if String.eqb (String_trim cardContext) EmptyString then
          mret {| success := false;
                  settingSeed := JString EmptyString;
                  npcs := [];
                  primaryCharacterName := cardTitle;
                  storyTitle := cardTitle;
                  importedFirstMessage := preprocessedFirstMessage;
                  importedAlternateGreetings :=
                    preprocessedAlternateGreetings;
                  errors := [emptyCardMessage] |}
        else
          let systemPrompt := getCardConversionSystemPrompt in
          titleText ← pureStep (toStringOf cardTitle);
          let userPrompt := conversionUserPrompt genre titleText cardContext in
          importLog "Sending to LLM for conversion...";;
          import_try
            (response ← awaitConversion
                          (conversionRequest systemPrompt userPrompt) provider;
             importLog "LLM response received, parsing...";;
             converted ← pureStep
                           (readConversion cardTitle preprocessedFirstMessage
                              preprocessedAlternateGreetings
                              (content response));
             importLog "Conversion successful:";;
             mret converted)
            (fun error =>
               let errorMsg :=
                 default "Unknown error during conversion"
                   (errorMessage error) in
               importLog "LLM conversion failed:";;
               fallbackDescription ← pureStep (fallbackSeed card);
               mret {| success := false;
                       settingSeed := JString fallbackDescription;
                       npcs := [];
                       primaryCharacterName := cardTitle;
                       storyTitle := cardTitle;
                       importedFirstMessage := preprocessedFirstMessage;
                       importedAlternateGreetings :=
                         preprocessedAlternateGreetings;
                       errors := [conversionFailedMessage errorMsg] |})
  end.

End Conversion.

(** *** Vocabulary for the statements about the conversion *)

Section ConversionVocabulary.
Context `{RT : JSRuntime} `{ENV : ImporterEnv}.

(** The settings that a run uses:
    [settings.getApiSettingsForProfile(profileId ??
    settings.apiSettings.mainNarrativeProfileId)]. *)
Definition resolvedApiSettings (profileId : option string) : ApiSettings :=
  getApiSettingsForProfile
    match profileId with
    | Some given => Some given
    | None => mainNarrativeProfileId
    end.

Definition apiKeyPresent (profileId : option string) : bool :=
  hasOpenaiApiKey (resolvedApiSettings profileId).

(** The request of a run that reaches the model. *)
Definition requestOfCard (genre titleText cardContext : string)
  : ImportRequest.t :=
  conversionRequest getCardConversionSystemPrompt
    (conversionUserPrompt genre titleText cardContext).

(** The record that the [catch] block returns. *)
Definition fallbackResult (card : ParsedCard.t) (firstMessage : string)
    (greetings : list string) (seed : string) (error : JSError)
  : CardImportResult :=
  {| success := false;
     settingSeed := JString seed;
     npcs := [];
     primaryCharacterName := ParsedCard.name card;
     storyTitle := ParsedCard.name card;
     importedFirstMessage := firstMessage;
     importedAlternateGreetings := greetings;
     errors :=
       [conversionFailedMessage
          (default "Unknown error during conversion" (errorMessage error))] |}.

End ConversionVocabulary.

(** ** A reference runtime for cards

    [JSON.parse] for the texts of the card examples: objects, arrays,
    string literals without escape sequences and the three literal names,
    with optional JSON white space.  Any other text (numbers, escapes) is
    answered with [None]; the examples stay within the fragment. *)
Module CardRuntime.

Inductive Mode :=
| AValue
| Elements (seen : list JSValue)
| Members (seen : list (string * JSValue)).

Fixpoint skipSpaces (s : list ascii) : list ascii :=
  match s with
  | c :: rest => if RefRuntime.isJsonSpace c then skipSpaces rest else s
  | [] => []
  end.

(** The characters of a string literal after its opening quote, and the
    text after its closing quote. *)
Fixpoint readString (s : list ascii) : option (list ascii * list ascii) :=
  match s with
  | [] => None
  | c :: rest =>
      if RefRuntime.isQuote c then Some ([], rest)
      else if Ascii.eqb c "\" || (N_of_ascii c <? 32)%N then None
      else
        match readString rest with
        | Some (str, rest') => Some (c :: str, rest')
        | None => None
        end
  end.

Definition readLiteral (s : list ascii) : option (JSValue * list ascii) :=
  if startsWith (list_ascii_of_string "null") s
  then Some (JNull, drop 4 s)
  else if startsWith (list_ascii_of_string "true") s
  then Some (JBool true, drop 4 s)
  else if startsWith (list_ascii_of_string "false") s
  then Some (JBool false, drop 5 s)
  else None.

Fixpoint parseJson (fuel : nat) (mode : Mode) (s : list ascii)
  : option (JSValue * list ascii) :=
  match fuel with
  | O => None
  | S fuel' =>
      match mode, skipSpaces s with
      | AValue, c :: rest =>
          if RefRuntime.isQuote c then
            match readString rest with
            | Some (str, rest') =>
                Some (JString (string_of_list_ascii str), rest')
            | None => None
            end
          else if Ascii.eqb c "[" then
            match skipSpaces rest with
            | d :: rest' =>
                if Ascii.eqb d "]" then Some (JArray [], rest')
                else parseJson fuel' (Elements []) rest
            | [] => None
            end
          else if Ascii.eqb c "{" then
            match skipSpaces rest with
            | d :: rest' =>
                if Ascii.eqb d "}" then Some (JObject [], rest')
                else parseJson fuel' (Members []) rest
            | [] => None
            end
          else readLiteral (c :: rest)
      | Elements seen, rest =>
          match parseJson fuel' AValue rest with
          | Some (v, rest') =>
              match skipSpaces rest' with
              | d :: rest'' =>
                  if Ascii.eqb d "," then
                    parseJson fuel' (Elements (seen ++ [v])) rest''
                  else if Ascii.eqb d "]" then
                    Some (JArray (seen ++ [v]), rest'')
                  else None
              | [] => None
              end
          | None => None
          end
      | Members seen, q :: rest =>
          if RefRuntime.isQuote q then
            match readString rest with
            | Some (key, rest') =>
                match skipSpaces rest' with
                | colon :: rest'' =>
                    if Ascii.eqb colon ":" then
                      match parseJson fuel' AValue rest'' with
                      | Some (v, rest3) =>
                          let seen' :=
                            seen ++ [(string_of_list_ascii key, v)] in
                          match skipSpaces rest3 with
                          | d :: rest4 =>
                              if Ascii.eqb d "," then
                                parseJson fuel' (Members seen') rest4
                              else if Ascii.eqb d "}" then
                                Some (JObject seen', rest4)
                              else None
                          | [] => None
                          end
                      | None => None
                      end
                    else None
                | [] => None
                end
            | None => None
            end
          else None
      | _, [] => None
      end
  end.

Definition parse (text : string) : option JSValue :=
  let s := list_ascii_of_string text in
  match parseJson (S (length s)) AValue s with
  | Some (v, rest) =>
      match skipSpaces rest with
      | [] => Some v
      | _ :: _ => None
      end
  | None => None
  end.

#[export] Instance runtime : JSRuntime :=
  {| JSON_parse := parse; String_trim := RefRuntime.trim |}.

End CardRuntime.

(** ** Concrete cards for the examples *)

(** The JSON text of a string literal and of a member. *)
Definition jsonString (s : string) : string := quote +:+ s +:+ quote.

Definition jsonMember (key value : string) : string :=
  jsonString key +:+ ": " +:+ value.

Definition jsonObject (members : list string) : string :=
  "{" +:+ String.concat ", " members +:+ "}".

(** A V1 card. *)
Definition cardV1 : string :=
  jsonObject
    [ jsonMember "name" (jsonString "Mira");
      jsonMember "description" (jsonString "A healer who serves {{USER}}.");
      jsonMember "scenario" (jsonString "The plague year.");
      jsonMember "first_mes" (jsonString "{{Char}} greets {{User}}.") ].

(** A V2 card whose nested record has no name; the root carries one. *)
Definition cardV2 : string :=
  jsonObject
    [ jsonMember "spec" (jsonString "chara_card_v2");
      jsonMember "name" (jsonString "Root name");
      jsonMember "data"
        (jsonObject
           [ jsonMember "description" (jsonString "A smuggler.");
             jsonMember "first_mes" (jsonString "Hello {{USER}}.") ]) ].

(** A card with a [spec] the importer does not know, otherwise V1. *)
Definition cardForeignSpec : string :=
  jsonObject
    [ jsonMember "spec" (jsonString "other_format");
      jsonMember "name" (jsonString "Mira");
      jsonMember "description" (jsonString "A healer.") ].

(** A V1 card whose first message is [true]. *)
Definition cardBooleanFirstMessage : string :=
  jsonObject
    [ jsonMember "name" (jsonString "Mira");
      jsonMember "description" (jsonString "A healer.");
      jsonMember "first_mes" "true" ].

(** A V2 card whose [data] is [null]. *)
Definition cardNullData : string :=
  jsonObject
    [ jsonMember "spec" (jsonString "chara_card_v2");
      jsonMember "data" "null" ].

(** An answer of the conversion model. *)
Definition conversionAnswer : string :=
  "Here you are: " +:+
  jsonObject
    [ jsonMember "primaryCharacterName" (jsonString "Mira");
      jsonMember "settingSeed" (jsonString "The plague year. Mira heals.");
      jsonMember "npcs"
        ("[" +:+
         jsonObject
           [ jsonMember "name" (jsonString "Mira");
             jsonMember "personality"
               (jsonString "kind, stern;; tired , brave,loyal,quiet,odd") ]
         +:+ "]") ].

(** Settings with or without an API key, and a provider with one fixed
    outcome. *)
Definition fixedEnv (hasKey : bool) (answer : Outcome Response)
  : ImporterEnv :=
  {| ApiSettings := unit;
     mainNarrativeProfileId := None;
     getApiSettingsForProfile := fun _ => tt;
     hasOpenaiApiKey := fun _ => hasKey;
     newOpenAIProvider := fun _ _ => answer;
     builtExtraBody := JObject [];
     errorMessage := fun e => Some e;
     String_slice0 := fun n s => String.substring 0 n s |}.

Definition importCalls (tr : list ImportEvent) : list ImportRequest.t :=
  omap (fun ev =>
          match ev with
          | ImportCall req => Some req
          | ImportLog _ => None
          end) tr.

(** A card all of whose text fields are strings and whose greetings are an
    array of strings: the shape that the type [ParsedCard] promises. *)
Definition isText (v : JSValue) : Prop :=
  match v with
  | JString _ => True
  | _ => False
  end.

Definition wellTyped (card : ParsedCard.t) : Prop :=
  isText (ParsedCard.name card)
  /\ isText (ParsedCard.description card)
  /\ isText (ParsedCard.personality card)
  /\ isText (ParsedCard.scenario card)
  /\ isText (ParsedCard.firstMessage card)
  /\ isText (ParsedCard.exampleMessages card)
  /\ exists greetings,
       ParsedCard.alternateGreetings card = JArray greetings
       /\ Forall isText greetings.

(** * Properties *)

(** ** The sort: a permutation, ordered, and stable *)

Section SortFacts.
Context {A : Type} (key : A -> Z).


Lemma sort_insert_perm x l : sort_insert (descending key) x l ≡ₚ x :: l.
Proof.
  induction l as [|y l IH]; simpl; [done|].
  destruct (descending key x y <=? 0)%Z; [done|].
  rewrite IH. apply Permutation_swap.
Qed.

Lemma Array_sort_perm l : Array_sort (descending key) l ≡ₚ l.
Proof.
  induction l as [|x l IH]; simpl; [done|].
  rewrite sort_insert_perm. by rewrite IH.
Qed.

Lemma sort_insert_sorted x l :
  StronglySorted (key_ge key) l -> StronglySorted (key_ge key) (sort_insert (descending key) x l).
Proof.
  induction 1 as [|y l Hs IH Hall]; simpl.
  - repeat constructor.
  - unfold descending at 1.
    destruct (Z.leb_spec (key y - key x) 0) as [Hle|Hgt].
    + constructor; [by constructor|].
      constructor; [unfold key_ge; lia|].
      eapply Forall_impl; [exact Hall|].
      unfold key_ge. intros z Hz. lia.
    + constructor; [exact IH|].
      rewrite sort_insert_perm. constructor; [unfold key_ge; lia|exact Hall].
Qed.

Lemma Array_sort_sorted l : StronglySorted (key_ge key) (Array_sort (descending key) l).
Proof.
  induction l as [|x l IH]; simpl; [constructor|].
  by apply sort_insert_sorted.
Qed.

(** Stability: the elements of any one key keep their relative order. *)
Lemma sort_insert_stable k x l :
  filter (fun a => key a = k) (sort_insert (descending key) x l)
  = filter (fun a => key a = k) (x :: l).
Proof.
  induction l as [|y l IH]; simpl; [done|].
  unfold descending at 1.
  destruct (Z.leb_spec (key y - key x) 0) as [Hle|Hgt]; [done|].
  rewrite (filter_cons _ y), IH, !filter_cons.
  destruct (decide (key y = k)), (decide (key x = k)); try done; lia.
Qed.

Lemma Array_sort_stable k l :
  filter (fun a => key a = k) (Array_sort (descending key) l)
  = filter (fun a => key a = k) l.
Proof.
  induction l as [|x l IH]; simpl; [done|].
  rewrite sort_insert_stable, !filter_cons. by rewrite IH.
Qed.

(** Two descending lists with the same elements in the same order per key
  are equal: the result of a stable sort does not depend on the
  algorithm, so insertion stands for whatever the engine runs. *)
Lemma stable_descending_unique l1 l2 :
StronglySorted (key_ge key) l1 -> StronglySorted (key_ge key) l2 ->
(forall k, filter (fun a => key a = k) l1 = filter (fun a => key a = k) l2) ->
l1 = l2.
Proof.
intros Hs1. revert l2.
induction Hs1 as [|x l1 Hs1 IH Hx]; intros l2 Hs2 Hf.
- destruct l2 as [|y l2]; [done|].
  specialize (Hf (key y)). rewrite filter_nil, filter_cons_True in Hf; done.
- destruct Hs2 as [|y l2 Hs2 Hy].
  { specialize (Hf (key x)).
    rewrite filter_nil, filter_cons_True in Hf; done. }
  assert (key x = key y) as Hk.
  { assert (x ∈ y :: l2) as Hin1.
    { eapply (list_elem_of_filter (fun a => key a = key x)).
      rewrite <- Hf, filter_cons_True by done. by left. }
    assert (y ∈ x :: l1) as Hin2.
    { eapply (list_elem_of_filter (fun a => key a = key y)).
      rewrite Hf, filter_cons_True by done. by left. }
    rewrite Forall_forall in Hx, Hy. unfold key_ge in *.
    apply elem_of_cons in Hin1 as [->|Hin1]; [done|].
    apply elem_of_cons in Hin2 as [->|Hin2]; [done|].
    specialize (Hx _ Hin2). specialize (Hy _ Hin1). lia. }
  pose proof (Hf (key x)) as Hhead.
  rewrite !filter_cons_True in Hhead by done.
  inversion Hhead as [[Hxy Htail]]. subst y. f_equal.
  apply IH; [done|]. intros k.
  destruct (decide (key x = k)) as [<-|Hne]; [done|].
  specialize (Hf k). by rewrite !filter_cons_False in Hf.
Qed.
End SortFacts.

(** ** Tier 1 *)

Lemma tier1Rule_always e :
  Injection.mode (injection e) = mode_always ->
  exists reason, tier1Rule e = (true, 100, reason).
Proof.
  intros Hm. unfold tier1Rule. rewrite Hm.
  destruct (decide (mode_always = mode_always)) as [_|Hne]; [|done].
  destruct (state e) as [[[] ?|[]|[]|st| |]|]; simpl; eauto.
  destruct (decide (st = allied \/ st = hostile)); eauto.
Qed.

Lemma getTier1Entries_elem x entries :
  x ∈ getTier1Entries entries <->
  exists e p r, e ∈ entries /\ tier1Rule e = (true, p, r) /\
    x = {| entry := e; tier := T1; priority := p; matchReason := Some r |}.
Proof.
  induction entries as [|e entries IH]; simpl.
  - split; [by intros ?%elem_of_nil|].
    by intros (? & ? & ? & ?%elem_of_nil & _).
  - destruct (tier1Rule e) as [[inc p] r] eqn:Hr.
    destruct inc.
    + rewrite elem_of_cons, IH. split.
      * intros [->|(e' & p' & r' & He' & Hr' & ->)].
        -- exists e, p, r. rewrite elem_of_cons. auto.
        -- exists e', p', r'. rewrite elem_of_cons. auto.
      * intros (e' & p' & r' & [->|He']%elem_of_cons & Hr' & ->).
        -- left. rewrite Hr in Hr'. by inversion Hr'.
        -- right. eauto 6.
    + rewrite IH. split.
      * intros (e' & p' & r' & He' & Hr' & ->).
        exists e', p', r'. rewrite elem_of_cons. auto.
      * intros (e' & p' & r' & [->|He']%elem_of_cons & Hr' & ->).
        -- rewrite Hr in Hr'. discriminate.
        -- eauto 6.
Qed.

Lemma getTier1Entries_tier x entries :
  x ∈ getTier1Entries entries -> tier x = T1 /\ entry x ∈ entries.
Proof.
  intros (e & p & r & He & _ & ->)%getTier1Entries_elem. done.
Qed.

(** ** The async methods always resolve *)

(** Runs the sequencing operators of [Async] on the outcomes at hand. *)
Ltac async_run :=
  unfold mbind, mret, Async_bind, Async_ret, bind, ret, log, try_catch,
    outcome, trace, DEBUG;
  cbn beta iota zeta delta [fst snd app].

Section ServiceFacts.
Context `{RT : JSRuntime}.

Lemma applyMaxLimit_sublist cfg l : applyMaxLimit cfg l `sublist_of` l.
Proof.
  unfold applyMaxLimit. destruct (0 <? maxTier3Entries cfg)%Z; [|done].
  apply sublist_take.
Qed.

Lemma mapIdsBack_elem x ids avail :
  x ∈ mapIdsBack ids avail <->
  exists e, x = tier2Entry e /\ e ∈ avail /\ id e ∈ ids.
Proof.
  unfold mapIdsBack. rewrite list_elem_of_fmap.
  split; intros (e & -> & He); exists e; (split; [done|]);
    revert He; rewrite list_elem_of_filter, elem_of_list_to_set; tauto.
Qed.

Lemma getLLMSelectedEntries_no_provider this avail ui rs :
  provider this = None ->
  getLLMSelectedEntries this avail ui rs = (Resolved [], []).
Proof. intros H. unfold getLLMSelectedEntries. by rewrite H. Qed.

Lemma getLLMSelectedEntries_resolved this p avail ui rs resp :
  provider this = Some p -> avail <> [] ->
  generateResponse p (requestFor this avail ui rs) = Resolved resp ->
  outcome (getLLMSelectedEntries this avail ui rs)
  = Resolved (applyMaxLimit (config this)
                (mapIdsBack (selectedIdsOf (content resp)) avail))
  /\ Call (requestFor this avail ui rs)
       ∈ trace (getLLMSelectedEntries this avail ui rs).
Proof.
  intros Hp Hne Hresp. unfold getLLMSelectedEntries. rewrite Hp.
  destruct avail as [|e avail]; [done|]. simpl length. cbn [Nat.eqb].
  unfold await_generateResponse. fold (requestFor this (e :: avail) ui rs).
  rewrite Hresp.
  async_run. destruct (tryJsonArray (content resp)); simpl;
    (split; [done|]); rewrite elem_of_cons; auto.
Qed.

Lemma getLLMSelectedEntries_rejected this p avail ui rs err :
  provider this = Some p -> avail <> [] ->
  generateResponse p (requestFor this avail ui rs) = Rejected err ->
  getLLMSelectedEntries this avail ui rs
  = (Resolved [], [Call (requestFor this avail ui rs);
                   Log "LLM selection failed:"]).
Proof.
  intros Hp Hne Hresp. unfold getLLMSelectedEntries. rewrite Hp.
  destruct avail as [|e avail]; [done|]. simpl length. cbn [Nat.eqb].
  unfold await_generateResponse. fold (requestFor this (e :: avail) ui rs).
  rewrite Hresp. by async_run.
Qed.
End ServiceFacts.

Section PipelineFacts.
Context `{RT : JSRuntime}.

Lemma getLLMSelectedEntries_total this avail ui rs :
  exists l tr, getLLMSelectedEntries this avail ui rs = (Resolved l, tr).
Proof.
  destruct (provider this) as [p|] eqn:Hp.
  - destruct avail as [|e avail].
    + unfold getLLMSelectedEntries. rewrite Hp. simpl. eauto.
    + destruct (generateResponse p (requestFor this (e :: avail) ui rs))
        as [resp|err] eqn:Hr.
      * destruct (getLLMSelectedEntries_resolved this p (e :: avail) ui rs
                    resp Hp ltac:(done) Hr) as [Ho _].
        destruct (getLLMSelectedEntries this (e :: avail) ui rs) as [o tr].
        simpl in Ho. subst o. eauto.
      * rewrite (getLLMSelectedEntries_rejected this p (e :: avail) ui rs
                   err Hp ltac:(done) Hr). eauto.
  - rewrite getLLMSelectedEntries_no_provider by done. eauto.
Qed.

(** [getRelevantEntries] resolves for every service and every input; its
    tier 1 is [getTier1Entries entries], its tier 3 is empty, and its
    tier 2 is either empty with the gate closed, or what the selection
    call resolved with. *)
Lemma getRelevantEntries_shape this entries ui rs :
  let t1 := getTier1Entries entries in
  let remaining := remainingEntries entries t1 in
  exists t2 tr,
    getRelevantEntries this entries ui rs = (Resolved (assemble t1 t2), tr)
    /\ ((selectionGate this remaining = false /\ t2 = []
         /\ forall req, Call req ∉ tr)
        \/ (selectionGate this remaining = true /\
            exists tr', getLLMSelectedEntries this remaining ui rs
                        = (Resolved t2, tr')
                        /\ forall ev, ev ∈ tr' -> ev ∈ tr)).
Proof.
  intros t1 remaining. unfold getRelevantEntries.
  destruct (length entries =? 0)%nat eqn:Hlen.
  { assert (entries = []) as -> by (by destruct entries).
    exists [], []. split; [reflexivity|]. left.
    repeat split; [|intros req ?%elem_of_nil; done].
    unfold selectionGate. subst remaining t1. simpl.
    by rewrite andb_false_r. }
  async_run.
  change (enableLLMSelection (config this) && _ && _)
    with (selectionGate this remaining).
  destruct (selectionGate this remaining) eqn:Hg.
  - destruct (getLLMSelectedEntries_total this remaining ui rs)
      as (t2 & tr' & Hsel).
    exists t2. fold t1 remaining. rewrite Hsel.
    eexists. split; [reflexivity|].
    right. split; [done|]. exists tr'. split; [done|].
    intros ev Hev. set_solver.
  - exists []. eexists. split; [reflexivity|].
    left. repeat split.
    intros req Hin.
    repeat (apply elem_of_cons in Hin as [?|Hin]; [done|]).
    by apply elem_of_nil in Hin.
Qed.

Lemma getRelevantEntries_never_rejects this entries ui rs :
  exists r, outcome (getRelevantEntries this entries ui rs) = Resolved r.
Proof.
  destruct (getRelevantEntries_shape this entries ui rs)
    as (t2 & tr & -> & _). eauto.
Qed.
End PipelineFacts.

Section SelectionFacts.
Context `{RT : JSRuntime}.

Lemma getLLMSelectedEntries_within this avail ui rs l tr :
  getLLMSelectedEntries this avail ui rs = (Resolved l, tr) ->
  forall x, x ∈ l -> exists e, x = tier2Entry e /\ e ∈ avail.
Proof.
  intros Hsel x Hx.
  assert (outcome (getLLMSelectedEntries this avail ui rs) = Resolved l)
    as Ho by (by rewrite Hsel).
  destruct (provider this) as [p|] eqn:Hp.
  - destruct avail as [|e0 avail].
    + unfold getLLMSelectedEntries in Hsel. rewrite Hp in Hsel.
      simpl in Hsel. inversion Hsel; subst. by apply elem_of_nil in Hx.
    + destruct (generateResponse p (requestFor this (e0 :: avail) ui rs))
        as [resp|err] eqn:Hr.
      * destruct (getLLMSelectedEntries_resolved this p (e0 :: avail) ui rs
                    resp Hp ltac:(done) Hr) as [Ho' _].
        rewrite Ho in Ho'. inversion Ho'; subst l.
        eapply elem_of_sublist in Hx; [|apply applyMaxLimit_sublist].
        apply mapIdsBack_elem in Hx as (e & -> & He & _). eauto.
      * rewrite (getLLMSelectedEntries_rejected this p (e0 :: avail) ui rs
                   err Hp ltac:(done) Hr) in Hsel.
        inversion Hsel; subst. by apply elem_of_nil in Hx.
  - rewrite getLLMSelectedEntries_no_provider in Hsel by done.
    inversion Hsel; subst. by apply elem_of_nil in Hx.
Qed.

Lemma remainingEntries_elem e entries t1 :
  e ∈ remainingEntries entries t1 <->
  e ∈ entries /\ (id e ∉ (fun r => id (entry r)) <$> t1)
  /\ Injection.mode (injection e) <> mode_never.
Proof.
  unfold remainingEntries. rewrite list_elem_of_filter, elem_of_list_to_set.
  tauto.
Qed.

Lemma selectionGate_true this remaining :
  selectionGate this remaining = true ->
  enableLLMSelection (config this) = true /\ remaining <> []
  /\ exists p, provider this = Some p.
Proof.
  unfold selectionGate. rewrite !andb_true_iff, bool_decide_eq_true.
  intros [[He Hl] [p Hp]]. repeat split; eauto.
  intros ->. discriminate.
Qed.

Lemma selectionGate_open this p remaining :
  enableLLMSelection (config this) = true -> remaining <> [] ->
  provider this = Some p -> selectionGate this remaining = true.
Proof.
  intros He Hr Hp. unfold selectionGate. rewrite He, Hp.
  by destruct remaining.
Qed.

(** C2. If the provider's [generateResponse] rejects (or throws) for the
    selection request, [getRelevantEntries] still resolves, tier 2 of the
    result is empty, and the failure shows only as a log event in the
    trace; nothing is propagated to the caller. *)
Theorem backend_failure_resolves_with_empty_tier2
    this p entries userInput recentStoryEntries err :
  provider this = Some p ->
  generateResponse p
    (requestFor this (remainingEntries entries (getTier1Entries entries))
       userInput recentStoryEntries) = Rejected err ->
  exists r tr,
    getRelevantEntries this entries userInput recentStoryEntries
    = (Resolved r, tr)
    /\ tier2 r = []
    /\ tier1 r = getTier1Entries entries
    /\ (forall req, Call req ∈ tr -> Log "LLM selection failed:" ∈ tr).
Proof.
  intros Hp Hrej.
  destruct (getRelevantEntries_shape this entries userInput recentStoryEntries)
    as (t2 & tr & Hrun & Hcases).
  exists (assemble (getTier1Entries entries) t2), tr.
  split; [exact Hrun|].
  destruct Hcases as [(_ & -> & Hnocall)|(Hg & tr' & Hsel & Hsub)].
  - repeat split. intros req Hc. by apply Hnocall in Hc.
  - apply selectionGate_true in Hg as (_ & Hne & _).
    rewrite (getLLMSelectedEntries_rejected this p _ _ _ err Hp Hne Hrej)
      in Hsel.
    inversion Hsel; subst t2 tr'. repeat split.
    intros req _. apply Hsub. set_solver.
Qed.

(** C3. An entry whose injection mode is 'always' is in tier 1 of the
    result with priority exactly 100, for every configuration and every
    provider, whether the selection call succeeds, fails, or is not made. *)
Theorem always_entry_in_tier1_with_priority_100
    this entries userInput recentStoryEntries e :
  e ∈ entries ->
  Injection.mode (injection e) = mode_always ->
  exists r,
    outcome (getRelevantEntries this entries userInput recentStoryEntries)
    = Resolved r
    /\ exists x, x ∈ tier1 r /\ entry x = e /\ tier x = T1
                 /\ priority x = 100.
Proof.
  intros He Hm.
  destruct (getRelevantEntries_shape this entries userInput recentStoryEntries)
    as (t2 & tr & -> & _).
  eexists. split; [reflexivity|]. simpl.
  destruct (tier1Rule_always e Hm) as [reason Hrule].
  exists {| entry := e; tier := T1; priority := 100;
            matchReason := Some reason |}.
  repeat split. apply getTier1Entries_elem. eauto 6.
Qed.

(** C8. Every tier-2 entry comes from the candidate set: it is an input
    entry that is not in tier 1 and not marked 'never'.  Ids that the
    model returns from outside that set select nothing and raise no
    error, so no id occurs both in tier 1 and in tier 2. *)
Theorem tier2_within_candidates_and_disjoint_from_tier1
    this entries userInput recentStoryEntries :
  exists r,
    outcome (getRelevantEntries this entries userInput recentStoryEntries)
    = Resolved r
    /\ (forall x, x ∈ tier2 r ->
          x = tier2Entry (entry x)
          /\ entry x ∈ remainingEntries entries (tier1 r)
          /\ entry x ∈ entries
          /\ Injection.mode (injection (entry x)) <> mode_never)
    /\ (forall i, i ∈ (fun x => id (entry x)) <$> tier1 r ->
                  i ∈ (fun x => id (entry x)) <$> tier2 r -> False).
Proof.
  destruct (getRelevantEntries_shape this entries userInput recentStoryEntries)
    as (t2 & tr & -> & Hcases).
  eexists. split; [reflexivity|]. simpl.
  assert (forall x, x ∈ t2 ->
            x = tier2Entry (entry x)
            /\ entry x ∈ remainingEntries entries (getTier1Entries entries))
    as Hin.
  { destruct Hcases as [(_ & -> & _)|(_ & tr' & Hsel & _)].
    - by intros x ?%elem_of_nil.
    - intros x Hx.
      destruct (getLLMSelectedEntries_within _ _ _ _ _ _ Hsel x Hx)
        as (e & -> & He). done. }
  split.
  - intros x Hx. destruct (Hin x Hx) as [Heq Hrem].
    pose proof Hrem as (? & ? & ?)%remainingEntries_elem. done.
  - intros i H1 (x & -> & Hx)%list_elem_of_fmap.
    destruct (Hin x Hx) as [_ (_ & Hnot & _)%remainingEntries_elem]. done.
Qed.

(** C9. The field [all] is the concatenation tier1 ++ tier2 ++ tier3
    stably sorted by descending priority: it is a permutation of the
    concatenation, its priorities descend, and for every priority the
    entries of that priority stand in the order of the concatenation
    (tier 1 before tier 2 before tier 3, insertion order within a tier);
    it is the only list that is descending and keeps that order. *)
Theorem all_is_stable_descending_sort_of_tiers
    this entries userInput recentStoryEntries :
  exists r,
    outcome (getRelevantEntries this entries userInput recentStoryEntries)
    = Resolved r
    /\ all r = Array_sort byPriorityDesc (tier1 r ++ tier2 r ++ tier3 r)
    /\ all r ≡ₚ tier1 r ++ tier2 r ++ tier3 r
    /\ StronglySorted (key_ge priority) (all r)
    /\ (forall k,
          filter (fun x => priority x = k) (all r)
          = filter (fun x => priority x = k)
              (tier1 r ++ tier2 r ++ tier3 r))
    /\ (forall l,
          StronglySorted (key_ge priority) l ->
          (forall k,
             filter (fun x => priority x = k) l
             = filter (fun x => priority x = k)
                 (tier1 r ++ tier2 r ++ tier3 r)) ->
          l = all r).
Proof.
  destruct (getRelevantEntries_shape this entries userInput recentStoryEntries)
    as (t2 & tr & -> & _).
  eexists. split; [reflexivity|]. simpl.
  change byPriorityDesc with (descending priority).
  split; [done|]. split; [apply Array_sort_perm|].
  split; [apply Array_sort_sorted|].
  split; [intros k; apply Array_sort_stable|].
  intros l Hs Hf. apply (stable_descending_unique priority); [done| |].
  - apply Array_sort_sorted.
  - intros k. by rewrite Hf, Array_sort_stable.
Qed.

End SelectionFacts.

(** ** The raw-text scan for id tags *)


Lemma idRun_split s :
  exists rest, s = idRun s ++ rest /\ startsWithIdChar rest = false.
Proof.
  induction s as [|c s (rest & Hs & Hrest)]; simpl.
  - by exists [].
  - destruct (isIdChar c) eqn:Hc.
    + exists rest. simpl. by rewrite <- Hs.
    + exists (c :: s). by simpl.
Qed.





Lemma list_ascii_of_string_inj s1 s2 :
  list_ascii_of_string s1 = list_ascii_of_string s2 -> s1 = s2.
Proof.
  intros H. rewrite <- (string_of_list_ascii_of_string s1), H.
  apply string_of_list_ascii_of_string.
Qed.


(** ** Truncation and the two parsing stages *)

Section ParsingFacts.
Context `{RT : JSRuntime}.

Lemma getRelevantEntries_selected this p entries ui rs resp :
  let remaining := remainingEntries entries (getTier1Entries entries) in
  provider this = Some p ->
  enableLLMSelection (config this) = true ->
  remaining <> [] ->
  generateResponse p (requestFor this remaining ui rs) = Resolved resp ->
  exists tr,
    getRelevantEntries this entries ui rs
    = (Resolved (assemble (getTier1Entries entries)
                   (applyMaxLimit (config this)
                      (mapIdsBack (selectedIdsOf (content resp)) remaining))),
       tr)
    /\ Call (requestFor this remaining ui rs) ∈ tr.
Proof.
  intros remaining Hp He Hne Hresp. subst remaining.
  destruct (getRelevantEntries_shape this entries ui rs)
    as (t2 & tr & Hrun & Hcases).
  destruct (getLLMSelectedEntries_resolved this p _ ui rs resp
              Hp Hne Hresp) as [Ho Hcall].
  destruct Hcases as [(Hg & _)|(_ & tr' & Hsel & Hsub)].
  - by rewrite (selectionGate_open this p _ He Hne Hp) in Hg.
  - rewrite Hsel in Ho, Hcall. simpl in Ho, Hcall.
    inversion Ho; subst t2. exists tr. split; [exact Hrun|]. by apply Hsub.
Qed.

Lemma entry_tier2Entry (l : list Entry) :
  entry <$> (tier2Entry <$> l) = l.
Proof. induction l as [|e l IH]; [done|]. rewrite !fmap_cons. by f_equal. Qed.

(** C6. With [maxTier3Entries = N > 0] and a response that selects more
    than [N] candidates, tier 2 has exactly [N] entries: the first [N]
    selected candidates in the order of the candidate list, whatever their
    priorities.  The truncation precedes the sort that builds [all], which
    therefore sorts the truncated tier. *)
Theorem truncation_keeps_first_N_in_encounter_order
    this p entries userInput recentStoryEntries resp :
  let remaining := remainingEntries entries (getTier1Entries entries) in
  let selected :=
    filter (fun e => id e ∈ selectedIdsOf (content resp)) remaining in
  let N := maxTier3Entries (config this) in
  provider this = Some p ->
  enableLLMSelection (config this) = true ->
  generateResponse p (requestFor this remaining userInput recentStoryEntries)
  = Resolved resp ->
  0 < N ->
  (Z.to_nat N < length selected)%nat ->
  exists r,
    outcome (getRelevantEntries this entries userInput recentStoryEntries)
    = Resolved r
    /\ length (tier2 r) = Z.to_nat N
    /\ entry <$> tier2 r = take (Z.to_nat N) selected
    /\ tier2 r `sublist_of` tier2Entry <$> remaining
    /\ all r = Array_sort byPriorityDesc (tier1 r ++ tier2 r ++ tier3 r).
Proof.
  intros remaining selected N Hp He Hresp HN Hlen.
  assert (remaining <> []) as Hne.
  { intros Hnil. subst selected. rewrite Hnil in Hlen. simpl in Hlen. lia. }
  destruct (getRelevantEntries_selected this p entries userInput
              recentStoryEntries resp Hp He Hne Hresp) as (tr & -> & _).
  eexists. split; [reflexivity|]. simpl. fold remaining.
  unfold applyMaxLimit. fold N. replace (0 <? N)%Z with true by lia.
  assert (mapIdsBack (selectedIdsOf (content resp)) remaining
          = tier2Entry <$> selected) as ->.
  { unfold mapIdsBack, selected. f_equal. apply list_filter_iff.
    intros e. by rewrite elem_of_list_to_set. }
  repeat split.
  - rewrite length_take, length_fmap. lia.
  - rewrite <- fmap_take. apply entry_tier2Entry.
  - etransitivity; [apply sublist_take|].
    apply fmap_sublist. apply sublist_filter.
Qed.

End ParsingFacts.

Section FallbackFacts.
Context `{RT : JSRuntime}.

Lemma selectedIdsOf_fallback content :
  jsonIds content = [] -> selectedIdsOf content = matchAllIdTags content.
Proof. intros H. unfold selectedIdsOf. by rewrite H. Qed.

Lemma jsonIds_empty_array content jsonMatch :
  firstArrayLiteral content = Some jsonMatch ->
  JSON_parse jsonMatch = Some (JArray []) ->
  jsonIds content = [].
Proof.
  intros Hm Hp. unfold jsonIds, tryJsonArray. by rewrite Hm, Hp.
Qed.

Lemma applyMaxLimit_nonempty cfg l : l <> [] -> applyMaxLimit cfg l <> [].
Proof.
  unfold applyMaxLimit. destruct (Z.ltb_spec 0 (maxTier3Entries cfg)); [|done].
  destruct l as [|x l]; [done|]. intros _.
  destruct (Z.to_nat (maxTier3Entries cfg)) eqn:Hn; [lia|done].
Qed.


(** A response that opens with the empty array: the array literal that the
    first regular expression finds is that "[]", whatever follows. *)
Lemma firstArrayLiteral_empty_array prose :
  firstArrayLiteral ("[]" +:+ prose) = Some "[]".
Proof. reflexivity. Qed.

(** C10. When the first bracketed array literal of the response parses to
    the empty JSON array, the selection does not end there: the list of
    selected ids is still empty, so the scan for "ID:" tags runs over the
    whole response, and tier 2 holds the candidates whose tags the scan
    finds; it is non-empty as soon as one candidate's id is found. *)
Theorem empty_array_answer_still_runs_id_scan
    this p entries userInput recentStoryEntries resp jsonMatch :
  let remaining := remainingEntries entries (getTier1Entries entries) in
  provider this = Some p ->
  enableLLMSelection (config this) = true ->
  generateResponse p (requestFor this remaining userInput recentStoryEntries)
  = Resolved resp ->
  firstArrayLiteral (content resp) = Some jsonMatch ->
  JSON_parse jsonMatch = Some (JArray []) ->
  selectedIdsOf (content resp) = matchAllIdTags (content resp)
  /\ exists r,
       outcome (getRelevantEntries this entries userInput recentStoryEntries)
       = Resolved r
       /\ tier2 r
          = applyMaxLimit (config this)
              (mapIdsBack (matchAllIdTags (content resp)) remaining)
       /\ (forall e, e ∈ remaining ->
             id e ∈ matchAllIdTags (content resp) -> tier2 r <> []).
Proof.
  intros remaining Hp He Hresp Hm Hparse.
  pose proof (selectedIdsOf_fallback _
                (jsonIds_empty_array _ _ Hm Hparse)) as Hids.
  split; [exact Hids|].
  destruct (decide (remaining = [])) as [Hnil|Hne].
  - destruct (getRelevantEntries_shape this entries userInput
                recentStoryEntries) as (t2 & tr & -> & Hcases).
    eexists. split; [reflexivity|]. simpl. fold remaining.
    assert (t2 = []) as ->.
    { destruct Hcases as [(_ & -> & _)|(Hg & _)]; [done|].
      apply selectionGate_true in Hg as (_ & Hg & _). done. }
    rewrite Hnil. split.
    + unfold applyMaxLimit, mapIdsBack. simpl.
      by destruct (0 <? maxTier3Entries (config this))%Z;
        [rewrite take_nil|].
    + by intros e ?%elem_of_nil.
  - destruct (getRelevantEntries_selected this p entries userInput
                recentStoryEntries resp Hp He Hne Hresp) as (tr & -> & _).
    eexists. split; [reflexivity|]. simpl. fold remaining. rewrite Hids.
    split; [done|]. intros e Hin Hid.
    apply applyMaxLimit_nonempty. intros Hnil.
    assert (tier2Entry e
            ∈ mapIdsBack (matchAllIdTags (content resp)) remaining) as Hx
      by (apply mapIdsBack_elem; eauto).
    rewrite Hnil in Hx. by apply elem_of_nil in Hx.
Qed.


End FallbackFacts.

(** ** Several tier-1 conditions on one entry *)

Lemma tier1Rule_conditions e :
  let conds := matchingConditions e in
  tier1Rule e
  = (bool_decide (conds <> []), maxWeight conds, lastReason conds)
  /\ (conds <> [] ->
      exists r, spec_keepMaximum conds = Some (maxWeight conds, r)).
Proof.
  destruct e as [i t n d [m pr] st].
  unfold tier1Rule, matchingConditions; simpl.
  destruct m, st as [[[] ?|[]|[]|[]| |]|]; vm_compute;
    (split; [reflexivity|]); intros H; try (by destruct H); eauto.
Qed.

(** C4 (amended). An entry on which several tier-1 conditions match gets
    the maximum of their weights as its priority, which is the priority
    the specification's merge yields; its [matchReason] is the reason of
    the last matching condition in evaluation order, that is, the state
    condition's reason whenever a state condition matches. *)
Theorem tier1_priority_is_max_and_reason_is_last_match entries x :
  x ∈ getTier1Entries entries ->
  let conds := matchingConditions (entry x) in
  conds <> []
  /\ priority x = maxWeight conds
  /\ (exists r, spec_keepMaximum conds = Some (priority x, r))
  /\ matchReason x = Some (lastReason conds).
Proof.
  intros (e & p & r & _ & Hrule & ->)%getTier1Entries_elem. simpl.
  destruct (tier1Rule_conditions e) as [Heq Hspec].
  rewrite Hrule in Heq. inversion Heq as [[Hb Hp Hr]].
  symmetry in Hb. apply bool_decide_eq_true in Hb.
  repeat split; [done|].
  destruct (Hspec Hb) as [r' Hr']. exists r'. congruence.
Qed.

(** ** The two configuration fields that no code path reads *)

(** [llmThreshold] and [alwaysUseLLM] are declared and documented in
    [EntryRetrievalConfig], but [getRelevantEntries] gives the same
    computation whatever their values. *)
Lemma getRelevantEntries_ignores_threshold `{RT : JSRuntime}
    this t a entries userInput recentStoryEntries :
  getRelevantEntries
    {| provider := provider this; config := setThreshold t a (config this) |}
    entries userInput recentStoryEntries
  = getRelevantEntries this entries userInput recentStoryEntries.
Proof. reflexivity. Qed.

(** ** Tier 1 does not consult the 'never' mode *)

(** Whatever its injection mode, an entry whose state condition matches is
    returned in tier 1; the mode 'never' is only honoured by
    [remainingEntries], on the way to tier 2. *)
Lemma state_match_enters_tier1_in_any_mode `{RT : JSRuntime}
    this entries userInput recentStoryEntries e :
  e ∈ entries ->
  (exists d, state e = Some (CharacterState true d))
  \/ state e = Some (LocationState true)
  \/ state e = Some (ItemState true) ->
  exists r,
    outcome (getRelevantEntries this entries userInput recentStoryEntries)
    = Resolved r
    /\ exists x, x ∈ tier1 r /\ entry x = e.
Proof.
  intros He Hst.
  destruct (getRelevantEntries_shape this entries userInput recentStoryEntries)
    as (t2 & tr & -> & _).
  eexists. split; [reflexivity|]. simpl.
  assert (exists p r, tier1Rule e = (true, p, r)) as (p & r & Hrule).
  { unfold tier1Rule.
    destruct (decide (Injection.mode (injection e) = mode_always));
      destruct Hst as [[d ->]|[->| ->]]; eauto. }
  eexists. split; [apply getTier1Entries_elem; eauto 6|done].
Qed.

(** ** Concrete runs *)

#[local] Existing Instance RefRuntime.runtime.

(** C1 (the code at the failing input). A character whose injection mode
    is 'never' and whose state says [isPresent] is put into tier 1 with
    priority 95 and rendered into the context block: [getTier1Entries]
    does not look at the 'never' mode. *)
Theorem never_present_character_is_injected :
  Injection.mode (injection ghost) = mode_never
  /\ outcome (getRelevantEntries (new_EntryRetrievalService None emptyPartial)
                [ghost] "look around" [])
     = Resolved
         {| tier1 := [ {| entry := ghost; tier := T1; priority := 95;
                          matchReason := Some "character present" |} ];
            tier2 := [];
            tier3 := [];
            all := [ {| entry := ghost; tier := T1; priority := 95;
                        matchReason := Some "character present" |} ];
            contextBlock :=
              blockHeader +:+ nl +:+ nl +:+ bullet +:+ " Characters:"
              +:+ nl +:+ "  - ghost: about ghost" |}.
Proof. split; reflexivity. Qed.

(** C5 (the code at the failing input). With [alwaysUseLLM] off and
    [llmThreshold = 5], a single candidate is still sent to the provider,
    and tier 2 holds the entry the provider selected. *)
Theorem threshold_gate_is_not_applied :
  let this :=
    new_EntryRetrievalService (Some (answering (jsonArrayOf ["x1"])))
      withThreshold in
  alwaysUseLLM (config this) = false
  /\ llmThreshold (config this) = 5
  /\ remainingEntries [lore1] (getTier1Entries [lore1]) = [lore1]
  /\ exists r tr,
       getRelevantEntries this [lore1] "look around" [] = (Resolved r, tr)
       /\ tier2 r = [tier2Entry lore1]
       /\ Call (requestFor this [lore1] "look around" []) ∈ tr.
Proof.
  intros this. repeat split.
  destruct (getRelevantEntries_selected this (answering (jsonArrayOf ["x1"]))
              [lore1] "look around" [] {| content := jsonArrayOf ["x1"] |})
    as (tr & Hrun & Hcall); try done.
  eexists _, tr. split; [exact Hrun|]. split; [reflexivity|exact Hcall].
Qed.

(** C4 (counterexample). An 'always' entry that is also a present
    character, or an item in the inventory, keeps priority 100 but carries
    the reason of the state condition, where the specification's merge
    gives "always inject". *)
Lemma always_entry_with_state_match_has_state_reason :
  getTier1Entries [hero; amulet]
  = [ {| entry := hero; tier := T1; priority := 100;
         matchReason := Some "character present" |};
      {| entry := amulet; tier := T1; priority := 100;
         matchReason := Some "in inventory" |} ]
  /\ spec_keepMaximum (matchingConditions hero) = Some (100, "always inject")
  /\ spec_keepMaximum (matchingConditions amulet)
     = Some (100, "always inject").
Proof. repeat split. Qed.


(** ** Instances of the conditional theorems *)

Lemma backend_failure_resolves_with_empty_tier2_witness :
  let this := new_EntryRetrievalService (Some failing) emptyPartial in
  generateResponse failing
    (requestFor this (remainingEntries [lore1] (getTier1Entries [lore1]))
       "look around" []) = Rejected "network error"
  /\ exists r tr,
       getRelevantEntries this [lore1] "look around" [] = (Resolved r, tr)
       /\ tier2 r = []
       /\ tier1 r = getTier1Entries [lore1]
       /\ (forall req, Call req ∈ tr -> Log "LLM selection failed:" ∈ tr).
Proof.
  intros this. split; [reflexivity|].
  exact (backend_failure_resolves_with_empty_tier2 this failing [lore1]
           "look around" [] "network error" eq_refl eq_refl).
Defined.

Lemma always_entry_in_tier1_with_priority_100_witness :
  exists r,
    outcome (getRelevantEntries
               (new_EntryRetrievalService (Some failing) emptyPartial)
               [lore1; hero] "look around" [])
    = Resolved r
    /\ exists x, x ∈ tier1 r /\ entry x = hero /\ tier x = T1
                 /\ priority x = 100.
Proof.
  apply (always_entry_in_tier1_with_priority_100
           (new_EntryRetrievalService (Some failing) emptyPartial)
           [lore1; hero] "look around" [] hero).
  - apply elem_of_cons. right. apply elem_of_cons. by left.
  - reflexivity.
Defined.

Lemma truncation_keeps_first_N_in_encounter_order_witness :
  let text := jsonArrayOf ["major"; "minor"] in
  let this := new_EntryRetrievalService (Some (answering text)) (withMax 1) in
  exists r,
    outcome (getRelevantEntries this [minor; major] "look around" [])
    = Resolved r
    /\ length (tier2 r) = 1%nat
    /\ entry <$> tier2 r = [minor].
Proof.
  intros text this.
  destruct (truncation_keeps_first_N_in_encounter_order this (answering text)
              [minor; major] "look around" [] {| content := text |})
    as (r & Ho & Hlen & Hentries & _).
  - reflexivity.
  - reflexivity.
  - reflexivity.
  - reflexivity.
  - vm_compute. lia.
  - exists r. split; [exact Ho|]. split; [exact Hlen|].
    rewrite Hentries. vm_compute. reflexivity.
Defined.


Lemma empty_array_answer_still_runs_id_scan_witness :
  let text := "[] but ID:x1 looks relevant" in
  let this := new_EntryRetrievalService (Some (answering text)) emptyPartial in
  firstArrayLiteral text = Some "[]"
  /\ JSON_parse "[]" = Some (JArray [])
  /\ selectedIdsOf text = ["x1"]
  /\ exists r,
       outcome (getRelevantEntries this [lore1; lore2] "look around" [])
       = Resolved r
       /\ tier2 r = [tier2Entry lore1]
       /\ tier2 r <> [].
Proof.
  intros text this. split; [reflexivity|]. split; [reflexivity|].
  destruct (empty_array_answer_still_runs_id_scan this (answering text)
              [lore1; lore2] "look around" [] {| content := text |} "[]")
    as (Hids & r & Ho & Ht2 & Hne); try reflexivity.
  split; [etransitivity; [exact Hids|reflexivity]|].
  exists r. split; [exact Ho|].
  split; [etransitivity; [exact Ht2|reflexivity]|].
  apply (Hne lore1); vm_compute; by left.
Defined.

Lemma tier1_priority_is_max_and_reason_is_last_match_witness :
  let x := {| entry := hero; tier := T1; priority := 100;
              matchReason := Some "character present" |} in
  matchingConditions hero
  = [(100, "always inject"); (95, "character present")]
  /\ priority x = maxWeight (matchingConditions hero)
  /\ matchReason x = Some (lastReason (matchingConditions hero)).
Proof.
  intros x. split; [reflexivity|].
  destruct (tier1_priority_is_max_and_reason_is_last_match [lore1; hero] x)
    as (_ & Hp & _ & Hr).
  - vm_compute. by left.
  - split; [exact Hp|exact Hr].
Defined.

(** * Further properties of the retrieval service *)

(** ** Strings *)

Lemma append_cons x (a b : string) : String x a +:+ b = String x (a +:+ b).
Proof. reflexivity. Qed.

Lemma append_assoc (a b c : string) : (a +:+ b) +:+ c = a +:+ (b +:+ c).
Proof.
  induction a as [|x a IH]; [done|]. rewrite !append_cons. by f_equal.
Qed.

Lemma append_empty_r (a : string) : a +:+ EmptyString = a.
Proof.
  induction a as [|x a IH]; [done|]. rewrite append_cons. by f_equal.
Qed.

Lemma occursIn_refl a : occursIn a a.
Proof. exists EmptyString, EmptyString. simpl. by rewrite append_empty_r. Qed.

Lemma occursIn_app_l n a b : occursIn n a -> occursIn n (a +:+ b).
Proof.
  intros (p & q & ->). exists p, (q +:+ b). by rewrite !append_assoc.
Qed.

Lemma occursIn_app_r n a b : occursIn n b -> occursIn n (a +:+ b).
Proof.
  intros (p & q & ->). exists (a +:+ p), q. by rewrite !append_assoc.
Qed.

Lemma concat_empty_cons (x : string) l :
  String.concat EmptyString (x :: l) = x +:+ String.concat EmptyString l.
Proof. destruct l; simpl; [by rewrite append_empty_r|done]. Qed.

Lemma occursIn_concat {A} (f : A -> string) (x : A) (l : list A) :
  x ∈ l -> occursIn (f x) (String.concat EmptyString (map f l)).
Proof.
  induction l as [|y l IH]; [by intros ?%elem_of_nil|].
  intros [->|Hin]%elem_of_cons; cbn [map]; rewrite concat_empty_cons.
  - apply occursIn_app_l, occursIn_refl.
  - by apply occursIn_app_r, IH.
Qed.

(** ** The context block *)

Section BlockFacts.
Context `{RT : JSRuntime}.

Lemma renderSection_occurs title render (group : list RetrievedEntry) x :
  x ∈ group ->
  occursIn (bullet +:+ " " +:+ title +:+ ":") (renderSection title render group)
  /\ occursIn (render (entry x)) (renderSection title render group).
Proof.
  intros Hin. unfold renderSection.
  destruct group as [|y group]; [by apply elem_of_nil in Hin|].
  cbn [length Nat.ltb Nat.leb]. split.
  - do 2 apply occursIn_app_r.
    rewrite <- !append_assoc. apply occursIn_app_l.
    rewrite !append_assoc. apply occursIn_refl.
  - do 6 apply occursIn_app_r.
    apply (occursIn_concat (fun r => render (entry r)) x _ Hin).
Qed.

Lemma buildContextBlock_empty_iff t1 t2 t3 :
  buildContextBlock t1 t2 t3 = EmptyString <-> t1 ++ t2 ++ t3 = [].
Proof.
  unfold buildContextBlock. destruct (t1 ++ t2 ++ t3) as [|x l]; simpl.
  - done.
  - split; discriminate.
Qed.

(** Every retrieved entry is rendered: its line ["\n  - name: description"]
    occurs in the block, and so does the header of the section of its
    type. *)
Theorem every_retrieved_entry_is_rendered t1 t2 t3 x :
  x ∈ t1 ++ t2 ++ t3 ->
  occursIn (renderEntry (entry x)) (buildContextBlock t1 t2 t3)
  /\ occursIn (bullet +:+ " " +:+ sectionTitle (type (entry x)) +:+ ":")
       (buildContextBlock t1 t2 t3).
Proof.
  intros Hin. unfold buildContextBlock.
  set (l := t1 ++ t2 ++ t3) in *.
  replace (length l =? 0)%nat with false
    by (destruct l; [by apply elem_of_nil in Hin|done]).
  assert (x ∈ byType (type (entry x)) l) as Hgroup
    by (by apply list_elem_of_filter).
  assert (occursIn (renderEntry (entry x)) (renderCharacter (entry x)))
    as Hchar by apply occursIn_app_l, occursIn_refl.
  destruct (type (entry x)) eqn:Ht; cbn [sectionTitle].
  - destruct (renderSection_occurs "Characters" renderCharacter _ x Hgroup)
      as [Hh Hr].
    split; do 5 apply occursIn_app_r; apply occursIn_app_l; [|done].
    destruct Hr as (p & q & Hr), Hchar as (p' & q' & Hc).
    rewrite Hr, Hc. exists (p +:+ p'), (q' +:+ q). by rewrite !append_assoc.
  - destruct (renderSection_occurs "Locations" renderEntry _ x Hgroup).
    split; do 6 apply occursIn_app_r; by apply occursIn_app_l.
  - destruct (renderSection_occurs "Items" renderEntry _ x Hgroup).
    split; do 7 apply occursIn_app_r; by apply occursIn_app_l.
  - destruct (renderSection_occurs "Factions" renderEntry _ x Hgroup).
    split; do 8 apply occursIn_app_r; by apply occursIn_app_l.
  - destruct (renderSection_occurs "Lore" renderEntry _ x Hgroup).
    split; do 9 apply occursIn_app_r; by apply occursIn_app_l.
  - destruct (renderSection_occurs "Events" renderEntry _ x Hgroup).
    by split; do 10 apply occursIn_app_r.
Qed.

End BlockFacts.

(** ** Provider calls *)

Section CallFacts.
Context `{RT : JSRuntime}.

Lemma callsOf_app t1 t2 : callsOf (t1 ++ t2) = callsOf t1 ++ callsOf t2.
Proof. unfold callsOf. apply omap_app. Qed.

Lemma getLLMSelectedEntries_calls this p avail ui rs :
  provider this = Some p -> avail <> [] ->
  callsOf (trace (getLLMSelectedEntries this avail ui rs))
  = [requestFor this avail ui rs].
Proof.
  intros Hp Hne. unfold getLLMSelectedEntries. rewrite Hp.
  destruct avail as [|e avail]; [done|]. simpl length. cbn [Nat.eqb].
  unfold await_generateResponse. fold (requestFor this (e :: avail) ui rs).
  destruct (generateResponse p (requestFor this (e :: avail) ui rs))
    as [resp|err]; async_run; [|done].
  by destruct (tryJsonArray (content resp)).
Qed.

Lemma getRelevantEntries_calls this entries ui rs :
  let remaining := remainingEntries entries (getTier1Entries entries) in
  callsOf (trace (getRelevantEntries this entries ui rs))
  = if selectionGate this remaining
    then [requestFor this remaining ui rs] else [].
Proof.
  intros remaining. unfold getRelevantEntries.
  destruct (length entries =? 0)%nat eqn:Hlen.
  { assert (entries = []) as -> by (by destruct entries).
    subst remaining. unfold selectionGate. simpl.
    by rewrite andb_false_r. }
  async_run.
  change (enableLLMSelection (config this) && _ && _)
    with (selectionGate this remaining).
  destruct (selectionGate this remaining) eqn:Hg; [|done].
  apply selectionGate_true in Hg as (_ & Hne & p & Hp).
  pose proof (getLLMSelectedEntries_calls this p remaining ui rs Hp Hne)
    as Hcalls.
  destruct (getLLMSelectedEntries_total this remaining ui rs)
    as (t2 & tr' & Hsel).
  fold remaining. rewrite Hsel in Hcalls |- *. simpl in Hcalls.
  cbn [snd]. rewrite app_nil_r.
  change (callsOf (?a :: ?b :: ?c :: ?t))
    with (callsOf ([a; b; c] ++ t)).
  by rewrite !callsOf_app, Hcalls.
Qed.

(** Without a provider, with selection disabled, or with no candidate
    left (every entry is in tier 1 or marked 'never', or the input is
    empty), the provider is not called at all and tier 2 is empty: the
    result is the rule-based tier 1 alone. *)
Theorem no_provider_call_without_backend_or_candidates
    this entries userInput recentStoryEntries :
  provider this = None
  \/ enableLLMSelection (config this) = false
  \/ remainingEntries entries (getTier1Entries entries) = [] ->
  exists r tr,
    getRelevantEntries this entries userInput recentStoryEntries
    = (Resolved r, tr)
    /\ callsOf tr = []
    /\ tier1 r = getTier1Entries entries
    /\ tier2 r = []
    /\ contextBlock r = buildContextBlock (getTier1Entries entries) [] [].
Proof.
  intros Hoff.
  assert (selectionGate this
            (remainingEntries entries (getTier1Entries entries)) = false)
    as Hg.
  { unfold selectionGate.
    destruct Hoff as [->|[->| ->]]; simpl;
      [by rewrite andb_false_r|done|by rewrite andb_false_r]. }
  pose proof (getRelevantEntries_calls this entries userInput
                recentStoryEntries) as Hcalls.
  cbv zeta in Hcalls. rewrite Hg in Hcalls.
  destruct (getRelevantEntries_shape this entries userInput recentStoryEntries)
    as (t2 & tr & Hrun & Hcases).
  rewrite Hrun in Hcalls. simpl in Hcalls.
  exists (assemble (getTier1Entries entries) t2), tr.
  split; [exact Hrun|]. split; [exact Hcalls|].
  destruct Hcases as [(_ & -> & _)|(Hg' & _)]; [done|congruence].
Qed.


(** The context block of the result is empty exactly when nothing was
    retrieved, that is, when [all] is empty; callers take the empty string
    as "no lorebook section". *)
Theorem contextBlock_empty_iff_nothing_retrieved
    this entries userInput recentStoryEntries :
  exists r,
    outcome (getRelevantEntries this entries userInput recentStoryEntries)
    = Resolved r
    /\ (contextBlock r = EmptyString <-> all r = [])
    /\ (all r = [] <-> tier1 r = [] /\ tier2 r = []).
Proof.
  destruct (getRelevantEntries_shape this entries userInput recentStoryEntries)
    as (t2 & tr & -> & _).
  eexists. split; [reflexivity|]. simpl.
  set (t1 := getTier1Entries entries).
  assert (Array_sort byPriorityDesc (t1 ++ t2 ++ []) = []
          <-> t1 ++ t2 ++ [] = []) as Hsort.
  { change byPriorityDesc with (descending priority). split.
    - intros H.
      pose proof (Array_sort_perm priority (t1 ++ t2 ++ [])) as Hperm.
      rewrite H in Hperm. symmetry in Hperm.
      by apply Permutation_nil_r in Hperm.
    - by intros ->. }
  split.
  - by rewrite buildContextBlock_empty_iff, Hsort.
  - rewrite Hsort, app_nil_r. split.
    + by intros [-> ->]%app_eq_nil.
    + by intros [-> ->].
Qed.

End CallFacts.

(** ** Which entries tier 1 holds, and with which weights *)

Lemma tier1Rule_mandatory e :
  exists p r,
    tier1Rule e = (bool_decide (mandatory e), p, r)
    /\ (mandatory e ->
        (p = 100 \/ p = 95 \/ p = 80 \/ p = 70) /\ r <> EmptyString).
Proof.
  destruct e as [i t n d [m pr] st].
  unfold tier1Rule, mandatory, stateMatches; simpl.
  destruct m, st as [[[] ?|[]|[]|[]| |]|]; vm_compute;
    eexists _, _; (split; [reflexivity|]);
    intros H; first [by destruct H as [?|[]] | by destruct H as [?|[|]]
                    | by destruct H | (split; [auto|discriminate])].
Qed.

Lemma getTier1Entries_filter_mandatory entries :
  entry <$> getTier1Entries entries = filter mandatory entries
  /\ Forall (fun x => tier x = T1) (getTier1Entries entries).
Proof.
  induction entries as [|e entries [IH1 IH2]]; [done|].
  cbn [getTier1Entries]. rewrite filter_cons.
  destruct (tier1Rule_mandatory e) as (p & r & -> & _).
  destruct (decide (mandatory e)) as [Hm|Hm].
  - rewrite bool_decide_eq_true_2 by done. rewrite fmap_cons, IH1.
    split; [done|]. by constructor.
  - by rewrite bool_decide_eq_false_2.
Qed.

(** Tier 1 is exactly the list of the entries that are 'always' or whose
    state condition matches (present character, current location, item in
    the inventory, allied or hostile faction), in the order of the input
    and once per input entry; an 'auto' entry without such a state, a
    neutral faction for one, is not in it. *)
Theorem tier1_is_the_mandatory_entries_in_input_order entries :
  entry <$> getTier1Entries entries = filter mandatory entries
  /\ Forall (fun x => tier x = T1) (getTier1Entries entries).
Proof. apply getTier1Entries_filter_mandatory. Qed.

(** Every tier-1 entry carries one of the four fixed weights 100, 95, 80,
    70 and a non-empty reason. *)
Theorem tier1_priorities_are_the_fixed_weights entries x :
  x ∈ getTier1Entries entries ->
  (priority x = 100 \/ priority x = 95 \/ priority x = 80 \/ priority x = 70)
  /\ exists reason, matchReason x = Some reason /\ reason <> EmptyString.
Proof.
  intros (e & p & r & _ & Hrule & ->)%getTier1Entries_elem. simpl.
  destruct (tier1Rule_mandatory e) as (p' & r' & Heq & Hw).
  rewrite Hrule in Heq. inversion Heq as [[Hb Hp Hr]].
  symmetry in Hb. apply bool_decide_eq_true in Hb.
  destruct (Hw Hb) as [Hweights Hreason]. eauto.
Qed.

(** ** Order, multiplicity and volume of the result *)

Section OrderFacts.
Context `{RT : JSRuntime}.

Lemma getLLMSelectedEntries_result this avail ui rs l tr :
  getLLMSelectedEntries this avail ui rs = (Resolved l, tr) ->
  l = []
  \/ exists p resp,
       provider this = Some p
       /\ generateResponse p (requestFor this avail ui rs) = Resolved resp
       /\ l = applyMaxLimit (config this)
                (mapIdsBack (selectedIdsOf (content resp)) avail).
Proof.
  intros Hsel.
  assert (outcome (getLLMSelectedEntries this avail ui rs) = Resolved l)
    as Ho by (by rewrite Hsel).
  destruct (provider this) as [p|] eqn:Hp.
  - destruct avail as [|e0 avail].
    + unfold getLLMSelectedEntries in Hsel. rewrite Hp in Hsel.
      simpl in Hsel. inversion Hsel. by left.
    + destruct (generateResponse p (requestFor this (e0 :: avail) ui rs))
        as [resp|err] eqn:Hr.
      * destruct (getLLMSelectedEntries_resolved this p (e0 :: avail) ui rs
                    resp Hp ltac:(done) Hr) as [Ho' _].
        rewrite Ho in Ho'. inversion Ho'. right. eauto.
      * rewrite (getLLMSelectedEntries_rejected this p (e0 :: avail) ui rs
                   err Hp ltac:(done) Hr) in Hsel.
        inversion Hsel. by left.
  - rewrite getLLMSelectedEntries_no_provider in Hsel by done.
    inversion Hsel. by left.
Qed.

Lemma mapIdsBack_filter ids (avail : list Entry) :
  mapIdsBack ids avail = tier2Entry <$> filter (fun e => id e ∈ ids) avail.
Proof.
  unfold mapIdsBack. f_equal. apply list_filter_iff.
  intros e. by rewrite elem_of_list_to_set.
Qed.

Lemma remainingEntries_sublist entries t1 :
  remainingEntries entries t1 `sublist_of` entries.
Proof. apply sublist_filter. Qed.

(** The second tier of a run, with the facts the loop guarantees. *)
Lemma tier2_cases this entries ui rs :
  let remaining := remainingEntries entries (getTier1Entries entries) in
  exists t2 tr,
    getRelevantEntries this entries ui rs
    = (Resolved (assemble (getTier1Entries entries) t2), tr)
    /\ (t2 = []
        \/ exists p resp,
             provider this = Some p
             /\ enableLLMSelection (config this) = true
             /\ remaining <> []
             /\ generateResponse p (requestFor this remaining ui rs)
                = Resolved resp
             /\ t2 = applyMaxLimit (config this)
                      (mapIdsBack (selectedIdsOf (content resp)) remaining)).
Proof.
  intros remaining.
  destruct (getRelevantEntries_shape this entries ui rs)
    as (t2 & tr & Hrun & Hcases).
  exists t2, tr. split; [exact Hrun|].
  destruct Hcases as [(_ & -> & _)|(Hg & tr' & Hsel & _)]; [by left|].
  apply selectionGate_true in Hg as (He & Hne & _).
  destruct (getLLMSelectedEntries_result _ _ _ _ _ _ Hsel)
    as [->|(p & resp & Hp & Hr & ->)]; [by left|].
  right. exists p, resp. done.
Qed.

Lemma tiers_follow_input_order_aux this entries ui rs t2 tr :
  getRelevantEntries this entries ui rs
  = (Resolved (assemble (getTier1Entries entries) t2), tr) ->
  entry <$> getTier1Entries entries `sublist_of` entries
  /\ entry <$> t2 `sublist_of` entries.
Proof.
  intros Hrun.
  destruct (tier2_cases this entries ui rs) as (t2' & tr' & Hrun' & Ht2).
  rewrite Hrun in Hrun'. inversion Hrun'; subst t2' tr'. split.
  - destruct (getTier1Entries_filter_mandatory entries) as [-> _].
    apply sublist_filter.
  - destruct Ht2 as [->|(p & resp & _ & _ & _ & _ & ->)];
      [apply sublist_nil_l|].
    rewrite mapIdsBack_filter.
    transitivity (entry <$> (tier2Entry <$>
                    filter (fun e => id e ∈ selectedIdsOf (content resp))
                      (remainingEntries entries (getTier1Entries entries)))).
    + apply fmap_sublist, applyMaxLimit_sublist.
    + rewrite entry_tier2Entry.
      etransitivity; [apply sublist_filter|apply remainingEntries_sublist].
Qed.


End OrderFacts.

Section VolumeFacts.
Context `{RT : JSRuntime}.

(** If the ids of the input entries are pairwise different, no id occurs
    twice in [all]: no entry is injected a second time through the other
    tier. *)
Theorem unique_ids_give_no_duplicate_in_all
    this entries userInput recentStoryEntries :
  NoDup (id <$> entries) ->
  exists r,
    outcome (getRelevantEntries this entries userInput recentStoryEntries)
    = Resolved r
    /\ NoDup ((fun x => id (entry x)) <$> all r).
Proof.
  intros Hnd.
  destruct (tier2_cases this entries userInput recentStoryEntries)
    as (t2 & tr & Hrun & Ht2).
  destruct (tiers_follow_input_order_aux this entries userInput
              recentStoryEntries t2 tr Hrun) as [Hs1 Hs2].
  rewrite Hrun. eexists. split; [reflexivity|]. simpl.
  change byPriorityDesc with (descending priority).
  rewrite Array_sort_perm, app_nil_r, fmap_app.
  assert (forall l : list RetrievedEntry,
            (fun x => id (entry x)) <$> l = id <$> (entry <$> l)) as Hcomp
    by (intros l; by rewrite <- list_fmap_compose).
  apply NoDup_app. repeat split.
  - rewrite Hcomp. eapply sublist_NoDup; [exact Hnd|by apply fmap_sublist].
  - intros i Hi1 (x & -> & Hx)%list_elem_of_fmap.
    destruct Ht2 as [->|(p & resp & _ & _ & _ & _ & ->)];
      [by apply elem_of_nil in Hx|].
    eapply elem_of_sublist in Hx; [|apply applyMaxLimit_sublist].
    apply mapIdsBack_elem in Hx as (e & -> & He & _).
    apply remainingEntries_elem in He as (_ & Hnot & _). done.
  - rewrite Hcomp. eapply sublist_NoDup; [exact Hnd|by apply fmap_sublist].
Qed.

(** With a positive [maxTier3Entries], tier 2 never holds more entries
    than that, whatever the provider answers. *)
Theorem tier2_never_exceeds_the_limit
    this entries userInput recentStoryEntries :
  0 < maxTier3Entries (config this) ->
  exists r,
    outcome (getRelevantEntries this entries userInput recentStoryEntries)
    = Resolved r
    /\ (length (tier2 r) <= Z.to_nat (maxTier3Entries (config this)))%nat.
Proof.
  intros Hmax.
  destruct (tier2_cases this entries userInput recentStoryEntries)
    as (t2 & tr & -> & Ht2).
  eexists. split; [reflexivity|]. simpl.
  destruct Ht2 as [->|(p & resp & _ & _ & _ & _ & ->)]; [simpl; lia|].
  unfold applyMaxLimit.
  replace (0 <? maxTier3Entries (config this))%Z with true by lia.
  rewrite length_take. lia.
Qed.

(** The exported function [getRelevantEntries] runs the default
    configuration, which sets no limit: with a provider that answers, tier
    2 holds every candidate whose id the answer selects; without a
    provider, tier 2 is empty. *)
Theorem quick_retrieval_selects_without_limit
    entries userInput recentStoryEntries p resp :
  let this := new_EntryRetrievalService (Some p) emptyPartial in
  let remaining := remainingEntries entries (getTier1Entries entries) in
  generateResponse p (requestFor this remaining userInput recentStoryEntries)
  = Resolved resp ->
  (exists r,
     outcome (getRelevantEntries_quick entries userInput recentStoryEntries
                (Some p)) = Resolved r
     /\ entry <$> tier2 r
        = filter (fun e => id e ∈ selectedIdsOf (content resp)) remaining)
  /\ exists r0,
       outcome (getRelevantEntries_quick entries userInput recentStoryEntries
                  None) = Resolved r0
       /\ tier2 r0 = [] /\ tier1 r0 = getTier1Entries entries.
Proof.
  intros this remaining Hresp. split.
  - unfold getRelevantEntries_quick. fold this.
    destruct (decide (remaining = [])) as [Hnil|Hne].
    + destruct (tier2_cases this entries userInput recentStoryEntries)
        as (t2 & tr & -> & Ht2).
      eexists. split; [reflexivity|]. simpl. fold remaining.
      rewrite Hnil, filter_nil.
      destruct Ht2 as [->|(? & ? & _ & _ & Hne & _)]; [done|].
      by fold remaining in Hne.
    + destruct (getRelevantEntries_selected this p entries userInput
                  recentStoryEntries resp eq_refl eq_refl Hne Hresp)
        as (tr & -> & _).
      eexists. split; [reflexivity|]. simpl. fold remaining.
      rewrite mapIdsBack_filter. unfold applyMaxLimit. simpl.
      apply entry_tier2Entry.
  - unfold getRelevantEntries_quick.
    destruct (tier2_cases (new_EntryRetrievalService None emptyPartial)
                entries userInput recentStoryEntries)
      as (t2 & tr & -> & Ht2).
    eexists. split; [reflexivity|]. simpl.
    by destruct Ht2 as [->|(? & ? & ? & _)].
Qed.

(** A non-empty JSON array in the answer is final: tier 2 then holds only
    entries whose id is an element of that array, and "ID:" tags elsewhere
    in the answer select nothing. *)
Theorem nonempty_json_array_overrides_id_tags
    this p entries userInput recentStoryEntries resp :
  let remaining := remainingEntries entries (getTier1Entries entries) in
  provider this = Some p ->
  enableLLMSelection (config this) = true ->
  generateResponse p (requestFor this remaining userInput recentStoryEntries)
  = Resolved resp ->
  jsonIds (content resp) <> [] ->
  exists r,
    outcome (getRelevantEntries this entries userInput recentStoryEntries)
    = Resolved r
    /\ (forall x, x ∈ tier2 r -> id (entry x) ∈ jsonIds (content resp))
    /\ (forall e, id e ∈ matchAllIdTags (content resp) ->
                  id e ∉ jsonIds (content resp) ->
                  tier2Entry e ∉ tier2 r).
Proof.
  intros remaining Hp He Hresp Hjson.
  assert (selectedIdsOf (content resp) = jsonIds (content resp)) as Hids.
  { unfold selectedIdsOf. by destruct (jsonIds (content resp)). }
  destruct (tier2_cases this entries userInput recentStoryEntries)
    as (t2 & tr & -> & Ht2).
  eexists. split; [reflexivity|]. simpl.
  assert (forall x, x ∈ t2 -> id (entry x) ∈ jsonIds (content resp)) as Hin.
  { intros x Hx.
    destruct Ht2 as [->|(p' & resp' & Hp' & _ & _ & Hr' & ->)];
      [by apply elem_of_nil in Hx|].
    rewrite Hp in Hp'. inversion Hp'; subst p'.
    fold remaining in Hr'. rewrite Hresp in Hr'. inversion Hr'; subst resp'.
    eapply elem_of_sublist in Hx; [|apply applyMaxLimit_sublist].
    apply mapIdsBack_elem in Hx as (e & -> & _ & Hid). by rewrite <- Hids. }
  split; [exact Hin|].
  intros e _ Hnot Hx. apply Hnot. exact (Hin _ Hx).
Qed.

End VolumeFacts.

(** ** What the two regular expressions of the parser match *)

Lemma string_of_list_ascii_app a b :
  string_of_list_ascii (a ++ b)
  = string_of_list_ascii a +:+ string_of_list_ascii b.
Proof.
  induction a as [|x a IH]; [done|].
  cbn [app string_of_list_ascii]. rewrite append_cons. by f_equal.
Qed.

Lemma list_ascii_of_string_app a b :
  list_ascii_of_string (a +:+ b)
  = list_ascii_of_string a ++ list_ascii_of_string b.
Proof.
  induction a as [|x a IH]; [done|].
  rewrite append_cons. cbn [list_ascii_of_string app]. by f_equal.
Qed.

Lemma lazyUntilClose_None s :
  lazyUntilClose s = None <-> "]"%char ∉ s.
Proof.
  induction s as [|c s IH]; simpl.
  - split; [intros _ ?%elem_of_nil; done|done].
  - destruct (Ascii.eqb_spec c "]") as [->|Hc].
    + split; [done|]. intros H. destruct H. by left.
    + rewrite not_elem_of_cons. destruct (lazyUntilClose s); simpl.
      * split; [done|]. intros [_ H]. by apply IH in H.
      * split; [|done]. intros _. split; [congruence|]. by apply IH.
Qed.

Lemma lazyUntilClose_Some s m :
  lazyUntilClose s = Some m <->
  exists body post,
    s = body ++ "]"%char :: post /\ m = body ++ ["]"%char]
    /\ "]"%char ∉ body.
Proof.
  revert m. induction s as [|c s IH]; intros m; simpl.
  - split; [done|]. intros (body & post & H & _). by destruct body.
  - destruct (Ascii.eqb_spec c "]") as [->|Hc].
    + split.
      * intros [= <-]. exists [], s. repeat split. by intros ?%elem_of_nil.
      * intros (body & post & Hs & -> & Hnot).
        destruct body as [|b body]; [done|].
        inversion Hs; subst. destruct Hnot. by left.
    + destruct (lazyUntilClose s) as [m'|] eqn:Hl; simpl.
      * destruct (proj1 (IH m') eq_refl) as (body & post & -> & -> & Hnot).
        split.
        -- intros [= <-]. exists (c :: body), post. repeat split.
           rewrite not_elem_of_cons. split; [congruence|done].
        -- intros (body' & post' & Hs & -> & Hnot').
           destruct body' as [|b body']; [inversion Hs; congruence|].
           inversion Hs as [[Hb Hrest]]. subst b.
           apply not_elem_of_cons in Hnot' as [_ Hnot'].
           assert (Some (body ++ ["]"%char]) = Some (body' ++ ["]"%char]))
             as Heq by (apply IH; eauto).
           inversion Heq as [Heq']. cbn [app]. by rewrite Heq'.
      * split; [done|]. intros (body' & post' & Hs & -> & Hnot').
        destruct body' as [|b body']; [inversion Hs; congruence|].
        inversion Hs as [[Hb Hrest]]. subst b.
        apply lazyUntilClose_None in Hl. destruct Hl.
        rewrite Hrest. rewrite elem_of_app, elem_of_cons. auto.
Qed.

Lemma matchArrayLiteral_Some s m :
  matchArrayLiteral s = Some m <->
  exists pre body post,
    s = pre ++ "["%char :: body ++ "]"%char :: post
    /\ m = "["%char :: body ++ ["]"%char]
    /\ ("["%char ∉ pre) /\ ("]"%char ∉ body).
Proof.
  revert m. induction s as [|c s IH]; intros m; simpl.
  - split; [done|]. intros (pre & body & post & H & _). by destruct pre.
  - destruct (Ascii.eqb_spec c "[") as [->|Hc].
    + destruct (lazyUntilClose s) as [m'|] eqn:Hl.
      * destruct (proj1 (lazyUntilClose_Some s m') Hl)
          as (body & post & -> & -> & Hnot).
        split.
        -- intros [= <-]. exists [], body, post. repeat split; [|done].
           by intros ?%elem_of_nil.
        -- intros (pre & body' & post' & Hs & -> & Hpre & Hbody).
           destruct pre as [|x pre].
           ++ inversion Hs as [Hrest]. f_equal. f_equal.
              assert (Some (body' ++ ["]"%char]) = Some (body ++ ["]"%char]))
                as [= ->]; [|done].
              rewrite <- Hl, Hrest. symmetry.
              apply lazyUntilClose_Some. eauto.
           ++ inversion Hs; subst. destruct Hpre. by left.
      * apply lazyUntilClose_None in Hl. split.
        -- intros (pre & body & post & -> & -> & Hpre & Hbody)%IH.
           destruct Hl. rewrite elem_of_app, elem_of_cons, elem_of_app,
             elem_of_cons. auto.
        -- intros (pre & body & post & Hs & -> & Hpre & Hbody).
           destruct Hl. destruct pre as [|x pre]; inversion Hs; subst;
             rewrite ?elem_of_app, ?elem_of_cons, ?elem_of_app, ?elem_of_cons;
             auto 6.
    + rewrite IH. split.
      * intros (pre & body & post & -> & -> & Hpre & Hbody).
        exists (c :: pre), body, post. repeat split; [|done].
        rewrite not_elem_of_cons. split; [congruence|done].
      * intros (pre & body & post & Hs & -> & Hpre & Hbody).
        destruct pre as [|x pre]; [inversion Hs; congruence|].
        inversion Hs; subst. apply not_elem_of_cons in Hpre as [_ Hpre].
        eauto 8.
Qed.

(** The array literal that the parser hands to [JSON.parse] runs from the
    first "[" of the response to the next "]" after it: the lazy pattern
    does not look for the matching bracket, so a nested array, or a string
    element that contains "]", is cut at the first "]". *)
Theorem first_array_literal_ends_at_the_first_close content m :
  firstArrayLiteral content = Some m <->
  exists pre body post : string,
    content = pre +:+ "[" +:+ body +:+ "]" +:+ post
    /\ m = "[" +:+ body +:+ "]"
    /\ ("["%char ∉ list_ascii_of_string pre)
    /\ ("]"%char ∉ list_ascii_of_string body).
Proof.
  unfold firstArrayLiteral. split.
  - destruct (matchArrayLiteral (list_ascii_of_string content)) as [m'|] eqn:Hm;
      [|done].
    intros [= <-].
    apply matchArrayLiteral_Some in Hm
      as (pre & body & post & Hs & -> & Hpre & Hbody).
    exists (string_of_list_ascii pre), (string_of_list_ascii body),
      (string_of_list_ascii post).
    rewrite !list_ascii_of_string_of_list_ascii. repeat split; [| |done..].
    + rewrite <- (string_of_list_ascii_of_string content), Hs.
      rewrite string_of_list_ascii_app. f_equal.
      change ("["%char :: body ++ "]"%char :: post)
        with (["["%char] ++ body ++ ["]"%char] ++ post).
      by rewrite !string_of_list_ascii_app.
    + change ("["%char :: body ++ ["]"%char])
        with (["["%char] ++ body ++ ["]"%char]).
      by rewrite !string_of_list_ascii_app.
  - intros (pre & body & post & -> & -> & Hpre & Hbody).
    rewrite (proj2 (matchArrayLiteral_Some _
                      ("["%char :: list_ascii_of_string body ++ ["]"%char]))).
    + simpl. f_equal.
      change ("["%char :: list_ascii_of_string body ++ ["]"%char])
        with (["["%char] ++ list_ascii_of_string body ++ ["]"%char]).
      rewrite !string_of_list_ascii_app.
      by rewrite string_of_list_ascii_of_string.
    + exists (list_ascii_of_string pre), (list_ascii_of_string body),
        (list_ascii_of_string post).
      repeat split; [|done..]. by rewrite !list_ascii_of_string_app.
Qed.

Lemma idRun_all_id s : forallb isIdChar (idRun s) = true.
Proof.
  induction s as [|c s IH]; simpl; [done|].
  destruct (isIdChar c) eqn:Hc; simpl; [by rewrite Hc|done].
Qed.

Lemma matchIdTagAt_Some s cap :
  matchIdTagAt s = Some cap ->
  exists rest, s = idTag ++ rest /\ cap = idRun rest /\ cap <> [].
Proof.
  unfold matchIdTagAt. intros Hm.
  destruct s as [|c1 s]; [done|].
  destruct (ascii_dec c1 "I") as [->|H1];
    [|by destruct c1 as [[] [] [] [] [] [] [] []]].
  destruct s as [|c2 s]; [done|].
  destruct (ascii_dec c2 "D") as [->|H2];
    [|by destruct c2 as [[] [] [] [] [] [] [] []]].
  destruct s as [|c3 rest]; [done|].
  destruct (ascii_dec c3 ":") as [->|H3];
    [|by destruct c3 as [[] [] [] [] [] [] [] []]].
  cbv beta iota in Hm. exists rest. split; [done|].
  destruct (idRun rest) as [|x cap'] eqn:Hrun; [done|].
  inversion Hm. by split.
Qed.

Lemma matchAllIdTags_from_sound k s i :
  i ∈ matchAllIdTags_from k s ->
  exists pre post,
    s = pre ++ idTag ++ i ++ post
    /\ i <> [] /\ forallb isIdChar i = true
    /\ startsWithIdChar post = false.
Proof.
  revert k. induction s as [|c s IH]; intros k; [by intros ?%elem_of_nil|].
  assert (forall k', i ∈ matchAllIdTags_from k' s ->
            exists pre post,
              c :: s = pre ++ idTag ++ i ++ post
              /\ i <> [] /\ forallb isIdChar i = true
              /\ startsWithIdChar post = false) as Hstep.
  { intros k' (pre & post & -> & Hrest)%IH. by exists (c :: pre), post. }
  cbn [matchAllIdTags_from]. destruct k as [|k]; [|apply Hstep].
  destruct (matchIdTagAt (c :: s)) as [cap|] eqn:Hm; [|apply Hstep].
  intros [->|Hin]%elem_of_cons; [|by eapply Hstep].
  apply matchIdTagAt_Some in Hm as (rest & Hs & Hcap & Hne).
  destruct (idRun_split rest) as (post & Hrest & Hpost).
  exists [], post. rewrite Hs. cbn [app]. rewrite <- Hcap in Hrest.
  repeat split; [by rewrite <- Hrest|done| |done].
  rewrite Hcap. apply idRun_all_id.
Qed.

(** Every id that the fallback scan returns is a non-empty run of
    characters of [[a-zA-Z0-9_-]] that stands in the response right after
    "ID:" and ends where the run of such characters ends; the scan makes up
    no id that is not written in the response. *)
Theorem scanned_ids_are_written_in_the_response content i :
  i ∈ matchAllIdTags content ->
  exists pre post : string,
    content = pre +:+ "ID:" +:+ i +:+ post
    /\ i <> EmptyString
    /\ forallb isIdChar (list_ascii_of_string i) = true
    /\ startsWithIdChar (list_ascii_of_string post) = false.
Proof.
  unfold matchAllIdTags.
  intros (cap & -> & Hin)%list_elem_of_fmap.
  apply matchAllIdTags_from_sound in Hin
    as (pre & post & Hs & Hne & Hid & Hpost).
  exists (string_of_list_ascii pre), (string_of_list_ascii post).
  rewrite !list_ascii_of_string_of_list_ascii. repeat split; [| |done..].
  - rewrite <- (string_of_list_ascii_of_string content), Hs.
    by rewrite !string_of_list_ascii_app.
  - intros Hempty. apply Hne.
    rewrite <- (list_ascii_of_string_of_list_ascii cap). by rewrite Hempty.
Qed.

(** ** escapeRegex *)

Lemma unescape_escapeRegex_chars s :
  unescape_chars (escapeRegex_chars s) = s.
Proof.
  induction s as [|c s IH]; [done|]. cbn [escapeRegex_chars].
  destruct (isRegexSpecial c) eqn:Hc.
  - cbn [unescape_chars]. rewrite Ascii.eqb_refl. by rewrite IH.
  - cbn [unescape_chars].
    destruct (Ascii.eqb_spec c backslash) as [->|Hne]; [done|].
    by rewrite IH.
Qed.

Lemma escapeRegex_chars_length s :
  length (escapeRegex_chars s)
  = (length s + length (filter (fun c => isRegexSpecial c = true) s))%nat.
Proof.
  induction s as [|c s IH]; [done|]. cbn [escapeRegex_chars].
  rewrite filter_cons. destruct (isRegexSpecial c) eqn:Hc.
  - rewrite decide_True by done. simpl. rewrite IH. lia.
  - rewrite decide_False by done. simpl. by rewrite IH.
Qed.

Lemma escapeRegex_chars_id s :
  escapeRegex_chars s = s <-> forallb (fun c => negb (isRegexSpecial c)) s = true.
Proof.
  split.
  - intros Heq.
    pose proof (escapeRegex_chars_length s) as Hlen. rewrite Heq in Hlen.
    assert (filter (fun c => isRegexSpecial c = true) s = []) as Hnone
      by (apply length_zero_iff_nil; lia).
    clear Heq Hlen. induction s as [|c s IH]; [done|].
    rewrite filter_cons in Hnone. simpl.
    destruct (isRegexSpecial c) eqn:Hc.
    + by rewrite decide_True in Hnone.
    + rewrite decide_False in Hnone by done. by apply IH.
  - induction s as [|c s IH]; [done|]. simpl.
    intros [Hc Hs]%andb_true_iff. apply negb_true_iff in Hc.
    rewrite Hc. f_equal. by apply IH.
Qed.

(** [escapeRegex] puts one backslash in front of each of the fourteen
    characters [. * + ? ^ $ { } ( ) | [ ] \] and changes nothing else:
    reading the result as a regular expression reads, a backslash standing
    for the character after it, gives back the text; the result is as much
    longer as the text has such characters, and a text without them is
    returned as it is. *)
Theorem escapeRegex_protects_exactly_the_special_characters str :
  string_of_list_ascii
    (unescape_chars (list_ascii_of_string (escapeRegex str))) = str
  /\ String.length (escapeRegex str)
     = (String.length str
        + length (filter (fun c => isRegexSpecial c = true)
                    (list_ascii_of_string str)))%nat
  /\ (escapeRegex str = str <->
      forallb (fun c => negb (isRegexSpecial c)) (list_ascii_of_string str)
      = true).
Proof.
  unfold escapeRegex.
  assert (forall s, String.length s = length (list_ascii_of_string s))
    as Hlen by (induction s as [|c s IH]; simpl; [done|by f_equal]).
  rewrite list_ascii_of_string_of_list_ascii, unescape_escapeRegex_chars.
  split; [apply string_of_list_ascii_of_string|]. split.
  - by rewrite !Hlen, list_ascii_of_string_of_list_ascii,
      escapeRegex_chars_length.
  - rewrite <- escapeRegex_chars_id. split.
    + intros Heq.
      rewrite <- (list_ascii_of_string_of_list_ascii
                    (escapeRegex_chars (list_ascii_of_string str))).
      by rewrite Heq.
    + intros ->. apply string_of_list_ascii_of_string.
Qed.

(** ** Instances of the further conditional theorems *)

Lemma no_provider_call_without_backend_or_candidates_witness :
  exists r tr,
    getRelevantEntries (new_EntryRetrievalService None emptyPartial)
      [hero; lore1] "look around" [] = (Resolved r, tr)
    /\ callsOf tr = []
    /\ tier1 r = getTier1Entries [hero; lore1]
    /\ tier2 r = []
    /\ contextBlock r = buildContextBlock (getTier1Entries [hero; lore1]) [] [].
Proof.
  apply (no_provider_call_without_backend_or_candidates
           (new_EntryRetrievalService None emptyPartial)
           [hero; lore1] "look around" []).
  left. reflexivity.
Defined.


Lemma every_retrieved_entry_is_rendered_witness :
  let x := {| entry := hero; tier := T1; priority := 100;
              matchReason := Some "character present" |} in
  occursIn (renderEntry hero) (buildContextBlock [x] [tier2Entry lore1] [])
  /\ occursIn (bullet +:+ " " +:+ "Characters" +:+ ":")
       (buildContextBlock [x] [tier2Entry lore1] []).
Proof.
  intros x.
  apply (every_retrieved_entry_is_rendered [x] [tier2Entry lore1] [] x).
  apply elem_of_cons. by left.
Defined.

Lemma tier1_priorities_are_the_fixed_weights_witness :
  let x := {| entry := amulet; tier := T1; priority := 100;
              matchReason := Some "in inventory" |} in
  (priority x = 100 \/ priority x = 95 \/ priority x = 80 \/ priority x = 70)
  /\ exists reason, matchReason x = Some reason /\ reason <> EmptyString.
Proof.
  intros x.
  apply (tier1_priorities_are_the_fixed_weights [lore1; amulet] x).
  vm_compute. by left.
Defined.

Lemma unique_ids_give_no_duplicate_in_all_witness :
  exists r,
    outcome (getRelevantEntries
               (new_EntryRetrievalService
                  (Some (answering (jsonArrayOf ["x1"; "hero"])))
                  emptyPartial)
               [hero; lore1; lore2] "look around" [])
    = Resolved r
    /\ NoDup ((fun x => id (entry x)) <$> all r).
Proof.
  apply (unique_ids_give_no_duplicate_in_all
           (new_EntryRetrievalService
              (Some (answering (jsonArrayOf ["x1"; "hero"]))) emptyPartial)
           [hero; lore1; lore2] "look around" []).
  apply (bool_decide_eq_true _). by vm_compute.
Defined.

Lemma tier2_never_exceeds_the_limit_witness :
  let this :=
    new_EntryRetrievalService
      (Some (answering (jsonArrayOf ["x1"; "x2"; "x3"]))) (withMax 2) in
  exists r,
    outcome (getRelevantEntries this [lore1; lore2; lore3] "look around" [])
    = Resolved r
    /\ (length (tier2 r) <= 2)%nat.
Proof.
  intros this.
  apply (tier2_never_exceeds_the_limit this [lore1; lore2; lore3]
           "look around" []).
  reflexivity.
Defined.

Lemma quick_retrieval_selects_without_limit_witness :
  let text := jsonArrayOf ["x3"; "x1"; "x2"] in
  exists r,
    outcome (getRelevantEntries_quick [lore1; lore2; lore3] "look around" []
               (Some (answering text))) = Resolved r
    /\ entry <$> tier2 r = [lore1; lore2; lore3].
Proof.
  intros text.
  destruct (quick_retrieval_selects_without_limit [lore1; lore2; lore3]
              "look around" [] (answering text) {| content := text |})
    as [(r & Ho & Ht2) _]; [reflexivity|].
  exists r. split; [exact Ho|]. etransitivity; [exact Ht2|].
  vm_compute. reflexivity.
Defined.

Lemma nonempty_json_array_overrides_id_tags_witness :
  let text := jsonArrayOf ["x1"] +:+ " and maybe ID:x2 as well" in
  let this := new_EntryRetrievalService (Some (answering text)) emptyPartial in
  jsonIds text = ["x1"]
  /\ matchAllIdTags text = ["x2"]
  /\ exists r,
       outcome (getRelevantEntries this [lore1; lore2] "look around" [])
       = Resolved r
       /\ (forall x, x ∈ tier2 r -> id (entry x) ∈ jsonIds text)
       /\ tier2Entry lore2 ∉ tier2 r.
Proof.
  intros text this. split; [reflexivity|]. split; [reflexivity|].
  destruct (nonempty_json_array_overrides_id_tags this (answering text)
              [lore1; lore2] "look around" [] {| content := text |})
    as (r & Ho & Hin & Hout); try reflexivity.
  { vm_compute. discriminate. }
  exists r. split; [exact Ho|]. split; [exact Hin|].
  apply (Hout lore2).
  - vm_compute. by left.
  - vm_compute. intros [H|[]%elem_of_nil]%elem_of_cons. discriminate.
Defined.

Lemma scanned_ids_are_written_in_the_response_witness :
  exists pre post : string,
    "take ID:x1, please" = pre +:+ "ID:" +:+ "x1" +:+ post
    /\ "x1" <> EmptyString
    /\ forallb isIdChar (list_ascii_of_string "x1") = true
    /\ startsWithIdChar (list_ascii_of_string post) = false.
Proof.
  apply (scanned_ids_are_written_in_the_response "take ID:x1, please" "x1").
  vm_compute. by left.
Defined.

(** * Properties of the character card importer *)

(** ** Replacing a macro *)

Lemma matchesIgnoreCase_length p s :
  matchesIgnoreCase p s = true -> (length p <= length s)%nat.
Proof.
  revert s. induction p as [|x p IH]; intros s; simpl; [lia|].
  destruct s as [|c s]; [done|].
  intros [_ H]%andb_true_iff. apply IH in H. simpl. lia.
Qed.

Lemma matchesIgnoreCase_lower p s :
  matchesIgnoreCase p s = true -> map lowerAscii (take (length p) s) = p.
Proof.
  revert s. induction p as [|x p IH]; intros s; simpl; [done|].
  destruct s as [|c s]; [done|].
  intros [Hc H]%andb_true_iff. apply Ascii.eqb_eq in Hc.
  simpl. by rewrite Hc, IH.
Qed.

Lemma matchesIgnoreCase_ext p s s' :
  map lowerAscii s = map lowerAscii s' ->
  matchesIgnoreCase p s = matchesIgnoreCase p s'.
Proof.
  revert s s'. induction p as [|x p IH]; intros s s'; simpl; [done|].
  destruct s as [|c s], s' as [|c' s']; simpl; try done.
  intros [= Hc Hs]. by rewrite Hc, (IH s s').
Qed.

Lemma matchesIgnoreCase_self p x :
  map lowerAscii p = p -> matchesIgnoreCase p (p ++ x) = true.
Proof.
  induction p as [|c p IH]; simpl; [done|].
  intros [= Hc Hp]. rewrite Hc, Ascii.eqb_refl. simpl. by apply IH.
Qed.

Lemma getSubstitution_plain t m b a :
  "$"%char ∉ t -> getSubstitution t m b a = t.
Proof.
  induction t as [|c t IH]; [done|].
  intros [Hc Ht]%not_elem_of_cons. cbn [getSubstitution].
  destruct (Ascii.eqb_spec c "$") as [->|_]; [done|]. by rewrite IH.
Qed.

Section PlainTemplate.
Context (p t : list ascii) (n : nat).
Hypothesis Hp : length p = S n.
Hypothesis Ht : "$"%char ∉ t.

Lemma replaceAll_from_seen k seen seen' s :
  replaceAll_from p t k seen s = replaceAll_from p t k seen' s.
Proof.
  revert k seen seen'. induction s as [|c s IH]; intros k seen seen'; [done|].
  cbn [replaceAll_from]. destruct k as [|k]; [|apply IH].
  rewrite !getSubstitution_plain by done.
  destruct (matchesIgnoreCase p (c :: s)); f_equal; apply IH.
Qed.

Lemma replaceAll_from_skip k seen s :
  replaceAll_from p t k seen s = replaceAll_from p t 0 [] (drop k s).
Proof.
  revert k seen. induction s as [|c s IH]; intros k seen.
  - by destruct k.
  - destruct k as [|k]; [apply replaceAll_from_seen|].
    cbn [replaceAll_from drop]. apply IH.
Qed.

(** The unfolding of the scan for a replacement text without "$". *)
Lemma replaceAll_from_step c s :
  replaceAll_from p t 0 [] (c :: s)
  = if matchesIgnoreCase p (c :: s)
    then t ++ replaceAll_from p t 0 [] (drop (length p) (c :: s))
    else c :: replaceAll_from p t 0 [] s.
Proof.
  cbn [replaceAll_from]. rewrite getSubstitution_plain by done.
  destruct (matchesIgnoreCase p (c :: s)).
  - f_equal. rewrite replaceAll_from_skip. rewrite Hp. simpl.
    by rewrite Nat.sub_0_r.
  - f_equal. apply replaceAll_from_seen.
Qed.

(** A text in which the first character of the pattern does not occur is
    copied. *)
Lemma replaceAll_from_no_start s x p' :
  p = x :: p' ->
  Forall (fun c => lowerAscii c <> x) s ->
  replaceAll_from p t 0 [] s = s.
Proof.
  intros Hx. induction 1 as [|c s Hc Hs IH]; [done|].
  rewrite replaceAll_from_step.
  replace (matchesIgnoreCase p (c :: s)) with false; [by rewrite IH|].
  rewrite Hx. simpl. by destruct (Ascii.eqb_spec (lowerAscii c) x).
Qed.

(** A match at the front is replaced by the text, and the scan goes on
    behind it. *)
Lemma replaceAll_from_match m s :
  map lowerAscii m = p ->
  replaceAll_from p t 0 [] (m ++ s) = t ++ replaceAll_from p t 0 [] s.
Proof.
  intros Hm.
  assert (length m = S n) as Hlen
    by (by rewrite <- Hp, <- Hm, length_map).
  destruct m as [|c m]; [done|].
  change ((c :: m) ++ s) with (c :: (m ++ s)).
  rewrite replaceAll_from_step.
  replace (matchesIgnoreCase p (c :: m ++ s)) with true.
  - f_equal. f_equal. rewrite Hp, <- Hlen.
    change (c :: m ++ s) with ((c :: m) ++ s). by rewrite drop_app_length.
  - symmetry. rewrite <- Hm.
    rewrite (matchesIgnoreCase_ext _ ((c :: m) ++ s)
               (map lowerAscii (c :: m) ++ s)).
    + apply matchesIgnoreCase_self. rewrite map_map.
      apply map_ext_in. intros a _.
      unfold lowerAscii at 1.
      destruct (a) as [[] [] [] [] [] [] [] []]; reflexivity.
    + rewrite !map_app, map_map. f_equal.
      apply map_ext_in. intros a _. unfold lowerAscii at 2.
      destruct (a) as [[] [] [] [] [] [] [] []]; reflexivity.
Qed.

End PlainTemplate.

Lemma lowerAscii_open_brace c : lowerAscii c = "{"%char -> c = "{"%char.
Proof.
  destruct c as [[] [] [] [] [] [] [] []]; vm_compute; intros H;
    first [reflexivity | discriminate H].
Qed.

Lemma shorter_list_ind {A} (P : list A -> Prop) :
  (forall s, (forall s', (length s' < length s)%nat -> P s') -> P s) ->
  forall s, P s.
Proof.
  intros Hstep s. remember (length s) as k eqn:Hk. revert s Hk.
  induction k as [k IH] using lt_wf_ind. intros s ->.
  apply Hstep. intros s' Hlt. by apply (IH (length s')).
Qed.

(** ** normalizeUserMacro *)

Lemma userMacro_plain : "$"%char ∉ userMacro.
Proof. apply (bool_decide_eq_false _). by vm_compute. Qed.

Lemma normalize_step c s :
  replaceAll_from userMacro userMacro 0 [] (c :: s)
  = if matchesIgnoreCase userMacro (c :: s)
    then userMacro
         ++ replaceAll_from userMacro userMacro 0 [] (drop 8 (c :: s))
    else c :: replaceAll_from userMacro userMacro 0 [] s.
Proof. exact (replaceAll_from_step userMacro userMacro 7 eq_refl userMacro_plain c s). Qed.

Lemma normalize_chars_length s :
  length (replaceAll_from userMacro userMacro 0 [] s) = length s.
Proof.
  induction s as [s IH] using shorter_list_ind.
  destruct s as [|c s]; [done|]. rewrite normalize_step.
  destruct (matchesIgnoreCase userMacro (c :: s)) eqn:Hm.
  - apply matchesIgnoreCase_length in Hm.
    change (length userMacro) with 8%nat in Hm.
    rewrite length_app, IH by (rewrite length_drop; simpl in *; lia).
    rewrite length_drop. change (length userMacro) with 8%nat. lia.
  - simpl. f_equal. apply IH. simpl. lia.
Qed.

Lemma normalize_chars_lower s :
  map lowerAscii (replaceAll_from userMacro userMacro 0 [] s)
  = map lowerAscii s.
Proof.
  induction s as [s IH] using shorter_list_ind.
  destruct s as [|c s]; [done|]. rewrite normalize_step.
  destruct (matchesIgnoreCase userMacro (c :: s)) eqn:Hm.
  - pose proof (matchesIgnoreCase_length _ _ Hm) as Hlen.
    change (length userMacro) with 8%nat in Hlen.
    apply matchesIgnoreCase_lower in Hm.
    change (length userMacro) with 8%nat in Hm.
    rewrite map_app, IH by (rewrite length_drop; simpl in *; lia).
    rewrite <- (take_drop 8 (c :: s)) at 2. rewrite map_app.
    f_equal. by rewrite Hm.
  - simpl. f_equal. apply IH. simpl. lia.
Qed.

Lemma normalize_chars_idempotent s :
  replaceAll_from userMacro userMacro 0 []
    (replaceAll_from userMacro userMacro 0 [] s)
  = replaceAll_from userMacro userMacro 0 [] s.
Proof.
  induction s as [s IH] using shorter_list_ind.
  destruct s as [|c s]; [done|]. rewrite normalize_step.
  destruct (matchesIgnoreCase userMacro (c :: s)) eqn:Hm.
  - pose proof (matchesIgnoreCase_length _ _ Hm) as Hlen.
    change (length userMacro) with 8%nat in Hlen.
    rewrite (replaceAll_from_match userMacro userMacro 7 eq_refl userMacro_plain)
      by reflexivity.
    f_equal. apply IH. rewrite length_drop. simpl in *. lia.
  - rewrite normalize_step.
    rewrite (matchesIgnoreCase_ext _ _ (c :: s)), Hm.
    + f_equal. apply IH. simpl. lia.
    + simpl. f_equal. apply normalize_chars_lower.
Qed.

Lemma normalizeUserMacro_chars text :
  normalizeUserMacro text
  = string_of_list_ascii
      (replaceAll_from userMacro userMacro 0 [] (list_ascii_of_string text)).
Proof.
  unfold normalizeUserMacro.
  destruct (String.eqb_spec text EmptyString) as [->|_]; done.
Qed.

Lemma string_length_chars s : String.length s = length (list_ascii_of_string s).
Proof. induction s as [|c s IH]; simpl; [done|by f_equal]. Qed.

(** [normalizeUserMacro] only changes the letter case of macros: the text
    keeps its length and is the same up to the case of ASCII letters; and
    normalizing a second time changes nothing. *)
Theorem normalizeUserMacro_only_changes_letter_case text :
  String.length (normalizeUserMacro text) = String.length text
  /\ map lowerAscii (list_ascii_of_string (normalizeUserMacro text))
     = map lowerAscii (list_ascii_of_string text)
  /\ normalizeUserMacro (normalizeUserMacro text) = normalizeUserMacro text.
Proof.
  rewrite !normalizeUserMacro_chars, !string_length_chars,
    !list_ascii_of_string_of_list_ascii.
  split; [apply normalize_chars_length|].
  split; [apply normalize_chars_lower|].
  by rewrite normalize_chars_idempotent.
Qed.

(** Up to the first "{" nothing is touched, and a macro that stands there,
    in whatever letter case, is replaced by "{{user}}"; the text after it
    is normalized on its own. *)
Theorem normalizeUserMacro_rewrites_each_macro before macro after :
  "{"%char ∉ list_ascii_of_string before ->
  map lowerAscii (list_ascii_of_string macro) = userMacro ->
  normalizeUserMacro (before +:+ macro +:+ after)
  = before +:+ "{{user}}" +:+ normalizeUserMacro after.
Proof.
  intros Hbefore Hmacro.
  rewrite !normalizeUserMacro_chars, !list_ascii_of_string_app.
  set (N := replaceAll_from userMacro userMacro 0 []).
  assert (forall pre rest,
            "{"%char ∉ pre -> N (pre ++ rest) = pre ++ N rest) as Hcopy.
  { induction pre as [|c pre IH]; intros rest Hpre; [done|].
    apply not_elem_of_cons in Hpre as [Hc Hpre].
    change ((c :: pre) ++ rest) with (c :: (pre ++ rest)).
    unfold N. rewrite normalize_step. fold N.
    replace (matchesIgnoreCase userMacro (c :: pre ++ rest)) with false.
    - cbn [app]. f_equal. by apply IH.
    - symmetry. change userMacro with ("{"%char :: tl userMacro).
      cbn [matchesIgnoreCase]. apply andb_false_intro1.
      apply Ascii.eqb_neq. intros Heq. apply Hc.
      symmetry. by apply lowerAscii_open_brace. }
  rewrite Hcopy by done. unfold N.
  rewrite (replaceAll_from_match userMacro userMacro 7 eq_refl userMacro_plain) by done.
  rewrite !string_of_list_ascii_app.
  by rewrite string_of_list_ascii_of_string.
Qed.

(** ** parseCharacterCard *)

Ltac import_run :=
  unfold import_try, pureStep, importLog, mbind, mret, Import_bind,
    Import_ret, import_bind, import_ret;
  cbn beta iota zeta delta [fst snd app].

Lemma member_object members key :
  member (Some (JObject members)) key = Resolved (ownProperty key members).
Proof. reflexivity. Qed.

Lemma hasProperty_Some key data :
  hasProperty key data = true ->
  exists members v, data = JObject members /\ ownProperty key members = Some v.
Proof.
  destruct data as [| | | | |members]; try discriminate. simpl.
  intros [v Hv]%bool_decide_eq_true. by exists members, v.
Qed.

Lemma isV1Card_object data :
  isV1Card data = true -> exists members, data = JObject members.
Proof.
  unfold isV1Card. intros H.
  repeat (apply andb_true_iff in H as [H ?]).
  destruct (hasProperty_Some "name" data) as (members & _ & -> & _); eauto.
Qed.

Lemma isV2OrV3Card_object data :
  isV2OrV3Card data = true ->
  exists members inner spec,
    data = JObject members
    /\ ownProperty "data" members = Some inner
    /\ ownProperty "spec" members = Some (JString spec)
    /\ (spec = "chara_card_v2" \/ spec = "chara_card_v3").
Proof.
  unfold isV2OrV3Card. destruct (isObject data); [|done]. simpl.
  destruct (hasProperty "spec" data) eqn:Hspec; [|done].
  destruct (hasProperty "data" data) eqn:Hdata; [|done]. simpl.
  apply hasProperty_Some in Hdata as (members & inner & -> & Hinner).
  rewrite ?member_object.
  destruct (ownProperty "spec" members) as [[| | |spec| |]|] eqn:Hs; try done.
  intros [H|H]%orb_true_iff; apply String.eqb_eq in H;
    exists members, inner, spec; auto.
Qed.

Lemma cards_exclusive data :
  isV2OrV3Card data = true -> isV1Card data = false.
Proof.
  intros (members & inner & spec & -> & _ & Hspec & _)%isV2OrV3Card_object.
  unfold isV1Card. apply andb_false_intro2. simpl.
  rewrite Hspec. by rewrite bool_decide_true.
Qed.

Lemma readV1Card_object members :
  exists card, readV1Card (JObject members) = Resolved card.
Proof. unfold readV1Card, rootOr. rewrite !member_object. eauto. Qed.

Lemma readV2Card_resolves members inner version :
  ownProperty "data" members = Some inner ->
  (exists card, readV2Card (JObject members) version = Resolved card)
  <-> inner <> JNull.
Proof.
  intros Hinner. unfold readV2Card, nestedOrRoot.
  rewrite !member_object, Hinner.
  destruct inner; split; intros H; try done;
    try (by destruct H as [? ?]); simpl; eauto.
Qed.

Lemma orElse_truthy a b : truthy b = true -> truthy (orElse a b) = true.
Proof.
  intros Hb. destruct a as [v|]; simpl; [|done].
  by destruct (truthy v) eqn:Hv.
Qed.

Lemma orElse_cases a b : truthy (orElse a b) = true \/ orElse a b = b.
Proof.
  destruct a as [v|]; simpl; [|by right].
  destruct (truthy v) eqn:Hv; auto.
Qed.

Lemma readV1Card_fields data card :
  readV1Card data = Resolved card ->
  truthy (ParsedCard.name card) = true
  /\ ParsedCard.alternateGreetings card = JArray []
  /\ ParsedCard.version card = v1
  /\ Forall (fun v => truthy v = true \/ v = JString EmptyString)
       [ParsedCard.description card; ParsedCard.personality card;
        ParsedCard.scenario card; ParsedCard.firstMessage card;
        ParsedCard.exampleMessages card].
Proof.
  unfold readV1Card, rootOr, mbind, mret, Outcome_bind, Outcome_ret.
  destruct (member (Some data) "name"); [|done].
  destruct (member (Some data) "description"); [|done].
  destruct (member (Some data) "personality"); [|done].
  destruct (member (Some data) "scenario"); [|done].
  destruct (member (Some data) "first_mes"); [|done].
  destruct (member (Some data) "mes_example"); [|done].
  intros [= <-]. cbn.
  split; [by apply orElse_truthy|]. do 2 (split; [done|]).
  repeat first [apply List.Forall_nil | apply List.Forall_cons];
    apply orElse_cases.
Qed.

Lemma nestedOrRoot_cases data key fallback v :
  nestedOrRoot data key fallback = Resolved v ->
  truthy v = true \/ v = fallback.
Proof.
  unfold nestedOrRoot, mbind, mret, Outcome_bind, Outcome_ret.
  destruct (member (Some data) "data") as [inner|]; [|done].
  destruct (member inner key) as [nested|]; [|done].
  destruct (member (Some data) key) as [root|]; [|done].
  intros [= <-].
  destruct (orElse_cases nested (orElse root fallback)) as [?|Heq]; auto.
  rewrite Heq. apply orElse_cases.
Qed.

Lemma readV2Card_fields data version card :
  readV2Card data version = Resolved card ->
  truthy (ParsedCard.name card) = true
  /\ truthy (ParsedCard.alternateGreetings card) = true
  /\ ParsedCard.version card = version
  /\ Forall (fun v => truthy v = true \/ v = JString EmptyString)
       [ParsedCard.description card; ParsedCard.personality card;
        ParsedCard.scenario card; ParsedCard.firstMessage card;
        ParsedCard.exampleMessages card].
Proof.
  unfold readV2Card, mbind, mret, Outcome_bind, Outcome_ret.
  destruct (nestedOrRoot data "name" _) as [name|] eqn:Hname; [|done].
  destruct (nestedOrRoot data "description" _) eqn:H1; [|done].
  destruct (nestedOrRoot data "personality" _) eqn:H2; [|done].
  destruct (nestedOrRoot data "scenario" _) eqn:H3; [|done].
  destruct (nestedOrRoot data "first_mes" _) eqn:H4; [|done].
  destruct (member (Some data) "data") as [inner|]; [|done].
  destruct (member inner "alternate_greetings"); [|done].
  destruct (nestedOrRoot data "mes_example" _) eqn:H5; [|done].
  intros [= <-]. cbn.
  split.
  { destruct (nestedOrRoot_cases _ _ _ _ Hname) as [?|Heq]; [done|].
    by rewrite Heq. }
  split; [by apply orElse_truthy|]. split; [done|].
  repeat first [apply List.Forall_nil | apply List.Forall_cons];
    eapply nestedOrRoot_cases; eauto.
Qed.

Section CardParsingFacts.
Context `{RT : JSRuntime}.

(** The runs of [parseCharacterCard], by the shape of the parsed text. *)
Lemma parseCharacterCard_outcome jsonString :
  (parseCharacterCard jsonString).1
  = Resolved
      match JSON_parse jsonString with
      | None => None
      | Some data =>
          if isV2OrV3Card data then
            match readV2Card data
                    match member (Some data) "spec" with
                    | Resolved (Some (JString "chara_card_v3")) => v3
                    | _ => v2
                    end with
            | Resolved card => Some card
            | Rejected _ => None
            end
          else if isV1Card data then
            match readV1Card data with
            | Resolved card => Some card
            | Rejected _ => None
            end
          else None
      end.
Proof.
  unfold parseCharacterCard. import_run.
  destruct (JSON_parse jsonString) as [data|]; [|done].
  destruct (isV2OrV3Card data).
  - by destruct (readV2Card data _).
  - destruct (isV1Card data); [|done]. by destruct (readV1Card data).
Qed.

(** [parseCharacterCard] never throws, and it returns a card exactly for a
    JSON text of a V1 card, or of a V2/V3 card whose [data] is not [null]. *)
Theorem parseCharacterCard_accepts_exactly_the_known_formats jsonString :
  exists r,
    (parseCharacterCard jsonString).1 = Resolved r
    /\ (is_Some r <->
        exists data,
          JSON_parse jsonString = Some data
          /\ (isV1Card data = true
              \/ (isV2OrV3Card data = true
                  /\ member (Some data) "data" <> Resolved (Some JNull)))).
Proof.
  eexists. split; [apply parseCharacterCard_outcome|].
  destruct (JSON_parse jsonString) as [data|].
  2: { split; [by intros [? ?]|]. by intros (? & ? & _). }
  destruct (isV2OrV3Card data) eqn:H2.
  - pose proof (cards_exclusive _ H2) as H1.
    destruct (isV2OrV3Card_object _ H2)
      as (members & inner & spec & -> & Hinner & Hspec & _).
    set (version := match member (Some (JObject members)) "spec" with
                    | Resolved (Some (JString "chara_card_v3")) => v3
                    | _ => v2
                    end).
    pose proof (readV2Card_resolves members inner version Hinner) as Hread.
    split.
    + intros Hsome. eexists. split; [done|]. right. split; [done|].
      rewrite member_object, Hinner. intros [= ->].
      destruct (readV2Card _ _) eqn:Hr; [|by destruct Hsome].
      by apply Hread; eauto.
    + intros (? & [= <-] & [?|[_ Hnull]]); [congruence|].
      rewrite member_object, Hinner in Hnull.
      destruct Hread as [_ [card ->]]; [congruence|done].
  - destruct (isV1Card data) eqn:H1.
    + destruct (isV1Card_object _ H1) as [members ->].
      destruct (readV1Card_object members) as [card ->].
      split; [eauto|done].
    + split; [by intros [? ?]|].
      intros (? & [= <-] & [?|[? _]]); congruence.
Qed.

(** In a card that [parseCharacterCard] returns the name and the greetings
    are truthy and every other field is truthy or the empty string; the
    version is [v1] exactly for a text without [spec], where the greetings
    are the empty array, and [v3] exactly for the spec "chara_card_v3". *)
Theorem parsed_card_has_defaults_and_its_version jsonString data card :
  JSON_parse jsonString = Some data ->
  (parseCharacterCard jsonString).1 = Resolved (Some card) ->
  truthy (ParsedCard.name card) = true
  /\ truthy (ParsedCard.alternateGreetings card) = true
  /\ Forall (fun v => truthy v = true \/ v = JString EmptyString)
       [ParsedCard.description card; ParsedCard.personality card;
        ParsedCard.scenario card; ParsedCard.firstMessage card;
        ParsedCard.exampleMessages card]
  /\ (ParsedCard.version card = v1 <-> hasProperty "spec" data = false)
  /\ (ParsedCard.version card = v1 ->
      ParsedCard.alternateGreetings card = JArray [])
  /\ (ParsedCard.version card = v3 <->
      member (Some data) "spec" = Resolved (Some (JString "chara_card_v3"))).
Proof.
  intros Hparse. rewrite parseCharacterCard_outcome, Hparse.
  destruct (isV2OrV3Card data) eqn:H2.
  - destruct (readV2Card data _) as [card'|] eqn:Hread; [|done].
    intros [= ->].
    apply readV2Card_fields in Hread as (Hname & Hgreet & Hversion & Hrest).
    apply isV2OrV3Card_object in H2
      as (members & inner & spec & -> & Hinner & Hspec & Hknown).
    rewrite member_object, Hspec in *. simpl. rewrite Hspec.
    rewrite bool_decide_true by eauto.
    do 3 (split; [done|]). rewrite Hversion.
    destruct Hknown as [-> | ->]; by repeat split.
  - destruct (isV1Card data) eqn:H1; [|done].
    destruct (readV1Card data) as [card'|] eqn:Hread; [|done].
    intros [= ->].
    apply readV1Card_fields in Hread as (Hname & Hgreet & Hversion & Hrest).
    unfold isV1Card in H1.
    apply andb_true_iff in H1 as [H1 Hspec]. apply negb_true_iff in Hspec.
    apply andb_true_iff in H1 as [[_ Hn]%andb_true_iff _].
    apply hasProperty_Some in Hn as (members & ? & -> & _).
    rewrite Hgreet, Hversion. do 3 (split; [done|]).
    split; [done|]. split; [done|]. split; [done|].
    simpl in Hspec. apply bool_decide_eq_false in Hspec.
    rewrite member_object. intros [= H]. destruct Hspec. by rewrite H.
Qed.

End CardParsingFacts.

(** ** convertCardToScenario *)

Lemma importCalls_app t1 t2 :
  importCalls (t1 ++ t2) = importCalls t1 ++ importCalls t2.
Proof. apply omap_app. Qed.

Ltac import_step :=
  cbn beta iota zeta delta [fst snd negb awaitConversion];
  rewrite ?importCalls_app; cbn beta iota zeta delta [importCalls omap app].

Lemma normalizeUserMacro_any_text v :
  isText v -> exists s, normalizeUserMacro_any v = Resolved s.
Proof.
  destruct v as [| | |s| |]; try done. intros _.
  unfold normalizeUserMacro_any. destruct (negb _); eauto.
Qed.

Lemma mapOutcome_resolves {A B} (f : A -> Outcome B) (P : A -> Prop) l :
  (forall x, P x -> exists y, f x = Resolved y) ->
  Forall P l -> exists ys, mapOutcome f l = Resolved ys.
Proof.
  intros Hf. induction 1 as [|x l Hx _ [ys IH]]; simpl; [eauto|].
  destruct (Hf x Hx) as [y ->]. rewrite IH. eauto.
Qed.

Lemma mapOutcome_Forall2 {A B} (f : A -> Outcome B) l ys :
  mapOutcome f l = Resolved ys ->
  Forall2 (fun x y => f x = Resolved y) l ys.
Proof.
  revert ys. induction l as [|x l IH]; intros ys; simpl.
  - intros [= <-]. constructor.
  - destruct (f x) as [y|] eqn:Hx; [|done].
    destruct (mapOutcome f l) as [ys'|]; [|done].
    intros [= <-]. constructor; auto.
Qed.

Section ConversionFacts.
Context `{RT : JSRuntime} `{ENV : ImporterEnv}.

Lemma parseCharacterCard_calls jsonString :
  importCalls (parseCharacterCard jsonString).2 = [].
Proof.
  unfold parseCharacterCard. import_run.
  destruct (JSON_parse jsonString) as [data|]; [|done].
  destruct (isV2OrV3Card data).
  - by destruct (readV2Card data _).
  - destruct (isV1Card data); [|done]. by destruct (readV1Card data).
Qed.

Lemma trimOf_text v : isText v <-> exists s, trimOf v = Resolved s.
Proof. destruct v; split; try done; try (by intros [? ?]); simpl; eauto. Qed.

Lemma pushSection_resolves tag field sections :
  isText field <-> exists sections', pushSection tag field sections = Resolved sections'.
Proof.
  unfold pushSection, mbind, mret, Outcome_bind, Outcome_ret.
  destruct field as [| | |s| |]; split; try done; try (by intros [? ?]).
  intros _. simpl. destruct (negb (String.eqb _ _)); [|eauto].
  unfold normalizeUserMacro_any. destruct (negb _); eauto.
Qed.

Lemma buildCardContext_resolves card :
  (isText (ParsedCard.scenario card) /\ isText (ParsedCard.description card)
   /\ isText (ParsedCard.personality card)
   /\ isText (ParsedCard.exampleMessages card))
  <-> exists cardContext, buildCardContext card = Resolved cardContext.
Proof.
  unfold buildCardContext, mbind, mret, Outcome_bind, Outcome_ret. split.
  - intros (H1 & H2 & H3 & H4).
    destruct (proj1 (pushSection_resolves "scenario" _ []) H1) as [s1 ->].
    destruct (proj1 (pushSection_resolves "character_description" _ s1) H2)
      as [s2 ->].
    destruct (proj1 (pushSection_resolves "personality" _ s2) H3) as [s3 ->].
    destruct (proj1 (pushSection_resolves "example_messages" _ s3) H4)
      as [s4 ->].
    eauto.
  - destruct (pushSection "scenario" _ _) as [s1|] eqn:H1;
      [|by intros [? ?]].
    destruct (pushSection "character_description" _ _) as [s2|] eqn:H2;
      [|by intros [? ?]].
    destruct (pushSection "personality" _ _) as [s3|] eqn:H3;
      [|by intros [? ?]].
    destruct (pushSection "example_messages" _ _) as [s4|] eqn:H4;
      [|by intros [? ?]].
    intros _. repeat split; eapply pushSection_resolves; eauto.
Qed.

Lemma fallbackSeed_resolves card :
  isText (ParsedCard.scenario card) -> isText (ParsedCard.description card) ->
  exists seed, fallbackSeed card = Resolved seed.
Proof.
  unfold fallbackSeed. intros Hs Hd.
  destruct (ParsedCard.scenario card); try done.
  destruct (ParsedCard.description card); try done.
  simpl. eauto.
Qed.

Lemma normalizeGreetings_texts card :
  wellTyped card ->
  exists greetings,
    normalizeGreetings (ParsedCard.alternateGreetings card)
    = Resolved greetings.
Proof.
  intros (_ & _ & _ & _ & _ & _ & l & -> & Hl). simpl.
  eapply mapOutcome_resolves; [|exact Hl].
  apply normalizeUserMacro_any_text.
Qed.

Lemma toStringOf_text v : isText v -> exists s, toStringOf v = Resolved s.
Proof. destruct v; try done. intros _. unfold toStringOf. simpl. eauto. Qed.

(** Every run of [convertCardToScenario]. *)
Lemma convertCardToScenario_shape jsonString mode genre profileId :
  let run := convertCardToScenario jsonString mode genre profileId in
  ((parseCharacterCard jsonString).1 = Resolved None
   /\ importCalls run.2 = []
   /\ exists r, run.1 = Resolved r /\ success r = false /\ npcs r = []
        /\ errors r = [parseFailureMessage]
        /\ storyTitle r = JString EmptyString)
  \/ exists card,
       (parseCharacterCard jsonString).1 = Resolved (Some card)
       /\ ((exists e, run.1 = Rejected e /\ importCalls run.2 = []
              /\ ~ wellTyped card)
           \/ exists firstMessage greetings,
                normalizeUserMacro_any (ParsedCard.firstMessage card)
                = Resolved firstMessage
                /\ normalizeGreetings (ParsedCard.alternateGreetings card)
                   = Resolved greetings
                /\ ((exists r, run.1 = Resolved r /\ importCalls run.2 = []
                       /\ success r = false /\ npcs r = []
                       /\ storyTitle r = ParsedCard.name card
                       /\ importedFirstMessage r = firstMessage
                       /\ importedAlternateGreetings r = greetings
                       /\ (errors r = [noApiKeyMessage]
                           /\ apiKeyPresent profileId = false
                           \/ errors r = [emptyCardMessage]
                              /\ apiKeyPresent profileId = true
                              /\ exists cardContext,
                                   buildCardContext card
                                   = Resolved cardContext
                                   /\ String_trim cardContext
                                      = EmptyString))
                    \/ exists cardContext titleText seed,
                         apiKeyPresent profileId = true
                         /\ buildCardContext card = Resolved cardContext
                         /\ String_trim cardContext <> EmptyString
                         /\ toStringOf (ParsedCard.name card)
                            = Resolved titleText
                         /\ fallbackSeed card = Resolved seed
                         /\ importCalls run.2
                            = [requestOfCard genre titleText cardContext]
                         /\ run.1
                            = Resolved
                                match
                                  response ←
                                    newOpenAIProvider
                                      (resolvedApiSettings profileId)
                                      (requestOfCard genre titleText
                                         cardContext);
                                  readConversion (ParsedCard.name card)
                                    firstMessage greetings
                                    (content response)
                                with
                                | Resolved r => r
                                | Rejected e =>
                                    fallbackResult card firstMessage
                                      greetings seed e
                                end)).
Proof.
  intros run. subst run. unfold convertCardToScenario.
  pose proof (parseCharacterCard_outcome jsonString) as Hout.
  pose proof (parseCharacterCard_calls jsonString) as Hcalls.
  destruct (parseCharacterCard jsonString) as [parsed tr].
  simpl in Hout, Hcalls. rewrite Hout. clear Hout.
  fold (resolvedApiSettings profileId). fold (apiKeyPresent profileId).
  import_run.
  match goal with |- context [Resolved ?x = Resolved None] =>
    destruct x as [card|] end.
  2: { left. rewrite app_nil_r. split; [done|]. split; [done|]. eauto 10. }
  right. exists card. split; [done|].
  destruct (normalizeUserMacro_any (ParsedCard.firstMessage card))
    as [firstMessage|] eqn:Hfirst; import_step.
  2: { left. rewrite Hcalls. eexists. split; [done|]. split; [done|].
       intros (_ & _ & _ & _ & Htext & _).
       apply normalizeUserMacro_any_text in Htext as [? ?]. congruence. }
  destruct (normalizeGreetings (ParsedCard.alternateGreetings card))
    as [greetings|] eqn:Hgreetings; import_step.
  2: { left. rewrite Hcalls. eexists. split; [done|]. split; [done|].
       intros [? ?]%normalizeGreetings_texts. congruence. }
  destruct (apiKeyPresent profileId) eqn:Hkey; import_step.
  2: { right. exists firstMessage, greetings. do 2 (split; [done|]).
       left. rewrite Hcalls. eauto 12. }
  destruct (buildCardContext card) as [cardContext|] eqn:Hctx; import_step.
  2: { left. rewrite Hcalls. eexists. split; [done|]. split; [done|].
       intros (_ & ? & ? & ? & _ & ? & _).
       destruct (proj1 (buildCardContext_resolves card)) as [? ?]; [done|].
       congruence. }
  destruct (String.eqb_spec (String_trim cardContext) EmptyString)
    as [Hblank|Hblank]; import_step.
  { right. exists firstMessage, greetings. do 2 (split; [done|]).
    left. rewrite Hcalls. eauto 15. }
  destruct (toStringOf (ParsedCard.name card)) as [titleText|] eqn:Htitle;
    import_step.
  2: { left. rewrite Hcalls. eexists. split; [done|]. split; [done|].
       intros ([? ?]%toStringOf_text & _). congruence. }
  right. exists firstMessage, greetings. do 2 (split; [done|]). right.
  destruct (proj2 (buildCardContext_resolves card)) as (Hs & Hd & _);
    [by eauto|].
  destruct (fallbackSeed_resolves card Hs Hd) as [seed Hseed].
  exists cardContext, titleText, seed. rewrite Hseed.
  fold (requestOfCard genre titleText cardContext).
  do 5 (split; [done|]).
  unfold mbind, Outcome_bind.
  destruct (newOpenAIProvider _ _) as [response|e]; import_step.
  - destruct (readConversion _ _ _ _) as [r|e] eqn:Hread; import_step;
      by rewrite Hcalls.
  - by rewrite Hcalls.
Qed.


Lemma readTraits_bounded personality traits :
  readTraits personality = Resolved traits ->
  (length traits <= 5)%nat /\ EmptyString ∉ traits.
Proof.
  assert ((length (@nil string) <= 5)%nat /\ EmptyString ∉ @nil string)
    as Hnil by (split; [simpl; lia|apply not_elem_of_nil]).
  unfold readTraits. destruct personality as [v|]; [|by intros [= <-]].
  destruct (truthy v); [|by intros [= <-]].
  destruct v as [| | |s| |]; try done. intros [= <-]. split.
  - rewrite length_take. lia.
  - intros Hin. eapply elem_of_sublist in Hin; [|apply sublist_take].
    by apply list_elem_of_filter in Hin as [? _].
Qed.

Lemma readNpc_fields npc character :
  readNpc npc = Resolved character ->
  truthy (GeneratedCharacter.name character) = true
  /\ truthy (GeneratedCharacter.role character) = true
  /\ truthy (GeneratedCharacter.relationship character) = true
  /\ (length (GeneratedCharacter.traits character) <= 5)%nat
  /\ EmptyString ∉ GeneratedCharacter.traits character.
Proof.
  unfold readNpc, mbind, mret, Outcome_bind, Outcome_ret.
  destruct (member (Some npc) "name"); [|done].
  destruct (member (Some npc) "role"); [|done].
  destruct (member (Some npc) "description"); [|done].
  destruct (member (Some npc) "relationship"); [|done].
  destruct (member (Some npc) "personality"); [|done].
  destruct (readTraits _) as [traits|] eqn:Htraits; [|done].
  intros [= <-]. cbn. apply readTraits_bounded in Htraits.
  repeat split; try (by apply orElse_truthy); apply Htraits.
Qed.

Lemma readConversion_fields cardTitle firstMessage greetings content r :
  readConversion cardTitle firstMessage greetings content = Resolved r ->
  success r = true /\ errors r = [] /\ storyTitle r = cardTitle
  /\ length (importedAlternateGreetings r) = length greetings
  /\ (truthy cardTitle = true -> truthy (primaryCharacterName r) = true)
  /\ Forall (fun character =>
               truthy (GeneratedCharacter.name character) = true
               /\ truthy (GeneratedCharacter.role character) = true
               /\ truthy (GeneratedCharacter.relationship character) = true
               /\ (length (GeneratedCharacter.traits character) <= 5)%nat
               /\ EmptyString ∉ GeneratedCharacter.traits character)
       (npcs r).
Proof.
  unfold readConversion, mbind, mret, Outcome_bind, Outcome_ret.
  destruct (JSON_parse _) as [result|]; [|done].
  destruct (member (Some result) "primaryCharacterName"); [|done].
  destruct (member (Some result) "npcs"); [|done].
  destruct (match orElse _ (JArray []) with JArray l => _ | _ => _ end)
    as [characters|] eqn:Hnpcs; [|done].
  destruct (toStringOf _); [|done].
  destruct (member (Some result) "settingSeed"); [|done].
  intros [= <-]. cbn. rewrite length_map.
  do 4 (split; [done|]). split; [apply orElse_truthy|].
  destruct (orElse _ (JArray [])) as [| | | |l|]; try done.
  apply mapOutcome_Forall2 in Hnpcs.
  induction Hnpcs as [|npc character l characters Hnpc _ IH];
    constructor; [|done].
  by eapply readNpc_fields.
Qed.

Lemma parsed_name_truthy jsonString card :
  (parseCharacterCard jsonString).1 = Resolved (Some card) ->
  truthy (ParsedCard.name card) = true
  /\ (truthy (ParsedCard.firstMessage card) = true
      \/ ParsedCard.firstMessage card = JString EmptyString).
Proof.
  rewrite parseCharacterCard_outcome.
  destruct (JSON_parse jsonString) as [data|]; [|done].
  destruct (isV2OrV3Card data).
  - destruct (readV2Card data _) as [card'|] eqn:Hread; [|done].
    intros [= ->].
    apply readV2Card_fields in Hread as (? & _ & _ & Hrest). split; [done|].
    by eapply (Forall_lookup_1 _ _ 3) in Hrest.
  - destruct (isV1Card data); [|done].
    destruct (readV1Card data) as [card'|] eqn:Hread; [|done].
    intros [= ->].
    apply readV1Card_fields in Hread as (? & _ & _ & Hrest). split; [done|].
    by eapply (Forall_lookup_1 _ _ 3) in Hrest.
Qed.

(** The model is asked at most once, and only for a parsed card with an
    API key at hand and a card context that is not blank; once it has been
    asked, the conversion returns a result whatever the answer is. *)
Theorem model_is_asked_at_most_once_and_then_a_result_is_returned
    jsonString mode genre profileId :
  let run := convertCardToScenario jsonString mode genre profileId in
  importCalls run.2 = []
  \/ exists card cardContext titleText r,
       (parseCharacterCard jsonString).1 = Resolved (Some card)
       /\ apiKeyPresent profileId = true
       /\ buildCardContext card = Resolved cardContext
       /\ String_trim cardContext <> EmptyString
       /\ toStringOf (ParsedCard.name card) = Resolved titleText
       /\ importCalls run.2 = [requestOfCard genre titleText cardContext]
       /\ run.1 = Resolved r.
Proof.
  intros run.
  destruct (convertCardToScenario_shape jsonString mode genre profileId)
    as [(_ & ? & _)|(card & Hcard & [(e & _ & ? & _)|Hrun])]; [by left..|].
  destruct Hrun as (firstMessage & greetings & _ & _
                    & [(r & _ & ? & _)|Hrun]); [by left|].
  destruct Hrun as (cardContext & titleText & seed & ? & ? & ? & ? & _
                    & ? & ?).
  right. exists card, cardContext, titleText. eauto 10.
Qed.

(** In every result [success] holds exactly if there are no errors; a
    failure carries one error and no NPC, a success comes from exactly one
    request to the model; and the story title is the name of the parsed
    card, which is never empty, or empty if there is no card. *)
Theorem result_flags_and_title_agree jsonString mode genre profileId r :
  let run := convertCardToScenario jsonString mode genre profileId in
  run.1 = Resolved r ->
  (success r = true <-> errors r = [])
  /\ (success r = false -> npcs r = [] /\ length (errors r) = 1%nat)
  /\ (success r = true -> length (importCalls run.2) = 1%nat)
  /\ match (parseCharacterCard jsonString).1 with
     | Resolved (Some card) =>
         storyTitle r = ParsedCard.name card
         /\ truthy (storyTitle r) = true
     | _ => storyTitle r = JString EmptyString
     end.
Proof.
  intros run Hr.
  destruct (convertCardToScenario_shape jsonString mode genre profileId)
    as [(-> & _ & r' & Hr' & Hs & Hn & He & Ht)
       |(card & Hcard & [(e & He & _)|Hrun])].
  - fold run in Hr'. rewrite Hr in Hr'. injection Hr' as <-.
    rewrite Hs, Hn, He, Ht. by repeat split.
  - fold run in He. congruence.
  - rewrite Hcard. apply parsed_name_truthy in Hcard as [Hname _].
    destruct Hrun as (firstMessage & greetings & _ & _ & [Hrun|Hrun]).
    + destruct Hrun as (r' & Hr' & _ & Hs & Hn & Ht & _ & _ & He).
      fold run in Hr'. rewrite Hr in Hr'. injection Hr' as <-.
      rewrite Hs, Hn, Ht.
      destruct He as [[-> _]|[-> _]]; by repeat split.
    + destruct Hrun as (cardContext & titleText & seed & _ & _ & _ & _ & _
                        & Hcalls & Hr').
      fold run in Hcalls, Hr'. rewrite Hr in Hr'. injection Hr' as ->.
      rewrite Hcalls.
      destruct (_ ≫= _) as [r'|e] eqn:Hread.
      * unfold mbind, Outcome_bind in Hread.
        destruct (newOpenAIProvider _ _); [|done].
        apply readConversion_fields in Hread as (-> & -> & -> & _).
        by repeat split.
      * by repeat split.
Qed.

(** A card of the promised shape, with strings in its text fields and an
    array of strings as greetings, never makes the conversion throw. *)
Theorem well_typed_card_never_throws jsonString mode genre profileId card :
  (parseCharacterCard jsonString).1 = Resolved (Some card) ->
  wellTyped card ->
  exists r,
    (convertCardToScenario jsonString mode genre profileId).1 = Resolved r.
Proof.
  intros Hcard Htyped.
  destruct (convertCardToScenario_shape jsonString mode genre profileId)
    as [(Hnone & _)|(card' & Hcard' & Hrun)]; [congruence|].
  rewrite Hcard in Hcard'. injection Hcard' as <-.
  destruct Hrun as [(e & _ & _ & Hbad)|Hrun]; [done|].
  destruct Hrun as (firstMessage & greetings & _ & _ & [Hrun|Hrun]).
  - destruct Hrun as (r & ? & _). eauto.
  - destruct Hrun as (? & ? & ? & _ & _ & _ & _ & _ & _ & ?). eauto.
Qed.

(** A first message that is no string (a number, [true], an array, an
    object) makes the conversion throw a [TypeError] instead of returning
    a record with errors, and the model is not asked. *)
Theorem first_message_that_is_no_string_throws
    jsonString mode genre profileId card :
  (parseCharacterCard jsonString).1 = Resolved (Some card) ->
  ~ isText (ParsedCard.firstMessage card) ->
  let run := convertCardToScenario jsonString mode genre profileId in
  run.1 = Rejected TypeError /\ importCalls run.2 = [].
Proof.
  intros Hcard Hbad run. subst run. unfold convertCardToScenario.
  pose proof (parseCharacterCard_calls jsonString) as Hcalls.
  apply parsed_name_truthy in Hcard as Hfields.
  destruct Hfields as [_ [Htruthy|Hempty]];
    [|by rewrite Hempty in Hbad; destruct Hbad].
  destruct (parseCharacterCard jsonString) as [parsed tr].
  simpl in Hcard, Hcalls. rewrite Hcard. import_run.
  unfold normalizeUserMacro_any. rewrite Htruthy. simpl.
  destruct (ParsedCard.firstMessage card); try done;
    import_step; by rewrite Hcalls.
Qed.

(** When the provider fails, the result is the fallback: no NPC, the name
    of the card as the primary character, the first message and the
    greetings normalized but with their [{{char}}] macros in place, the
    provider's message in the one error, and as the setting seed the
    scenario and the description of the card, normalized and cut. *)
Theorem provider_failure_gives_the_fallback
    jsonString mode genre profileId e r :
  let run := convertCardToScenario jsonString mode genre profileId in
  (forall request,
     newOpenAIProvider (resolvedApiSettings profileId) request = Rejected e) ->
  run.1 = Resolved r ->
  importCalls run.2 <> [] ->
  exists card firstMessage greetings seed,
    (parseCharacterCard jsonString).1 = Resolved (Some card)
    /\ normalizeUserMacro_any (ParsedCard.firstMessage card)
       = Resolved firstMessage
    /\ normalizeGreetings (ParsedCard.alternateGreetings card)
       = Resolved greetings
    /\ fallbackSeed card = Resolved seed
    /\ r = {| success := false;
              settingSeed := JString seed;
              npcs := [];
              primaryCharacterName := ParsedCard.name card;
              storyTitle := ParsedCard.name card;
              importedFirstMessage := firstMessage;
              importedAlternateGreetings := greetings;
              errors :=
                [conversionFailedMessage
                   (default "Unknown error during conversion"
                      (errorMessage e))] |}.
Proof.
  intros run Hfail Hr Hcalls.
  destruct (convertCardToScenario_shape jsonString mode genre profileId)
    as [(_ & ? & _)|(card & Hcard & [(? & _ & ? & _)|Hrun])]; [done..|].
  destruct Hrun as (firstMessage & greetings & Hfirst & Hgreetings
                    & [(? & _ & ? & _)|Hrun]); [done|].
  destruct Hrun as (cardContext & titleText & seed & _ & _ & _ & _ & Hseed
                    & _ & Hr').
  fold run in Hr'. rewrite Hr in Hr'. injection Hr' as ->.
  exists card, firstMessage, greetings, seed. do 4 (split; [done|]).
  unfold mbind, Outcome_bind. by rewrite Hfail.
Qed.

(** Every NPC of a result has a name, a role and a relationship that are
    not empty, and at most five traits, none of them empty. *)
Theorem npcs_have_names_and_at_most_five_traits
    jsonString mode genre profileId r :
  (convertCardToScenario jsonString mode genre profileId).1 = Resolved r ->
  Forall (fun character =>
            truthy (GeneratedCharacter.name character) = true
            /\ truthy (GeneratedCharacter.role character) = true
            /\ truthy (GeneratedCharacter.relationship character) = true
            /\ (length (GeneratedCharacter.traits character) <= 5)%nat
            /\ EmptyString ∉ GeneratedCharacter.traits character)
    (npcs r).
Proof.
  intros Hr.
  destruct (convertCardToScenario_shape jsonString mode genre profileId)
    as [(_ & _ & r' & Hr' & _ & Hn & _)|(card & _ & [(? & ? & _)|Hrun])].
  - rewrite Hr in Hr'. injection Hr' as <-. rewrite Hn. constructor.
  - congruence.
  - destruct Hrun as (firstMessage & greetings & _ & _ & [Hrun|Hrun]).
    + destruct Hrun as (r' & Hr' & _ & _ & Hn & _).
      rewrite Hr in Hr'. injection Hr' as <-. rewrite Hn. constructor.
    + destruct Hrun as (? & ? & ? & _ & _ & _ & _ & _ & _ & Hr').
      rewrite Hr in Hr'. injection Hr' as ->.
      destruct (_ ≫= _) as [r'|e] eqn:Hread; [|constructor].
      unfold mbind, Outcome_bind in Hread.
      destruct (newOpenAIProvider _ _); [|done].
      by apply readConversion_fields in Hread as (_ & _ & _ & _ & _ & ?).
Qed.

End ConversionFacts.

(** ** Replacing the character macro *)

Lemma replaceAll_from_copy p t n x p' pre rest :
  length p = S n -> "$"%char ∉ t -> p = x :: p' ->
  Forall (fun c => lowerAscii c <> x) pre ->
  replaceAll_from p t 0 [] (pre ++ rest)
  = pre ++ replaceAll_from p t 0 [] rest.
Proof.
  intros Hp Ht Hx. induction 1 as [|c pre Hc _ IH]; [done|].
  change ((c :: pre) ++ rest) with (c :: (pre ++ rest)).
  rewrite (replaceAll_from_step p t n Hp Ht).
  replace (matchesIgnoreCase p (c :: pre ++ rest)) with false.
  - by rewrite IH.
  - rewrite Hx. simpl. by destruct (Ascii.eqb_spec (lowerAscii c) x).
Qed.

Lemma no_open_brace pre :
  "{"%char ∉ pre -> Forall (fun c => lowerAscii c <> "{"%char) pre.
Proof.
  intros Hpre. apply Forall_forall. intros c Hc Heq.
  apply lowerAscii_open_brace in Heq. by subst.
Qed.

(** With a name without "$", the text up to the first "{" is kept, a
    macro that stands there, in whatever letter case, is replaced by the
    name, and the text after it is treated on its own. *)
Theorem replaceCharMacro_puts_a_plain_name_for_each_macro
    before macro after primaryName :
  "$"%char ∉ list_ascii_of_string primaryName ->
  "{"%char ∉ list_ascii_of_string before ->
  map lowerAscii (list_ascii_of_string macro)
  = list_ascii_of_string "{{char}}" ->
  replaceCharMacro (before +:+ macro +:+ after) primaryName
  = before +:+ primaryName +:+ replaceCharMacro after primaryName.
Proof.
  intros Hname Hbefore Hmacro.
  unfold replaceCharMacro, replaceAllIgnoreCase.
  rewrite !list_ascii_of_string_app.
  rewrite (replaceAll_from_copy (list_ascii_of_string "{{char}}") _ 7
             "{"%char (list_ascii_of_string "{char}}")); try done.
  - rewrite (replaceAll_from_match (list_ascii_of_string "{{char}}") _ 7
               eq_refl Hname) by done.
    rewrite !string_of_list_ascii_app.
    by rewrite !string_of_list_ascii_of_string.
  - by apply no_open_brace.
Qed.

Lemma replaceAll_from_matched p k seen s :
  p <> [] ->
  replaceAll_from p ["$"; "&"]%char k seen s = drop k s.
Proof.
  intros Hp. revert k seen.
  induction s as [|c s IH]; intros k seen; [by destruct k|].
  cbn [replaceAll_from]. destruct k as [|k]; [|apply IH].
  destruct (matchesIgnoreCase p (c :: s)).
  - rewrite IH. cbn [getSubstitution]. simpl Ascii.eqb. cbn iota.
    rewrite app_nil_r.
    destruct p as [|x p]; [done|]. simpl. f_equal.
    rewrite Nat.sub_0_r. apply take_drop.
  - by rewrite IH.
Qed.

(** The name is a replacement text of [String.prototype.replace]: a name
    "$&" stands for the macro itself, so that nothing is replaced. *)
Theorem replaceCharMacro_reads_the_name_as_a_replacement_pattern text :
  replaceCharMacro text "$&" = text.
Proof.
  unfold replaceCharMacro, replaceAllIgnoreCase.
  change (list_ascii_of_string "$&") with ["$"; "&"]%char.
  rewrite replaceAll_from_matched by done.
  apply string_of_list_ascii_of_string.
Qed.

(** ** The object literal of a response *)

Lemma greedyUntilClose_None s : greedyUntilClose s = None <-> "}"%char ∉ s.
Proof.
  induction s as [|c s IH]; simpl.
  - split; [intros _; apply not_elem_of_nil|done].
  - destruct (greedyUntilClose s) as [body|].
    + split; [done|]. intros Hc. apply not_elem_of_cons in Hc as [_ Hs].
      by apply IH in Hs.
    + destruct (Ascii.eqb_spec c "}") as [->|Hne].
      * split; [done|]. intros Hc. destruct Hc. left.
      * split; [|done]. intros _. apply not_elem_of_cons. split; [done|].
        by apply IH.
Qed.

Lemma greedyUntilClose_Some s matched :
  greedyUntilClose s = Some matched <->
  exists body post,
    s = body ++ "}"%char :: post /\ ("}"%char ∉ post)
    /\ matched = body ++ ["}"%char].
Proof.
  revert matched. induction s as [|c s IH]; intros matched; simpl.
  - split; [done|]. intros (body & post & Hs & _). by destruct body.
  - destruct (greedyUntilClose s) as [inner|] eqn:Hinner.
    + split.
      * intros [= <-].
        destruct (proj1 (IH inner) eq_refl) as (body & post & -> & ? & ->).
        by exists (c :: body), post.
      * intros (body & post & Hs & Hpost & ->).
        destruct body as [|b body]; simplify_eq/=.
        -- apply greedyUntilClose_None in Hpost. congruence.
        -- do 2 f_equal.
           assert (Some inner = Some (body ++ ["}"%char])) as [= ->]; [|done].
           apply IH. eauto.
    + apply greedyUntilClose_None in Hinner.
      destruct (Ascii.eqb_spec c "}") as [->|Hne].
      * split.
        -- intros [= <-]. by exists [], s.
        -- intros (body & post & Hs & Hpost & ->).
           destruct body as [|b body]; simplify_eq/=; [done|].
           destruct Hinner. apply elem_of_app. right. left.
      * split; [done|]. intros (body & post & Hs & Hpost & ->).
        destruct body as [|b body]; simplify_eq/=.
        destruct Hinner. apply elem_of_app. right. left.
Qed.

(** [jsonStr.match(/\{[\s\S]*\}/)] finds the stretch from the first "{" of
    the text to its last "}", if that comes later; otherwise nothing. *)
Theorem object_literal_is_first_open_to_last_close s matched :
  matchObjectLiteral s = Some matched <->
  exists pre body post,
    s = pre ++ "{"%char :: body ++ "}"%char :: post
    /\ ("{"%char ∉ pre) /\ ("}"%char ∉ post)
    /\ matched = "{"%char :: body ++ ["}"%char].
Proof.
  revert matched. induction s as [|c s IH]; intros matched; simpl.
  - split; [done|]. intros (pre & body & post & Hs & _). by destruct pre.
  - destruct (Ascii.eqb_spec c "{") as [->|Hne].
    + destruct (greedyUntilClose s) as [inner|] eqn:Hinner.
      * pose proof Hinner as Hfound.
        apply greedyUntilClose_Some in Hfound
          as (body & post & -> & ? & ->).
        split.
        -- intros [= <-]. exists [], body, post.
           split; [done|]. split; [apply not_elem_of_nil|done].
        -- intros (pre & body' & post' & Hs & Hpre & Hpost & ->).
           destruct pre as [|x pre]; simplify_eq/=.
           ++ do 2 f_equal.
              assert (Some (body ++ ["}"%char]) = Some (body' ++ ["}"%char]))
                as [= ->]; [|done].
              rewrite <- Hinner, Hs. apply greedyUntilClose_Some. eauto.
           ++ destruct Hpre. left.
      * apply greedyUntilClose_None in Hinner. split.
        -- intros Hm. apply IH in Hm
             as (pre & body & post & -> & _ & _ & _).
           destruct Hinner. rewrite !elem_of_app, !elem_of_cons.
           right. right. rewrite elem_of_app, elem_of_cons. auto.
        -- intros (pre & body & post & Hs & Hpre & _).
           destruct pre as [|x pre]; simplify_eq/=.
           ++ destruct Hinner. rewrite elem_of_app, elem_of_cons. auto.
           ++ destruct Hpre. left.
    + rewrite IH. split.
      * intros (pre & body & post & -> & Hpre & Hpost & ->).
        exists (c :: pre), body, post. repeat split; try done.
        apply not_elem_of_cons. split; [congruence|done].
      * intros (pre & body & post & Hs & Hpre & Hpost & ->).
        destruct pre as [|x pre]; simplify_eq/=.
        apply not_elem_of_cons in Hpre as [_ Hpre].
        by exists pre, body, post.
Qed.

(** ** buildCardContext *)

Section CardContextFacts.
Context `{RT : JSRuntime}.

Lemma pushSection_string tag s sections :
  pushSection tag (JString s) sections
  = Resolved
      (if String.eqb (String_trim s) EmptyString then sections
       else sections ++ ["<" +:+ tag +:+ ">" +:+ nl +:+ normalizeUserMacro s
                         +:+ nl +:+ "</" +:+ tag +:+ ">"]).
Proof.
  unfold pushSection, mbind, mret, Outcome_bind, Outcome_ret. simpl.
  destruct (String.eqb (String_trim s) EmptyString); [done|]. simpl.
  unfold normalizeUserMacro_any. simpl.
  destruct (String.eqb_spec s EmptyString) as [->|_]; done.
Qed.

(** [buildCardContext] throws exactly if one of the four fields it reads is
    no string, and it returns the empty text exactly if all four are blank
    strings. *)
Theorem card_context_needs_strings_and_is_empty_for_blank_ones card :
  let fields :=
    [ParsedCard.scenario card; ParsedCard.description card;
     ParsedCard.personality card; ParsedCard.exampleMessages card] in
  ((exists cardContext, buildCardContext card = Resolved cardContext)
   <-> Forall isText fields)
  /\ (buildCardContext card = Resolved EmptyString
      <-> Forall (fun v => exists s,
                    v = JString s /\ String_trim s = EmptyString) fields).
Proof.
  intros fields. subst fields. split.
  - rewrite <- buildCardContext_resolves. rewrite !Forall_cons.
    pose proof (Forall_nil_2 isText). tauto.
  - split.
    + intros Hempty.
      destruct (proj2 (buildCardContext_resolves card)) as (H1 & H2 & H3 & H4);
        [by eauto|].
      revert Hempty. unfold buildCardContext, mbind, mret, Outcome_bind,
        Outcome_ret.
      destruct (ParsedCard.scenario card) as [| | |s1| |]; try done.
      destruct (ParsedCard.description card) as [| | |s2| |]; try done.
      destruct (ParsedCard.personality card) as [| | |s3| |]; try done.
      destruct (ParsedCard.exampleMessages card) as [| | |s4| |]; try done.
      rewrite !pushSection_string.
      destruct (String.eqb_spec (String_trim s1) EmptyString);
        destruct (String.eqb_spec (String_trim s2) EmptyString);
        destruct (String.eqb_spec (String_trim s3) EmptyString);
        destruct (String.eqb_spec (String_trim s4) EmptyString);
        cbn [app]; intros Hempty; try discriminate Hempty.
      repeat first [apply List.Forall_nil | apply List.Forall_cons]; eauto.
    + rewrite !Forall_cons.
      unfold buildCardContext, mbind, mret, Outcome_bind, Outcome_ret.
      intros ((s1 & -> & E1) & (s2 & -> & E2) & (s3 & -> & E3)
              & (s4 & -> & E4) & _).
      rewrite pushSection_string, E1, String.eqb_refl. cbv beta iota.
      rewrite pushSection_string, E2, String.eqb_refl. cbv beta iota.
      rewrite pushSection_string, E3, String.eqb_refl. cbv beta iota.
      by rewrite pushSection_string, E4, String.eqb_refl.
Qed.

End CardContextFacts.

(** ** Instances of the statements with premises *)

Lemma normalizeUserMacro_rewrites_each_macro_witness :
  normalizeUserMacro ("Hi " +:+ "{{USER}}" +:+ ", meet {{User}}")
  = "Hi " +:+ "{{user}}" +:+ normalizeUserMacro ", meet {{User}}".
Proof.
  apply (normalizeUserMacro_rewrites_each_macro
           "Hi " "{{USER}}" ", meet {{User}}").
  - apply (bool_decide_eq_false _). vm_compute. reflexivity.
  - vm_compute. reflexivity.
Defined.

Lemma parsed_card_has_defaults_and_its_version_witness :
  exists data card,
    @JSON_parse CardRuntime.runtime cardV2 = Some data
    /\ (@parseCharacterCard CardRuntime.runtime cardV2).1
       = Resolved (Some card)
    /\ truthy (ParsedCard.name card) = true
    /\ truthy (ParsedCard.alternateGreetings card) = true
    /\ Forall (fun v => truthy v = true \/ v = JString EmptyString)
         [ParsedCard.description card; ParsedCard.personality card;
          ParsedCard.scenario card; ParsedCard.firstMessage card;
          ParsedCard.exampleMessages card]
    /\ (ParsedCard.version card = v1 <-> hasProperty "spec" data = false)
    /\ (ParsedCard.version card = v1 ->
        ParsedCard.alternateGreetings card = JArray [])
    /\ (ParsedCard.version card = v3 <->
        member (Some data) "spec"
        = Resolved (Some (JString "chara_card_v3"))).
Proof.
  eexists _, _. split; [vm_compute; reflexivity|].
  split; [vm_compute; reflexivity|].
  apply (@parsed_card_has_defaults_and_its_version CardRuntime.runtime cardV2).
  - vm_compute. reflexivity.
  - vm_compute. reflexivity.
Defined.

Lemma result_flags_and_title_agree_witness :
  let run :=
    @convertCardToScenario CardRuntime.runtime
      (fixedEnv true (Resolved {| content := conversionAnswer |}))
      cardV1 "adventure" "fantasy" None in
  exists r,
    run.1 = Resolved r
    /\ (success r = true <-> errors r = [])
    /\ (success r = false -> npcs r = [] /\ length (errors r) = 1%nat)
    /\ (success r = true -> length (importCalls run.2) = 1%nat)
    /\ match (@parseCharacterCard CardRuntime.runtime cardV1).1 with
       | Resolved (Some card) =>
           storyTitle r = ParsedCard.name card
           /\ truthy (storyTitle r) = true
       | _ => storyTitle r = JString EmptyString
       end.
Proof.
  intros run. eexists. split; [vm_compute; reflexivity|].
  apply (@result_flags_and_title_agree CardRuntime.runtime
           (fixedEnv true (Resolved {| content := conversionAnswer |}))
           cardV1 "adventure" "fantasy" None).
  vm_compute. reflexivity.
Defined.

Lemma well_typed_card_never_throws_witness :
  exists r,
    (@convertCardToScenario CardRuntime.runtime
       (fixedEnv true (Rejected "timeout"))
       cardV1 "adventure" "fantasy" None).1 = Resolved r.
Proof.
  eapply (@well_typed_card_never_throws CardRuntime.runtime
            (fixedEnv true (Rejected "timeout"))
            cardV1 "adventure" "fantasy" None).
  - vm_compute. reflexivity.
  - vm_compute. repeat split. exists []. split; [reflexivity|constructor].
Defined.

Lemma first_message_that_is_no_string_throws_witness :
  let run :=
    @convertCardToScenario CardRuntime.runtime
      (fixedEnv true (Resolved {| content := conversionAnswer |}))
      cardBooleanFirstMessage "adventure" "fantasy" None in
  run.1 = Rejected TypeError /\ importCalls run.2 = [].
Proof.
  eapply (@first_message_that_is_no_string_throws CardRuntime.runtime
            (fixedEnv true (Resolved {| content := conversionAnswer |}))
            cardBooleanFirstMessage "adventure" "fantasy" None).
  - vm_compute. reflexivity.
  - vm_compute. intros H. exact H.
Defined.

Lemma provider_failure_gives_the_fallback_witness :
  exists r,
    (@convertCardToScenario CardRuntime.runtime
       (fixedEnv true (Rejected "timeout"))
       cardV1 "adventure" "fantasy" None).1 = Resolved r
    /\ exists card firstMessage greetings seed,
         (@parseCharacterCard CardRuntime.runtime cardV1).1
         = Resolved (Some card)
         /\ normalizeUserMacro_any (ParsedCard.firstMessage card)
            = Resolved firstMessage
         /\ normalizeGreetings (ParsedCard.alternateGreetings card)
            = Resolved greetings
         /\ @fallbackSeed CardRuntime.runtime
              (fixedEnv true (Rejected "timeout")) card = Resolved seed
         /\ r = {| success := false;
                   settingSeed := JString seed;
                   npcs := [];
                   primaryCharacterName := ParsedCard.name card;
                   storyTitle := ParsedCard.name card;
                   importedFirstMessage := firstMessage;
                   importedAlternateGreetings := greetings;
                   errors :=
                     [conversionFailedMessage
                        (default "Unknown error during conversion"
                           (Some "timeout"))] |}.
Proof.
  eexists. split; [vm_compute; reflexivity|].
  apply (@provider_failure_gives_the_fallback CardRuntime.runtime
           (fixedEnv true (Rejected "timeout"))
           cardV1 "adventure" "fantasy" None "timeout").
  - intros request. reflexivity.
  - vm_compute. reflexivity.
  - vm_compute. discriminate.
Defined.

Lemma npcs_have_names_and_at_most_five_traits_witness :
  exists r,
    (@convertCardToScenario CardRuntime.runtime
       (fixedEnv true (Resolved {| content := conversionAnswer |}))
       cardV1 "adventure" "fantasy" None).1 = Resolved r
    /\ npcs r <> []
    /\ Forall (fun character =>
                 truthy (GeneratedCharacter.name character) = true
                 /\ truthy (GeneratedCharacter.role character) = true
                 /\ truthy (GeneratedCharacter.relationship character) = true
                 /\ (length (GeneratedCharacter.traits character) <= 5)%nat
                 /\ EmptyString ∉ GeneratedCharacter.traits character)
         (npcs r).
Proof.
  eexists. split; [vm_compute; reflexivity|]. split; [discriminate|].
  apply (@npcs_have_names_and_at_most_five_traits CardRuntime.runtime
           (fixedEnv true (Resolved {| content := conversionAnswer |}))
           cardV1 "adventure" "fantasy" None).
  vm_compute. reflexivity.
Defined.

Lemma replaceCharMacro_puts_a_plain_name_for_each_macro_witness :
  replaceCharMacro ("Then " +:+ "{{Char}}" +:+ " nods.") "Mira"
  = "Then " +:+ "Mira" +:+ replaceCharMacro " nods." "Mira".
Proof.
  apply (replaceCharMacro_puts_a_plain_name_for_each_macro
           "Then " "{{Char}}" " nods." "Mira").
  - apply (bool_decide_eq_false _). vm_compute. reflexivity.
  - apply (bool_decide_eq_false _). vm_compute. reflexivity.
  - vm_compute. reflexivity.
Defined.
